(** * graphql-custom-directive: a shallow embedding of [src/index.js]

    The development has two parts, mirroring the two moments at which the
    library runs:

    - request time: [defaultResolveFn], [resolveWithDirective],
      [parseSchemaDirectives] and the closure that
      [resolveMiddlewareWrapper] returns;
    - schema-construction time: [wrapFieldsWithMiddleware] and
      [applySchemaCustomDirectives], which replace resolvers in place.

    JavaScript values, exceptions, promises and the in-place mutation of the
    schema are modelled explicitly. *)

From Stdlib Require Import ZArith String Ascii List Lia DecimalString.
From stdpp Require Import base gmap strings list.

Local Open Scope string_scope.
Local Open Scope list_scope.

(** ** JavaScript values *)

(** Function objects live in the JavaScript heap; the model names them by an
    identifier and interprets calls through tables (see [Section Runtime]). *)
Definition fid := nat.

Set Warnings "-register-all,-notation-for-abbreviation".

(** The function members of [Object.prototype], which every plain object
    inherits. *)
Inductive builtin :=
| OP_constructor
| OP_defineGetter
| OP_defineSetter
| OP_hasOwnProperty
| OP_lookupGetter
| OP_lookupSetter
| OP_isPrototypeOf
| OP_propertyIsEnumerable
| OP_toString
| OP_valueOf
| OP_toLocaleString.

(** Numbers are restricted to integers (so [NaN] has no counterpart).  An
    object is a plain object: its prototype is [Object.prototype], and its
    property list holds its own enumerable properties.  A promise is
    described by the state it eventually settles in; [Pending] is a promise
    that never settles.  The only values with a callable [then] or [catch]
    that the library is taken to meet are promises: an object that carries
    such a member of its own (a thenable) is outside the model. *)
Inductive value :=
| VUndefined
| VNull
| VBool (b : bool)
| VNum (n : Z)
| VStr (s : string)
| VObj (props : list (string * value))
| VArr (items : list value)
| VFun (f : fid)
| VBuiltin (b : builtin)
| VObjectPrototype
| VError (name message : string)
| VPromise (p : promise)
with promise :=
| Fulfilled (v : value)
| Rejected (e : value)
| Pending.

(** A call either returns or throws. *)
Inductive outcome (A : Type) :=
| Ret (a : A)
| Throw (e : value).
Arguments Ret {A} a.
Arguments Throw {A} e.

Definition TypeError (message : string) : value := VError "TypeError" message.

(** [!!v] in JavaScript. *)
Definition truthy (v : value) : bool :=
  match v with
  | VUndefined | VNull => false
  | VBool b => b
  | VNum n => negb (n =? 0)%Z
  | VStr s => negb (String.eqb s "")
  | VObj _ | VArr _ | VFun _ | VBuiltin _ | VObjectPrototype
  | VError _ _ | VPromise _ => true
  end.

(** [a || b] *)
Definition js_or (a b : value) : value := if truthy a then a else b.

(** [typeof v] *)
Definition typeof (v : value) : string :=
  match v with
  | VUndefined => "undefined"
  | VNull => "object"
  | VBool _ => "boolean"
  | VNum _ => "number"
  | VStr _ => "string"
  | VObj _ | VArr _ | VObjectPrototype | VError _ _ | VPromise _ => "object"
  | VFun _ | VBuiltin _ => "function"
  end.

(** [v instanceof Object]: [Object.prototype] itself has no prototype. *)
Definition instanceof_Object (v : value) : bool :=
  match v with
  | VObj _ | VArr _ | VFun _ | VBuiltin _ | VError _ _ | VPromise _ => true
  | _ => false
  end.

(** The property list of an object is kept in enumeration order, one entry
    per property. *)
Fixpoint assoc {A : Type} (k : string) (l : list (string * A)) : option A :=
  match l with
  | [] => None
  | (k', a) :: rest => if String.eqb k k' then Some a else assoc k rest
  end.

(** The decimal numeral of an index and of an integer. *)
Definition index_key (n : nat) : string := NilZero.string_of_uint (Nat.to_uint n).

Definition integer_string (n : Z) : string := NilZero.string_of_int (Z.to_int n).

(** The element of an array, or the character of a string, that the key [k]
    names when it is the numeral of an index; [i] is the index of the head
    of [l]. *)
Fixpoint at_index {A : Type} (k : string) (i : nat) (l : list A) : option A :=
  match l with
  | [] => None
  | x :: rest => if String.eqb k (index_key i) then Some x else at_index k (S i) rest
  end.

Definition characters (s : string) : list value :=
  map (fun c => VStr (String c EmptyString)) (list_ascii_of_string s).

(** The member of [Object.prototype] that a key names. *)
Definition builtin_of_key (k : string) : option builtin :=
  if String.eqb k "constructor" then Some OP_constructor
  else if String.eqb k "__defineGetter__" then Some OP_defineGetter
  else if String.eqb k "__defineSetter__" then Some OP_defineSetter
  else if String.eqb k "hasOwnProperty" then Some OP_hasOwnProperty
  else if String.eqb k "__lookupGetter__" then Some OP_lookupGetter
  else if String.eqb k "__lookupSetter__" then Some OP_lookupSetter
  else if String.eqb k "isPrototypeOf" then Some OP_isPrototypeOf
  else if String.eqb k "propertyIsEnumerable" then Some OP_propertyIsEnumerable
  else if String.eqb k "toString" then Some OP_toString
  else if String.eqb k "valueOf" then Some OP_valueOf
  else if String.eqb k "toLocaleString" then Some OP_toLocaleString
  else None.

(** [Object.prototype[k]], read on [Object.prototype] itself ([proto] is
    then [null]) or through a plain object that has no property [k] of its
    own ([proto] is then [Object.prototype]). *)
Definition Object_prototype_member (proto : value) (k : string) : value :=
  match builtin_of_key k with
  | Some b => VBuiltin b
  | None => if String.eqb k "__proto__" then proto else VUndefined
  end.

(** [v[k]]: reading a property of [undefined] or [null] throws; a plain
    object answers with its own property or with the member it inherits from
    [Object.prototype]; a property that is found nowhere reads as
    [undefined].  Of an array and of a string, the elements and [length] are
    modelled; of an error, [name] and [message].  The other members that
    arrays, strings, functions, errors and promises take from their own
    prototypes are not modelled. *)
Definition get_prop (v : value) (k : string) : outcome value :=
  match v with
  | VUndefined => Throw (TypeError ("Cannot read property '" ++ k ++ "' of undefined"))
  | VNull => Throw (TypeError ("Cannot read property '" ++ k ++ "' of null"))
  | VObj props =>
      Ret (match assoc k props with
           | Some x => x
           | None => Object_prototype_member VObjectPrototype k
           end)
  | VObjectPrototype => Ret (Object_prototype_member VNull k)
  | VArr items =>
      Ret (if String.eqb k "length" then VNum (Z.of_nat (length items))
           else default VUndefined (at_index k 0 items))
  | VStr s =>
      Ret (if String.eqb k "length" then VNum (Z.of_nat (String.length s))
           else default VUndefined (at_index k 0 (characters s)))
  | VError name message =>
      Ret (if String.eqb k "name" then VStr name
           else if String.eqb k "message" then VStr message
           else VUndefined)
  | _ => Ret VUndefined
  end.

(** The keys that [for (k in v)] visits: the own enumerable properties of an
    object, the indices of an array or of a string; the members of
    [Object.prototype] are not enumerable. *)
Definition for_in (v : value) : list string :=
  match v with
  | VObj props => map fst props
  | VArr items => map index_key (seq 0 (length items))
  | VStr s => map index_key (seq 0 (String.length s))
  | _ => []
  end.

(** [Object.keys(v)] for the values that the library applies it to:
    [parseSchemaDirectives] calls it only after [directives instanceof
    Object] has held, and there it lists what [for (k in v)] visits.  On the
    other values, a string among them, the library returns before the call,
    and the list is left empty. *)
Definition keys (v : value) : list string :=
  match v with
  | VObj props => map fst props
  | VArr items => map index_key (seq 0 (length items))
  | _ => []
  end.

(** [Promise.resolve(v)]: a promise is returned as it is. *)
Definition Promise_resolve (v : value) : promise :=
  match v with
  | VPromise p => p
  | _ => Fulfilled v
  end.

(** ** GraphQL data read by the library *)

Inductive value_node :=
| LiteralNode (v : value)
| VariableNode (name : string).

(** Arguments of a directive node: the parser's [Argument] nodes for
    directives written in the query, and the nodes that
    [parseSchemaDirectives] builds. *)
Inductive arg_node :=
| Argument (name : string) (value : value_node)
| InputValueDefinition (description name type defaultValue : value).

Record directive_node := {
  dn_kind : string;
  dn_description : value;
  dn_name : string;                 (* name.value *)
  dn_arguments : list arg_node
}.

Record field_node := { fn_directives : list directive_node }.

(** An entry of [schema._directives]: a [GraphQLDirective], which carries a
    [resolve] member only when [GraphQLCustomDirective] was given one. *)
Record directiveConfig := {
  d_name : string;
  d_args : value;
  d_resolve : option fid
}.

Record info := {
  fieldName : string;
  fieldNodes : list field_node;     (* info.fieldASTs || info.fieldNodes *)
  schema_directives : list directiveConfig;   (* info.schema._directives *)
  variableValues : value
}.

Definition DEFAULT_DIRECTIVES : list string := ["skip"; "include"].

(** [DEFAULT_DIRECTIVES.indexOf(name) === -1] *)
Definition not_default (name : string) : bool :=
  negb (existsb (String.eqb name) DEFAULT_DIRECTIVES).

(** What a field's [resolve] slot can hold: a function supplied by the
    schema author, the library's [defaultResolveFn], or a closure returned by
    [resolveMiddlewareWrapper], which captures the resolver it wraps and the
    parsed static directives. *)
Inductive resolver :=
| DefaultResolve
| Native (f : fid)
| Wrapped (resolve : resolver) (serverDirectives : list directive_node).

(** ** parseSchemaDirectives *)

(** Sequencing of calls that may throw. *)
Definition obind {A B : Type} (o : outcome A) (f : A -> outcome B) : outcome B :=
  match o with
  | Ret a => f a
  | Throw e => Throw e
  end.

Fixpoint omap {A B : Type} (f : A -> outcome B) (l : list A) : outcome (list B) :=
  match l with
  | [] => Ret []
  | a :: rest =>
      obind (f a) (fun b => obind (omap f rest) (fun bs => Ret (b :: bs)))
  end.

(** The body of the inner loop: [arg = directives.args[argName]] and the
    pushed [InputValueDefinition]. *)
Definition parse_arg (args_obj : value) (argName : string) : outcome arg_node :=
  obind (get_prop args_obj argName) (fun arg =>
  obind (get_prop arg "description") (fun description =>
  obind (get_prop arg "name") (fun name =>
  obind (get_prop arg "type") (fun type =>
  obind (get_prop arg "defaultValue") (fun defaultValue =>
  Ret (InputValueDefinition description name type defaultValue)))))).

(** The body of the outer loop.  The source reads [directives.args], the
    entry of the configuration called [args], for every directive. *)
Definition parse_directive (directives : value) (directiveName : string)
  : outcome directive_node :=
  obind (get_prop directives "args") (fun args_obj =>
  obind (omap (parse_arg args_obj) (for_in (js_or args_obj (VArr [])))) (fun directiveArgNodes =>
  obind (get_prop directives directiveName) (fun cfg =>
  obind (get_prop cfg "description") (fun description =>
  Ret {| dn_kind := "DirectiveDefinition";
         dn_description := description;
         dn_name := directiveName;
         dn_arguments := directiveArgNodes |})))).

Definition parseSchemaDirectives (directives : value) : outcome (list directive_node) :=
  if negb (truthy directives)
     || negb (instanceof_Object directives)
     || (length (keys directives) =? 0)%nat
  then Ret []
  else omap (parse_directive directives) (keys directives).

(** ** Request time: the wrapped resolver

    One field resolution is modelled as run to quiescence.  The callbacks
    that the library registers with [then] and [catch] run when the promise
    they are registered on settles, in the order of registration; the model
    performs them in that order, threading the user state through the calls
    of user code one after the other.  A transform is any function of its
    five arguments and of the user state; what it returns is a value, which
    is a promise when the transform keeps to its contract. *)

Section Runtime.

(** The state that user code (resolvers, methods of source objects and
    directive transforms) can read and write. *)
Variable U : Type.

(** A JavaScript function run by user code: it returns or throws, and may
    change the user state. *)
Definition eff (A : Type) : Type := U -> outcome A * U.

(** A field resolver [(source, args, context, info) => ...]. *)
Definition resolver_fn : Type := value -> value -> value -> info -> eff value.

(** The [next] argument of a transform: [() => promise]. *)
Definition thunk : Type := eff promise.

(** A directive transform
    [(next, source, args, context, info) => ...]. *)
Definition transform : Type :=
  thunk -> value -> value -> value -> info -> eff value.

(** The host engine's [getDirectiveValues(directiveDef, node, variables)];
    the library passes [{directives: [directive]}] as the node. *)
Variable getDirectiveValues :
  option directiveConfig -> list directive_node -> value -> outcome value.

(** What calling a function object does: zero-argument methods of source
    objects, and the [resolve] members of custom directives. *)
Variable methods : fid -> eff value.
Variable transforms : fid -> transform.
Variable natives : fid -> resolver_fn.

(** *** Observing one field resolution

    Two kinds of events are recorded, in the order in which they happen:
    every call [directiveConfig.resolve(resolve, source, args, context,
    info)], with the values it passes and what it returned or threw, and
    every promise that the variable [defer] comes to hold, with the directive
    whose step it is.  The three closures the library builds for [resolve]
    are told apart by [next_kind]. *)
Inductive next_kind :=
| NextField                       (* () => Promise.resolve(resolve(source, args, context, info)) *)
| NextResolved (result : value)   (* () => Promise.resolve(result) *)
| NextRejected (e : value).       (* () => Promise.reject(e) *)

Record call := {
  c_directive : string;
  c_next : next_kind;
  c_source : value;
  c_args : value;
  c_context : value;
  c_info : info;
  c_result : outcome value
}.

Inductive event :=
| Invoke (c : call)
| Defer (directive : directive_node) (p : promise).

Record closure := { cl_kind : next_kind; cl_run : thunk }.

(** Library code: user state, exceptions, and the events so far. *)
Definition M (A : Type) : Type := U -> outcome A * U * list event.

Definition ret {A : Type} (a : A) : M A := fun u => (Ret a, u, []).
Definition throw {A : Type} (e : value) : M A := fun u => (Throw e, u, []).
Definition bind {A B : Type} (m : M A) (f : A -> M B) : M B :=
  fun u =>
    match m u with
    | (Ret a, u1, l1) => let '(r, u2, l2) := f a u1 in (r, u2, l1 ++ l2)
    | (Throw e, u1, l1) => (Throw e, u1, l1)
    end.
Definition lift {A : Type} (c : eff A) : M A :=
  fun u => let '(r, u1) := c u in (r, u1, []).
Definition lift_outcome {A : Type} (o : outcome A) : M A :=
  fun u => (o, u, []).
Definition emit (ev : event) : M unit := fun u => (Ret tt, u, [ev]).

Notation "'do' x <- m ; k" := (bind m (fun x => k))
  (at level 10, x name, m at level 100, k at level 200).
Notation "'run' m ; k" := (bind m (fun _ => k))
  (at level 10, m at level 100, k at level 200).

(** *** defaultResolveFn *)

(** [this.hasOwnProperty(undefined)] and [this.propertyIsEnumerable(undefined)]:
    the missing argument is converted to the key [undefined]. *)
Definition has_own_undefined (this : value) : bool :=
  match this with
  | VObj props => match assoc "undefined" props with Some _ => true | None => false end
  | _ => false
  end.

(** [Object.prototype.toString.call(this)] *)
Definition object_tag (this : value) : string :=
  match this with
  | VUndefined => "[object Undefined]"
  | VNull => "[object Null]"
  | VBool _ => "[object Boolean]"
  | VNum _ => "[object Number]"
  | VStr _ => "[object String]"
  | VObj _ | VObjectPrototype => "[object Object]"
  | VArr _ => "[object Array]"
  | VFun _ | VBuiltin _ => "[object Function]"
  | VError _ _ => "[object Error]"
  | VPromise _ => "[object Promise]"
  end.

(** A function member of [Object.prototype] called as a method of [this]
    without arguments.  [toLocaleString] calls [this.toString()] and is
    treated below. *)
Definition Object_prototype_call (b : builtin) (this : value) : option (outcome value) :=
  match b with
  | OP_constructor => Some (Ret (VObj []))
  | OP_defineGetter =>
      Some (Throw (TypeError "Object.prototype.__defineGetter__: Expecting function"))
  | OP_defineSetter =>
      Some (Throw (TypeError "Object.prototype.__defineSetter__: Expecting function"))
  | OP_hasOwnProperty | OP_propertyIsEnumerable => Some (Ret (VBool (has_own_undefined this)))
  | OP_lookupGetter | OP_lookupSetter => Some (Ret VUndefined)
  | OP_isPrototypeOf => Some (Ret (VBool false))
  | OP_toString => Some (Ret (VStr (object_tag this)))
  | OP_valueOf => Some (Ret this)
  | OP_toLocaleString => None
  end.

Definition call_builtin (b : builtin) (this : value) : eff value :=
  match Object_prototype_call b this with
  | Some r => fun u => (r, u)
  | None =>
      match get_prop this "toString" with
      | Throw e => fun u => (Throw e, u)
      | Ret (VFun f) => methods f
      | Ret (VBuiltin b') =>
          match Object_prototype_call b' this with
          | Some r => fun u => (r, u)
          | None => fun u => (Throw (VError "RangeError" "Maximum call stack size exceeded"), u)
          end
      | Ret _ => fun u => (Throw (TypeError "this.toString is not a function"), u)
      end
  end.

Definition defaultResolveFn : resolver_fn :=
  fun source args context info =>
    let fieldName := fieldName info in
    if String.eqb (typeof source) "object" || String.eqb (typeof source) "function"
    then
      match get_prop source fieldName with
      | Throw e => fun u => (Throw e, u)
      | Ret (VFun f) => methods f
      | Ret (VBuiltin b) => call_builtin b source
      | Ret v => fun u => (Ret v, u)
      end
    else fun u => (Ret VUndefined, u).

(** *** resolveWithDirective *)

(** [info.schema._directives.filter(d => directive.name.value === d.name)[0]] *)
Definition find_directive (i : info) (directive : directive_node)
  : option directiveConfig :=
  head (List.filter (fun d => String.eqb (dn_name directive) (d_name d))
                    (schema_directives i)).

(** [x.p] where [x] is [a || {}], hence never [undefined] or [null]. *)
Definition prop_or_undefined (v : value) (k : string) : value :=
  match get_prop v k with
  | Ret x => x
  | Throw _ => VUndefined
  end.

(** [source || variableValues.input_0 || variableValues.input || {}] with
    [variableValues] read as [(info || {}).variableValues || {}]. *)
Definition effective_source (source : value) (i : info) : value :=
  let vars := js_or (variableValues i) (VObj []) in
  js_or (js_or (js_or source (prop_or_undefined vars "input_0"))
               (prop_or_undefined vars "input"))
        (VObj []).

(** The call [directiveConfig.resolve(resolve, source, args, context, info)]:
    the transform runs with these five arguments, and the event records the
    very same ones together with what the transform returned or threw. *)
Definition call_transform (f : fid) (directive : directive_node) (resolve : closure)
    (source args context : value) (i : info) : M value :=
  fun u =>
    let '(r, u1) := transforms f (cl_run resolve) source args context i u in
    (r, u1, [Invoke {| c_directive := dn_name directive;
                       c_next := cl_kind resolve;
                       c_source := source;
                       c_args := args;
                       c_context := context;
                       c_info := i;
                       c_result := r |}]).

Definition resolveWithDirective (resolve : closure) (source : value)
    (directive : directive_node) (context : value) (i : info) : M value :=
  let source := effective_source source i in
  let directiveConfig := find_directive i directive in
  do args <- lift_outcome (getDirectiveValues directiveConfig [directive] (variableValues i)) ;
  match directiveConfig with
  | None => throw (TypeError "Cannot read property 'resolve' of undefined")
  | Some cfg =>
      match d_resolve cfg with
      | None => throw (TypeError "directiveConfig.resolve is not a function")
      | Some f => call_transform f directive resolve source args context i
      end
  end.

(** The event of a call made by [resolveWithDirective] on behalf of a
    resolver that received [source]. *)
Definition the_call (next : next_kind) (source : value)
    (directive : directive_node) (context : value) (i : info)
    (args : value) (r : outcome value) : call :=
  {| c_directive := dn_name directive;
     c_next := next;
     c_source := effective_source source i;
     c_args := args;
     c_context := context;
     c_info := i;
     c_result := r |}.

(** *** Promise plumbing used by the wrapped resolver *)

(** [() => Promise.resolve(resolve(source, args, context, info))] *)
Definition field_closure (resolve : resolver_fn)
    (source args context : value) (i : info) : closure :=
  {| cl_kind := NextField;
     cl_run := fun u =>
       match resolve source args context i u with
       | (Ret r, u1) => (Ret (Promise_resolve r), u1)
       | (Throw e, u1) => (Throw e, u1)
       end |}.

(** [() => Promise.resolve(result)] *)
Definition resolved_closure (result : value) : closure :=
  {| cl_kind := NextResolved result;
     cl_run := fun u => (Ret (Promise_resolve result), u) |}.

(** [() => Promise.reject(e)] *)
Definition rejected_closure (e : value) : closure :=
  {| cl_kind := NextRejected e;
     cl_run := fun u => (Ret (Rejected e), u) |}.

(** Whether [v.catch] can be called: a promise has the method, and an object
    may carry a function under that name. *)
Definition callable_catch (v : value) : bool :=
  match v with
  | VPromise _ => true
  | VObj props =>
      match assoc "catch" props with
      | Some (VFun _) | Some (VBuiltin _) => true
      | _ => false
      end
  | _ => false
  end.

(** [defer.catch(...)] on what the first transform returned.  On a promise
    the handler is registered; on a value without a callable [catch] the call
    throws.  An object with a [catch] function of its own would hand the
    handler to that function: such thenables are outside the model (see
    [value]), and the facts that depend on it assume [callable_catch] to be
    false. *)
Definition no_catch_method (defer : value) : value :=
  match defer with
  | VUndefined => TypeError "Cannot read property 'catch' of undefined"
  | VNull => TypeError "Cannot read property 'catch' of null"
  | _ => TypeError "defer.catch is not a function"
  end.

Definition as_promise (defer : value) : M promise :=
  match defer with
  | VPromise p => ret p
  | _ => throw (no_catch_method defer)
  end.

(** [p.then(cb)]: the callback runs once [p] is fulfilled; what it returns
    is adopted, what it throws rejects the new promise; a rejection of [p]
    passes through. *)
Definition promise_then (p : promise) (cb : value -> M value) : M promise :=
  match p with
  | Fulfilled v =>
      fun u =>
        match cb v u with
        | (Ret r, u1, l) => (Ret (Promise_resolve r), u1, l)
        | (Throw e, u1, l) => (Ret (Rejected e), u1, l)
        end
  | Rejected e => ret (Rejected e)
  | Pending => ret Pending
  end.

(** [p.catch(handler);] as a statement: the handler runs once [p] is
    rejected, and the promise [catch] returns is dropped. *)
Definition promise_catch_ (p : promise) (handler : value -> M value) : M unit :=
  match p with
  | Rejected e =>
      fun u => let '(_, u1, l) := handler e u in (Ret tt, u1, l)
  | _ => ret tt
  end.

(** *** The closure returned by resolveMiddlewareWrapper *)

(** [(info.fieldASTs || info.fieldNodes)[0].directives] *)
Definition field_directives (i : info) : M (list directive_node) :=
  match fieldNodes i with
  | n :: _ => ret (fn_directives n)
  | [] => throw (TypeError "Cannot read property 'directives' of undefined")
  end.

Section Wrapped.
Variable resolve : resolver_fn.
Variable serverDirectives : list directive_node.
Variables source args context : value.
Variable i : info.

(** The [for (let directiveNext of directives.slice(1))] loop, with
    [defer] as the accumulator. *)
Fixpoint pipeline_loop (rest : list directive_node) (defer : promise) : M promise :=
  match rest with
  | [] => ret defer
  | directiveNext :: rest' =>
      do defer' <- promise_then defer (fun result =>
                     resolveWithDirective (resolved_closure result)
                                          source directiveNext context i) ;
      run emit (Defer directiveNext defer') ;
      run promise_catch_ defer' (fun e =>
            resolveWithDirective (rejected_closure e)
                                 source directiveNext context i) ;
      pipeline_loop rest' defer'
  end.

Definition wrapped_resolver : M value :=
  do nodes <- field_directives i ;
  let directives := serverDirectives ++ nodes in
  match head (List.filter (fun d => not_default (dn_name d)) directives) with
  | None => lift (resolve source args context i)
  | Some directive =>
      do first <- resolveWithDirective (field_closure resolve source args context i)
                                       source directive context i ;
      do defer <- as_promise first ;
      run emit (Defer directive defer) ;
      run promise_catch_ defer (fun e =>
            resolveWithDirective (rejected_closure e) source directive context i) ;
      if (length directives <=? 1)%nat
      then ret (VPromise defer)
      else
        do defer' <- pipeline_loop (tail directives) defer ;
        ret (VPromise defer')
  end.
End Wrapped.

(** The wrapped resolver as the host engine sees it. *)
Definition run_wrapped (resolve : resolver_fn)
    (serverDirectives : list directive_node) : resolver_fn :=
  fun source args context i u =>
    fst (wrapped_resolver resolve serverDirectives source args context i u).

(** What calling the content of a [resolve] slot does. *)
Fixpoint resolver_denote (r : resolver) : resolver_fn :=
  match r with
  | DefaultResolve => defaultResolveFn
  | Native f => natives f
  | Wrapped inner serverDirectives =>
      run_wrapped (resolver_denote inner) serverDirectives
  end.

(** The events of a computation, what it returns or throws, and the
    transform invocations among its events. *)
Definition trace_of {A : Type} (m : M A) (u : U) : list event := snd (m u).
Definition result_of {A : Type} (m : M A) (u : U) : outcome A := fst (fst (m u)).

Fixpoint invocations (t : list event) : list call :=
  match t with
  | [] => []
  | Invoke c :: t' => c :: invocations t'
  | Defer _ _ :: t' => invocations t'
  end.

Definition calls_of {A : Type} (m : M A) (u : U) : list call :=
  invocations (trace_of m u).

(** An invocation on the main chain: the catch handlers are the only ones to
    pass a rejecting [next]. *)
Definition is_main (c : call) : bool :=
  match c_next c with
  | NextRejected _ => false
  | _ => true
  end.

(** The directive [d] can be invoked: it is registered with a [resolve]
    member [f] and its arguments resolve to [args]. *)
Definition invocable (i : info) (d : directive_node) (f : fid) (args : value) : Prop :=
  exists cfg,
    find_directive i d = Some cfg /\ d_resolve cfg = Some f /\
    getDirectiveValues (Some cfg) [d] (variableValues i) = Ret args.

(** The promise of a step, from what its transform returned or threw inside
    [then]. *)
Definition settled (c : call) : promise :=
  match c_result c with
  | Ret r => Promise_resolve r
  | Throw e => Rejected e
  end.

(** A resolution that does not succeed: it throws, or its promise is
    rejected or never settles. *)
Definition fails (r : outcome value) : Prop :=
  match r with
  | Throw _ => True
  | Ret (VPromise (Fulfilled _)) => False
  | Ret (VPromise _) => True
  | Ret _ => False
  end.

(** *** The pipeline, told by what the transforms return

    The claims about the pipeline are stated on the calls of the transforms
    themselves: which closure, source, arguments, context and info a
    transform is applied to, in which user state, and what it returns. *)

(** The transform of the directive [d] is called with the closure [next],
    the effective source, the resolved arguments, the context and the info,
    in the state [u]; it returns or throws [r] and leaves the state [u']. *)
Definition calls (source context : value) (i : info) (next : thunk)
    (d : directive_node) (u : U) (r : outcome value) (u' : U) : Prop :=
  exists f args,
    invocable i d f args /\
    transforms f next (effective_source source i) args context i u = (r, u').

(** The promise that [then] makes of what its callback returned or threw. *)
Definition outcome_promise (r : outcome value) : promise :=
  match r with
  | Ret v => Promise_resolve v
  | Throw e => Rejected e
  end.

(** The directives [ds] run one after the other and every step fulfils:
    starting from the value [v] in the state [u], each transform is called
    with a closure producing a promise of the value of the step before, and
    the last step is fulfilled with [v'] in the state [u']. *)
Inductive fulfilled_chain (source context : value) (i : info)
  : list directive_node -> value -> U -> value -> U -> Prop :=
| chain_done v u : fulfilled_chain source context i [] v u v u
| chain_step d ds v u r u1 v1 v' u' :
    calls source context i (cl_run (resolved_closure v)) d u (Ret r) u1 ->
    Promise_resolve r = Fulfilled v1 ->
    fulfilled_chain source context i ds v1 u1 v' u' ->
    fulfilled_chain source context i (d :: ds) v u v' u'.

(** After a rejection with [e], the directives [ds] are only visited by
    their [catch] handlers: the transform of each directive that can be
    invoked is called once, with a closure producing a promise rejected with
    [e], and what it returns is dropped; [u'] is the state after the last
    one. *)
Inductive rejected_tail (source context : value) (i : info) (e : value)
  : list directive_node -> U -> U -> Prop :=
| tail_done u : rejected_tail source context i e [] u u
| tail_handler d ds u r u1 u' :
    calls source context i (cl_run (rejected_closure e)) d u r u1 ->
    rejected_tail source context i e ds u1 u' ->
    rejected_tail source context i e (d :: ds) u u'
| tail_idle d ds u u' :
    (forall f args, ~ invocable i d f args) ->
    rejected_tail source context i e ds u u' ->
    rejected_tail source context i e (d :: ds) u u'.

(** What the events after a rejection with [e] look like: every promise
    that [defer] holds is rejected with [e], and every call of a transform is
    made by a [catch] handler. *)
Definition after_rejection (e : value) (ev : event) : Prop :=
  match ev with
  | Defer _ p => p = Rejected e
  | Invoke c => c_next c = NextRejected e
  end.

End Runtime.

Arguments cl_kind {U} _.
Arguments cl_run {U} _.
Arguments ret {U A} _.
Arguments throw {U A} _.
Arguments bind {U A B} _ _.
Arguments lift {U A} _.
Arguments lift_outcome {U A} _.
Arguments emit {U} _.
Arguments field_closure {U} _ _ _ _ _.
Arguments resolved_closure {U} _.
Arguments rejected_closure {U} _.
Arguments as_promise {U} _.
Arguments call_transform {U} _ _ _ _ _ _ _ _.
Arguments promise_then {U} _ _.
Arguments promise_catch_ {U} _ _.
Arguments field_directives {U} _.
Arguments resolveWithDirective {U} _ _ _ _ _ _ _.
Arguments pipeline_loop {U} _ _ _ _ _ _ _.
Arguments wrapped_resolver {U} _ _ _ _ _ _ _ _.
Arguments run_wrapped {U} _ _ _ _.
Arguments call_builtin {U} _ _ _.
Arguments defaultResolveFn {U} _.
Arguments resolver_denote {U} _ _ _ _ _.
Arguments trace_of {U A} _ _.
Arguments result_of {U A} _ _.
Arguments calls_of {U A} _ _.
Arguments calls {U} _ _ _ _ _ _ _ _ _ _.
Arguments fulfilled_chain {U} _ _ _ _ _ _ _ _ _ _.
Arguments rejected_tail {U} _ _ _ _ _ _ _ _ _.

(** Two families of transforms agree wherever the source is [s], the context
    [context] and the info [i]: they may differ on every other call. *)
Definition agree_at {U : Type} (tr1 tr2 : fid -> transform U)
    (context : value) (i : info) (s : value) : Prop :=
  forall f next args u, tr1 f next s args context i u = tr2 f next s args context i u.

(** ** Schema-construction time: the graph walk *)

(** [field.type]: a named type, or a list / non-null wrapper around a type. *)
Inductive type_ref :=
| Named (name : string)
| ListOf (ofType : type_ref)
| NonNull (ofType : type_ref).

Record field := {
  f_type : type_ref;
  f_resolve : option resolver;      (* [None] is [undefined] *)
  f_directives : value              (* the static configuration *)
}.

(** A field map [type._fields], in enumeration order. *)
Notation field_map := (list (string * field)).

(** The type objects of the schema that have a [_fields] member (object,
    interface and input-object types), by name: a schema holds one type per
    name.  A name outside the heap is a type without [_fields] (a scalar, an
    enum or a union).  The heap is shared: resolvers are replaced in it. *)
Notation heap := (gmap string field_map).

(** [t.name]: wrappers have none. *)
Definition type_name (t : type_ref) : option string :=
  match t with
  | Named n => Some n
  | _ => None
  end.

(** [t._fields] *)
Definition type_fields (h : heap) (t : type_ref) : option field_map :=
  match t with
  | Named n => h !! n
  | _ => None
  end.

(** [t.ofType] *)
Definition type_ofType (t : type_ref) : option type_ref :=
  match t with
  | Named _ => None
  | ListOf t' | NonNull t' => Some t'
  end.

(** [while (child.ofType) child = child.ofType;] *)
Fixpoint unwrap (child : type_ref) : type_ref :=
  match child with
  | Named _ => child
  | ListOf t | NonNull t => unwrap t
  end.

(** The property key a name is converted to: [undefined] becomes the string
    of that spelling. *)
Definition property_key (name : option string) : string :=
  default "undefined" name.

(** [typeMet] starts as the object literal [{}], so a lookup also finds the
    members inherited from [Object.prototype]. *)
Definition Object_prototype_keys : list string :=
  [ "constructor"; "__defineGetter__"; "__defineSetter__"; "hasOwnProperty";
    "__lookupGetter__"; "__lookupSetter__"; "isPrototypeOf";
    "propertyIsEnumerable"; "toString"; "valueOf"; "__proto__";
    "toLocaleString" ].

(** [!!typeMet[key]]; the own keys of [typeMet] are all set to [true]. *)
Definition typeMet_has (typeMet : gset string) (key : string) : bool :=
  bool_decide (key ∈ typeMet) || existsb (String.eqb key) Object_prototype_keys.

(** [resolveMiddlewareWrapper(resolve = defaultResolveFn, directives = {})]:
    the static directives are parsed once, when the field is wrapped. *)
Definition resolveMiddlewareWrapper (resolve : option resolver) (directives : value)
  : outcome resolver :=
  let resolve := default DefaultResolve resolve in
  let directives := match directives with VUndefined => VObj [] | _ => directives end in
  obind (parseSchemaDirectives directives) (fun serverDirectives =>
  Ret (Wrapped resolve serverDirectives)).

(** The field [f] after [f.resolve = r]. *)
Definition with_resolve (f : field) (r : resolver) : field :=
  {| f_type := f_type f; f_resolve := Some r; f_directives := f_directives f |}.

(** [field.resolve = r] for the field [label] of the type [tname]. *)
Fixpoint set_resolve (label : string) (r : resolver) (fields : field_map) : field_map :=
  match fields with
  | [] => []
  | (l, f) :: rest =>
      if String.eqb label l
      then (l, with_resolve f r) :: rest
      else (l, f) :: set_resolve label r rest
  end.

Definition assign_resolve (tname label : string) (r : resolver) (h : heap) : heap :=
  alter (set_resolve label r) tname h.

(** How a walk ends: normally, with the heap and the visited names, or by an
    exception, which leaves the heap as it was when thrown. *)
Inductive walk_result :=
| Done (h : heap) (typeMet : gset string)
| Threw (e : value) (h : heap).

Definition heap_of (res : walk_result) : heap :=
  match res with
  | Done h _ => h
  | Threw _ h => h
  end.

(** [type._fields[label]] for the type called [tname]. *)
Definition field_of (h : heap) (tname label : string) : option field :=
  h !! tname ≫= assoc label.

(** The call [wrapFieldsWithMiddleware(child._fields)] of the list / non-null
    branch: the function runs with a field map in the place of a type.  Its
    [_fields] is then the field labelled [_fields], if there is one, and the
    visited set is a fresh one.  Without such a field the loop has nothing to
    enumerate.  With one, the loop enumerates the members of that field
    object; its [type] member is a type object, which has no [type] member of
    its own, so [field.type.name] reads a property of [undefined]. *)
Definition wrapFieldsWithMiddleware_field_map (fields : field_map) : outcome unit :=
  match assoc "_fields" fields with
  | None => Ret tt
  | Some _ => Throw (TypeError "Cannot read property 'name' of undefined")
  end.

(** The body of [for (let label in fields)], for one label.  [recurse] is
    the recursive call [wrapFieldsWithMiddleware(field.type, deepWrap,
    typeMet)]. *)
Definition visit_field
    (recurse : string -> heap -> gset string -> option walk_result)
    (tname : string) (deepWrap : bool)
    (label : string) (h : heap) (typeMet : gset string) : option walk_result :=
  match field_of h tname label with
  | None => Some (Done h typeMet)
  | Some field =>
      if typeMet_has typeMet (property_key (type_name (f_type field)))
      then Some (Done h typeMet)
      else
        match resolveMiddlewareWrapper (f_resolve field) (f_directives field) with
        | Throw e => Some (Threw e h)
        | Ret r =>
            let h := assign_resolve tname label r h in
            match type_fields h (f_type field), f_type field with
            | Some _, Named n =>
                if deepWrap then recurse n h typeMet else Some (Done h typeMet)
            | _, _ =>
                match type_ofType (f_type field) with
                | Some ofType =>
                    match type_fields h ofType with
                    | Some _ =>
                        if deepWrap then
                          match type_fields h (unwrap (f_type field)) with
                          | Some child_fields =>
                              match wrapFieldsWithMiddleware_field_map child_fields with
                              | Ret _ => Some (Done h typeMet)
                              | Throw e => Some (Threw e h)
                              end
                          | None => Some (Done h typeMet)
                          end
                        else Some (Done h typeMet)
                    | None => Some (Done h typeMet)
                    end
                | None => Some (Done h typeMet)
                end
            end
        end
  end.

(** The loop itself: an exception ends it. *)
Fixpoint for_labels
    (body : string -> heap -> gset string -> option walk_result)
    (labels : list string) (h : heap) (typeMet : gset string) : option walk_result :=
  match labels with
  | [] => Some (Done h typeMet)
  | label :: rest =>
      match body label h typeMet with
      | Some (Done h' typeMet') => for_labels body rest h' typeMet'
      | other => other
      end
  end.

(** [wrapFieldsWithMiddleware(type, deepWrap, typeMet)] for a type object.
    The recursion is not structural, so it is bounded by [fuel]; [None] means
    that the bound was reached. *)
Fixpoint walk (fuel : nat) (deepWrap : bool) (tname : string)
    (h : heap) (typeMet : gset string) : option walk_result :=
  match fuel with
  | O => None
  | S fuel' =>
      let fields := h !! tname in
      let typeMet := {[ tname ]} ∪ typeMet in
      for_labels (visit_field (walk fuel' deepWrap) tname deepWrap)
                 (match fields with Some fs => map fst fs | None => [] end)
                 h typeMet
  end.

(** The entry point [wrapFieldsWithMiddleware(type, deepWrap = true,
    typeMet = {})]; [None] for [type] is an absent ([undefined] or [null])
    root.  One unit of fuel per type of the heap, and one for the root. *)
Definition wrapFieldsWithMiddleware (type : option string) (deepWrap : bool) (h : heap)
  : option walk_result :=
  match type with
  | None => Some (Done h ∅)
  | Some tname => walk (S (size h)) deepWrap tname h ∅
  end.

(** Every field map of the heap lists each label once. *)
Definition well_labelled (h : heap) : Prop :=
  forall t fs, h !! t = Some fs -> NoDup (map fst fs).

(** From [h0] to [h'], every field kept its resolver or had it replaced, once,
    by the wrapped version of the resolver it had in [h0]. *)
Definition replaced_at_most_once (h0 h' : heap) : Prop :=
  forall t l f,
    field_of h0 t l = Some f ->
    field_of h' t l = Some f \/
    exists w,
      resolveMiddlewareWrapper (f_resolve f) (f_directives f) = Ret w /\
      field_of h' t l = Some (with_resolve f w).

(** What a walk from the type [n] guarantees, when it starts in the heap
    [hc] with the names [mc] marked and [h0] is the heap before any walk: no
    field is replaced twice, the marked types are not touched, and the types
    that remain unmarked are as in [h0]. *)
Definition walk_post (h0 : heap) (n : string) (hc : heap) (mc : gset string)
    (res : walk_result) : Prop :=
  replaced_at_most_once h0 (heap_of res)
  /\ (forall t, t ∈ mc -> heap_of res !! t = hc !! t)
  /\ (forall h' m', res = Done h' m' ->
        {[n]} ∪ mc ⊆ m' /\ forall t, t ∉ m' -> h' !! t = h0 !! t).

(** A [GraphQLSchema] instance: its two root types. *)
Record schema := {
  _queryType : option string;
  _mutationType : option string
}.

(** What [applySchemaCustomDirectives] is called with. *)
Inductive argument :=
| NotASchema (v : value)
| SchemaInstance (s : schema).

Definition usage_error : value :=
  VError "Error" "Schema must be instanceof GraphQLSchema".

(** [applySchemaCustomDirectives(schema)]: what it returns or throws, and
    the heap it leaves. *)
Definition applySchemaCustomDirectives (a : argument) (h : heap)
  : option (outcome value * heap) :=
  match a with
  | NotASchema _ => Some (Throw usage_error, h)
  | SchemaInstance s =>
      match wrapFieldsWithMiddleware (_queryType s) true h with
      | None => None
      | Some (Threw e h1) => Some (Throw e, h1)
      | Some (Done h1 _) =>
          match wrapFieldsWithMiddleware (_mutationType s) false h1 with
          | None => None
          | Some (Threw e h2) => Some (Throw e, h2)
          | Some (Done h2 _) => Some (Ret (VBool true), h2)
          end
      end
  end.

(** ** The directives of the repository's test suite

    [duplicate], [throws] and [catch] as the tests declare them, with the
    array [errors] as the user state.  They serve as concrete inputs. *)
Module Scenario.

(** The array [errors] of the tests. *)
Definition errors := list value.

(** A stand-in for the host engine's [getDirectiveValues]: the literal
    arguments of the node and the variables it refers to; reading the name of
    an [undefined] directive definition throws. *)
Definition argument_value (vars : value) (a : arg_node) : list (string * value) :=
  match a with
  | Argument name (LiteralNode v) => [(name, v)]
  | Argument name (VariableNode x) =>
      match get_prop (js_or vars (VObj [])) x with
      | Ret v => [(name, v)]
      | Throw _ => []
      end
  | InputValueDefinition _ _ _ _ => []
  end.

Definition getDirectiveValues (cfg : option directiveConfig)
    (directives : list directive_node) (vars : value) : outcome value :=
  match cfg with
  | None => Throw (TypeError "Cannot read property 'name' of undefined")
  | Some c =>
      match List.filter (fun d => String.eqb (dn_name d) (d_name c)) directives with
      | d :: _ => Ret (VObj (concat (map (argument_value vars) (dn_arguments d))))
      | [] => Ret VUndefined
      end
  end.

(** The name under which a member of [Object.prototype] prints. *)
Definition builtin_name (b : builtin) : string :=
  match b with
  | OP_constructor => "Object"
  | OP_defineGetter => "__defineGetter__"
  | OP_defineSetter => "__defineSetter__"
  | OP_hasOwnProperty => "hasOwnProperty"
  | OP_lookupGetter => "__lookupGetter__"
  | OP_lookupSetter => "__lookupSetter__"
  | OP_isPrototypeOf => "isPrototypeOf"
  | OP_propertyIsEnumerable => "propertyIsEnumerable"
  | OP_toString => "toString"
  | OP_valueOf => "valueOf"
  | OP_toLocaleString => "toLocaleString"
  end.

(** The string that [Array.prototype.join] makes of an element:
    [undefined] and [null] give the empty string, an array is joined with
    commas.  An object is taken not to redefine [toString], and the text of
    a user function is not modelled. *)
Fixpoint element_string (v : value) : string :=
  match v with
  | VUndefined | VNull => ""
  | VBool b => if b then "true" else "false"
  | VNum n => integer_string n
  | VStr s => s
  | VObj _ | VObjectPrototype => "[object Object]"
  | VArr items =>
      (fix commas (l : list value) : string :=
         match l with
         | [] => ""
         | x :: rest =>
             match rest with
             | [] => element_string x
             | _ :: _ => (element_string x ++ "," ++ commas rest)%string
             end
         end) items
  | VFun _ => "function () { [native code] }"
  | VBuiltin b => ("function " ++ builtin_name b ++ "() { [native code] }")%string
  | VError name message =>
      if String.eqb name "" then message
      else if String.eqb message "" then name
      else (name ++ ": " ++ message)%string
  | VPromise _ => "[object Promise]"
  end.

(** How many [i = 0, 1, ...] satisfy [i < v].  Of the strings, the decimal
    numerals are modelled (the other numeric forms are not); an object
    converts to [NaN]. *)
Definition count_below (v : value) : nat :=
  let of_string (s : string) : nat :=
    match NilEmpty.uint_of_string s with
    | Some d => Nat.of_uint d
    | None => 0
    end in
  match v with
  | VNum n => Z.to_nat n
  | VBool b => if b then 1 else 0
  | VStr s => of_string s
  | VArr items => of_string (element_string (VArr items))
  | _ => 0
  end.

Fixpoint join_copies (n : nat) (s : string) : string :=
  match n with
  | O => ""
  | S O => s
  | S n' => s ++ " " ++ join_copies n' s
  end.

(** [doDuplicate(input, by)]: [by || 2] copies of [input], joined by a
    space. *)
Definition doDuplicate (input by_ : value) : value :=
  VStr (join_copies (count_below (js_or by_ (VNum 2))) (element_string input)).

(** [resolve().then(onFulfilled)] inside a transform, for a callback that
    returns a value or throws and may push to [errors]. *)
Definition next_then (next : thunk errors)
    (onFulfilled : value -> errors -> promise * errors) : eff errors value :=
  fun u =>
    match next u with
    | (Throw e, u1) => (Throw e, u1)
    | (Ret (Fulfilled v), u1) => let '(p, u2) := onFulfilled v u1 in (Ret (VPromise p), u2)
    | (Ret p, u1) => (Ret (VPromise p), u1)
    end.

(** The parameter pattern [{by, opts}] of the test directives: it throws on
    [undefined] and [null]. *)
Definition destructure {A : Type} (args : value) (k : eff errors A) : eff errors A :=
  match args with
  | VUndefined | VNull =>
      fun u => (Throw (TypeError "Cannot destructure 'undefined' or 'null'."), u)
  | _ => k
  end.

(** [for (let i = 0; i < opts.length; i++) result = doDuplicate(result,
    opts[i].againBy)] over the indices [idxs]. *)
Fixpoint duplicate_again (opts : value) (idxs : list nat) (result : value) : outcome value :=
  match idxs with
  | [] => Ret result
  | i :: rest =>
      obind (get_prop opts (index_key i)) (fun opt =>
      obind (get_prop opt "againBy") (fun againBy =>
      duplicate_again opts rest (doDuplicate result againBy)))
  end.

(** [GraphQLTestDirective] *)
Definition duplicate : transform errors :=
  fun next source args context i =>
    destructure args
      (let by_ := prop_or_undefined args "by" in
       let opts := prop_or_undefined args "opts" in
       next_then next (fun result u =>
         if truthy result
         then
           let result := doDuplicate result by_ in
           if truthy opts
           then
             match duplicate_again opts
                     (seq 0 (count_below (prop_or_undefined opts "length"))) result with
             | Ret r => (Promise_resolve r, u)
             | Throw e => (Rejected e, u)
             end
           else (Fulfilled result, u)
         else (Fulfilled result, u))).

(** [GraphQLTestDirectiveThrows] *)
Definition throws : transform errors :=
  fun next source args context i =>
    destructure args
      (next_then next (fun _ u => (Rejected (VStr "Test Error"), u))).

(** [GraphQLTestDirectiveCatch]: [.then(result => result).catch(e => {
    errors.push(e); })]; the handler returns nothing. *)
Definition catch : transform errors :=
  fun next source args context i =>
    destructure args
      (fun u =>
         match next u with
         | (Throw e, u1) => (Throw e, u1)
         | (Ret (Rejected e), u1) => (Ret (VPromise (Fulfilled VUndefined)), u1 ++ [e])
         | (Ret p, u1) => (Ret (VPromise p), u1)
         end).

Definition transforms (f : fid) : transform errors :=
  match f with
  | 0 => duplicate
  | 1 => throws
  | _ => catch
  end.

Definition methods (f : fid) : eff errors value := fun u => (Ret VUndefined, u).

(** The resolver of the test schema's field [value]: its [input] argument. *)
Definition natives (f : fid) : resolver_fn errors :=
  fun source args context i u =>
    (Ret (default VUndefined (assoc "input" (match args with VObj l => l | _ => [] end))), u).

Definition custom (name : string) (f : fid) : directiveConfig :=
  {| d_name := name; d_args := VArr []; d_resolve := Some f |}.

(** A [GraphQLDirective] of the host engine, without [resolve]. *)
Definition builtin (name : string) : directiveConfig :=
  {| d_name := name; d_args := VArr []; d_resolve := None |}.

Definition registry : list directiveConfig :=
  [custom "duplicate" 0; custom "throws" 1; custom "catch" 2;
   builtin "skip"; builtin "include"].

(** [@name] in a query. *)
Definition at_ (name : string) : directive_node :=
  {| dn_kind := "Directive"; dn_description := VUndefined;
     dn_name := name; dn_arguments := [] |}.

(** A schema that registers a custom directive of its own under the name
    [skip]. *)
Definition registry_own_skip : list directiveConfig :=
  [custom "duplicate" 0; custom "skip" 0].

(** The resolution context of a field selected with the given directives,
    in a schema with the given directives. *)
Definition selection_in (reg : list directiveConfig)
    (directives : list directive_node) : info :=
  {| fieldName := "value";
     fieldNodes := [ {| fn_directives := directives |} ];
     schema_directives := reg;
     variableValues := VUndefined |}.

Definition selection (directives : list directive_node) : info :=
  selection_in registry directives.

Definition test_args : value := VObj [("input", VStr "test")].

(** One resolution of [value(input: "test")] with static directives
    [serverDirectives] and the directives [directives] of the query. *)
Definition resolution_in (reg : list directiveConfig)
    (serverDirectives directives : list directive_node)
    (source : value) : outcome value * errors * list event :=
  wrapped_resolver getDirectiveValues transforms (natives 0)
    serverDirectives source test_args VNull (selection_in reg directives) [].

Definition resolution (serverDirectives directives : list directive_node)
    (source : value) : outcome value * errors * list event :=
  resolution_in registry serverDirectives directives source.

(** The directive names of the transform invocations of a resolution. *)
Definition invoked (x : outcome value * errors * list event) : list string :=
  map c_directive (invocations x.2).

(** The static configuration [directives: { duplicate: { by: 2 } }]. *)
Definition static_duplicate : value :=
  VObj [("duplicate", VObj [("by", VNum 2)])].

(** Type graphs. *)
Definition scalar_field : field :=
  {| f_type := Named "String"; f_resolve := None; f_directives := VUndefined |}.

Definition object_field (t : type_ref) : field :=
  {| f_type := t; f_resolve := Some (Native 0); f_directives := VUndefined |}.

(** [type A { self: A, x: String }] *)
Definition self_referential : heap :=
  {[ "A" := [("self", object_field (Named "A")); ("x", scalar_field)] ]}.

(** [type Query { items: [Item] }  type Item { _fields: String }] *)
Definition underscore_fields : heap :=
  <[ "Query" := [("items", object_field (ListOf (Named "Item")))] ]>
  {[ "Item" := [("_fields", scalar_field)] ]}.

(** [type Query { items: [Item] }  type Item { name: String }] *)
Definition list_wrapped : heap :=
  <[ "Query" := [("items", object_field (ListOf (Named "Item")))] ]>
  {[ "Item" := [("name", scalar_field)] ]}.

(** [type Query { ok: String }  type Mutation { again: Mutation, set: String }] *)
Definition self_typed_mutation : heap :=
  <[ "Query" := [("ok", scalar_field)] ]>
  {[ "Mutation" := [("again", object_field (Named "Mutation")); ("set", scalar_field)] ]}.

(** [type Query { user: User }  type Mutation { setUser: User }
    type User { name: String }] *)
Definition shared_type : heap :=
  <[ "Query" := [("user", object_field (Named "User"))] ]>
  (<[ "Mutation" := [("setUser", object_field (Named "User"))] ]>
  {[ "User" := [("name", scalar_field)] ]}).

End Scenario.

(** ** GraphQLCustomDirective *)

(** [undefined] and [null]. *)
Definition nullish (v : value) : Prop := v = VUndefined \/ v = VNull.

(** [GraphQLCustomDirective(config)]: the directive that the host engine's
    constructor [new GraphQLDirective(config)] builds, with the [resolve]
    member of the configuration attached when it is truthy.  A member that is
    not a function cannot be called, which [d_resolve] renders as no member;
    a member of [Object.prototype] given as [resolve] is not modelled as a
    transform. *)
Definition GraphQLCustomDirective
    (GraphQLDirective : value -> outcome directiveConfig) (config : value)
  : outcome directiveConfig :=
  obind (GraphQLDirective config) (fun directive =>
  obind (get_prop config "resolve") (fun resolve =>
  if truthy resolve
  then Ret {| d_name := d_name directive;
              d_args := d_args directive;
              d_resolve := match resolve with VFun f => Some f | _ => None end |}
  else Ret directive)).

(** ** What makes activation safe *)

(** The static configuration of the field parses. *)
Definition parses (f : field) : Prop :=
  exists w, resolveMiddlewareWrapper (f_resolve f) (f_directives f) = Ret w.

(** A heap on which no walk can throw: every static configuration parses and
    no type has a field called [_fields]. *)
Definition activation_safe (h : heap) : Prop :=
  forall t fs, h !! t = Some fs ->
    assoc "_fields" fs = None /\
    forall l f, assoc l fs = Some f -> parses f.

Definition is_TypeError (e : value) : Prop := exists msg, e = TypeError msg.

(** ** Directives and requests beyond those of the test suite *)

Module Edge.

(** [resolve() { return 'plain' }]: a transform that returns a value which
    is not a promise. *)
Definition plain : transform Scenario.errors :=
  fun next source args context i u => (Ret (VStr "plain"), u).

(** [resolve() { return new Promise(() => {}) }]: a transform whose promise
    never settles. *)
Definition hang : transform Scenario.errors :=
  fun next source args context i u => (Ret (VPromise Pending), u).

(** [resolve(resolve, source) { return Promise.resolve(source) }]: a
    transform that hands back the source it was given. *)
Definition echo : transform Scenario.errors :=
  fun next source args context i u => (Ret (VPromise (Promise_resolve source)), u).

Definition transforms (f : fid) : transform Scenario.errors :=
  match f with
  | 3 => plain
  | 4 => hang
  | 5 => echo
  | _ => Scenario.transforms f
  end.

(** The same transforms, made to throw when the source they are given is
    [undefined]. *)
Definition refusing_undefined (f : fid) : transform Scenario.errors :=
  fun next source args context i u =>
    match source with
    | VUndefined => (Throw (VStr "no source"), u)
    | _ => transforms f next source args context i u
    end.

Definition registry : list directiveConfig :=
  Scenario.registry
  ++ [Scenario.custom "plain" 3; Scenario.custom "hang" 4; Scenario.custom "echo" 5].

Definition selection (directives : list directive_node) : info :=
  Scenario.selection_in registry directives.

Definition resolution (directives : list directive_node)
  : outcome value * Scenario.errors * list event :=
  wrapped_resolver Scenario.getDirectiveValues transforms (Scenario.natives 0)
    [] VUndefined Scenario.test_args VNull (selection directives) [].

(** A request with the variables [{ input_0: { id: 7 } }]. *)
Definition with_input_0 : info :=
  {| fieldName := "value";
     fieldNodes := [ {| fn_directives := [Scenario.at_ "duplicate"] |} ];
     schema_directives := Scenario.registry;
     variableValues := VObj [("input_0", VObj [("id", VNum 7)])] |}.

(** [/^[_a-zA-Z][_a-zA-Z0-9]*$/.test(s)] *)
Definition name_start (c : ascii) : bool :=
  let n := nat_of_ascii c in
  (n =? 95)%nat || ((65 <=? n)%nat && (n <=? 90)%nat) || ((97 <=? n)%nat && (n <=? 122)%nat).

Definition name_continue (c : ascii) : bool :=
  let n := nat_of_ascii c in
  name_start c || ((48 <=? n)%nat && (n <=? 57)%nat).

Definition valid_name (s : string) : bool :=
  match s with
  | EmptyString => false
  | String c rest => name_start c && forallb name_continue (list_ascii_of_string rest)
  end.

Definition Error (message : string) : value := VError "Error" message.

(** The host engine's constructor [new GraphQLDirective(config)], as in the
    releases of graphql-js that the library was written for: the name must
    be a valid name, [locations] an array, and [args], when given, an object
    whose entries carry input types.  No value of the model is such a type,
    so only a configuration without argument definitions is accepted here;
    the directive then has the arguments [[]]. *)
Definition GraphQLDirective (config : value) : outcome directiveConfig :=
  obind (get_prop config "name") (fun name =>
  if negb (truthy name) then Throw (Error "Directive must be named.") else
  match name with
  | VStr n =>
      if negb (valid_name n)
      then Throw (Error "Names must match /^[_a-zA-Z][_a-zA-Z0-9]*$/.")
      else
        obind (get_prop config "locations") (fun locations =>
        match locations with
        | VArr _ =>
            obind (get_prop config "args") (fun args =>
            let directive := {| d_name := n; d_args := VArr []; d_resolve := None |} in
            if negb (truthy args) then Ret directive else
            match args with
            | VArr _ => Throw (Error "args must be an object with argument names as keys.")
            | _ =>
                match for_in args with
                | [] => Ret directive
                | _ :: _ => Throw (Error "argument type must be Input Type.")
                end
            end)
        | _ => Throw (Error "Must provide locations for directive.")
        end)
  | _ => Throw (Error "Must be named.")
  end).

(** [{ name: 'duplicate', description: ..., locations: [DirectiveLocation.FIELD],
    resolve: ... }] *)
Definition duplicate_config : value :=
  VObj [("name", VStr "duplicate");
        ("description", VStr "duplicate the string sperating them with space");
        ("locations", VArr [VStr "FIELD"]);
        ("resolve", VFun 0)].

(** The static configuration [directives: { duplicate: {}, args: { by: {
    name: 'by' } } }]. *)
Definition static_with_args : value :=
  VObj [("duplicate", VObj []); ("args", VObj [("by", VObj [("name", VStr "by")])])].

End Edge.

(** * Facts about the wrapped resolver *)

Section RuntimeFacts.
Variable U : Type.
Variable getDirectiveValues :
  option directiveConfig -> list directive_node -> value -> outcome value.
Variable methods : fid -> eff U value.
Variable transforms : fid -> transform U.
Variable natives : fid -> resolver_fn U.

Local Notation denote := (resolver_denote getDirectiveValues methods transforms natives).
Local Notation rwd := (resolveWithDirective getDirectiveValues transforms).
Local Notation loop := (pipeline_loop getDirectiveValues transforms).
Local Notation wrapped := (wrapped_resolver getDirectiveValues transforms).
Local Notation invocable := (invocable getDirectiveValues).

Lemma bind_eq {A B : Type} (m : M U A) (f : A -> M U B) u :
  bind m f u =
  match m u with
  | (Ret a, u1, l1) => let '(r, u2, l2) := f a u1 in (r, u2, l1 ++ l2)
  | (Throw e, u1, l1) => (Throw e, u1, l1)
  end.
Proof. reflexivity. Qed.

Lemma invocable_functional i d f args f' args' :
  invocable i d f args -> invocable i d f' args' -> f = f' /\ args = args'.
Proof.
  intros (cfg & Hc & Hf & Ha) (cfg' & Hc' & Hf' & Ha').
  rewrite Hc in Hc'. injection Hc' as <-.
  rewrite Hf in Hf'. rewrite Ha in Ha'. split; congruence.
Qed.

(** What [resolveWithDirective] does: either it throws before reaching a
    transform, or it calls the transform once and hands back its outcome. *)
Lemma rwd_cases cl src d ctx i u :
  (exists e, rwd cl src d ctx i u = (Throw e, u, [])
             /\ forall f args, ~ invocable i d f args)
  \/ (exists f args r u1,
        invocable i d f args
        /\ transforms f (cl_run cl) (effective_source src i) args ctx i u = (r, u1)
        /\ rwd cl src d ctx i u = (r, u1, [Invoke (the_call (cl_kind cl) src d ctx i args r)])).
Proof.
  unfold resolveWithDirective, bind, lift_outcome, throw, call_transform.
  destruct (getDirectiveValues (find_directive i d) [d] (variableValues i)) as [args|e] eqn:Hg.
  - destruct (find_directive i d) as [cfg|] eqn:Hc.
    + destruct (d_resolve cfg) as [f|] eqn:Hf.
      * right.
        destruct (transforms f (cl_run cl) (effective_source src i) args ctx i u) as [r u1] eqn:Ht.
        exists f, args, r, u1. split; [exists cfg; auto|]. split; [exact Ht|reflexivity].
      * left. eexists. split; [reflexivity|].
        intros f args' (cfg' & Hc' & Hf' & _). congruence.
    + left. eexists. split; [reflexivity|].
      intros f args' (cfg' & Hc' & _). congruence.
  - left. exists e. split; [reflexivity|].
    intros f args' (cfg' & Hc' & _ & Ha'). rewrite Hc' in Hg. congruence.
Qed.

(** [.then] inside the loop. *)
Lemma then_cases p src d ctx i u :
  let m := promise_then p (fun result => rwd (resolved_closure result) src d ctx i) in
  match p with
  | Fulfilled v =>
      (exists e, m u = (Ret (Rejected e), u, []) /\ forall f args, ~ invocable i d f args)
      \/ (exists f args r u1,
            invocable i d f args /\
            m u = (Ret (settled (the_call (NextResolved v) src d ctx i args r)), u1,
                   [Invoke (the_call (NextResolved v) src d ctx i args r)]))
  | _ => m u = (Ret p, u, [])
  end.
Proof.
  destruct p as [v|e|]; cbv zeta; try reflexivity.
  unfold promise_then.
  destruct (rwd_cases (resolved_closure v) src d ctx i u)
    as [(e & He & Hn)|(f & args & r & u1 & Hi & Ht & He)]; rewrite He.
  - left. eauto.
  - right. exists f, args, r, u1. split; [assumption|].
    unfold settled; cbn. destruct r; reflexivity.
Qed.

(** [.catch] as a statement. *)
Lemma catch_cases p src d ctx i u :
  let m := promise_catch_ p (fun e => rwd (rejected_closure e) src d ctx i) in
  match p with
  | Rejected e =>
      ((forall f args, ~ invocable i d f args) /\ m u = (Ret tt, u, []))
      \/ (exists f args r u1,
            invocable i d f args /\
            m u = (Ret tt, u1, [Invoke (the_call (NextRejected e) src d ctx i args r)]))
  | _ => m u = (Ret tt, u, [])
  end.
Proof.
  destruct p as [v|e|]; cbv zeta; try reflexivity.
  unfold promise_catch_.
  destruct (rwd_cases (rejected_closure e) src d ctx i u)
    as [(e' & He & Hn)|(f & args & r & u1 & Hi & Ht & He)]; rewrite He.
  - left. eauto.
  - right. exists f, args, r, u1. eauto.
Qed.

(** One turn of the loop: the events of [then], the promise [defer] comes to
    hold, the events of [catch], and the remaining turns. *)
Lemma loop_cons src ctx i d rest p u :
  exists p' l1 u2 l2,
    loop src ctx i (d :: rest) p u
      = (let '(r, u3, l3) := loop src ctx i rest p' u2 in
         (r, u3, l1 ++ Defer d p' :: l2 ++ l3))
    /\ match p with
       | Fulfilled v =>
           ((forall f args, ~ invocable i d f args) /\ l1 = [] /\ exists e, p' = Rejected e)
           \/ (exists f args r,
                 invocable i d f args /\
                 l1 = [Invoke (the_call (NextResolved v) src d ctx i args r)] /\
                 p' = settled (the_call (NextResolved v) src d ctx i args r))
       | _ => p' = p /\ l1 = []
       end
    /\ match p' with
       | Rejected e =>
           ((forall f args, ~ invocable i d f args) /\ l2 = [])
           \/ (exists f args r,
                 invocable i d f args /\
                 l2 = [Invoke (the_call (NextRejected e) src d ctx i args r)])
       | _ => l2 = []
       end.
Proof.
  pose proof (then_cases p src d ctx i u) as Ht. cbv zeta in Ht.
  assert (exists p' u1 l1,
    promise_then p (fun result => rwd (resolved_closure result) src d ctx i) u
      = (Ret p', u1, l1)) as (p' & u1 & l1 & Hthen).
  { destruct p; [destruct Ht as [(e & He & _)|(f & a & r & u1 & _ & He)]|..]; eauto. }
  pose proof (catch_cases p' src d ctx i u1) as Hc. cbv zeta in Hc.
  assert (exists u2 l2,
    promise_catch_ p' (fun e => rwd (rejected_closure e) src d ctx i) u1
      = (Ret tt, u2, l2)) as (u2 & l2 & Hcatch).
  { destruct p'; [|destruct Hc as [(_ & He)|(f & a & r & u2 & _ & He)]|]; eauto. }
  exists p', l1, u2, l2. split; [|split].
  - cbn [pipeline_loop]. unfold bind at 1. rewrite Hthen.
    unfold bind at 1. unfold emit at 1.
    unfold bind at 1. rewrite Hcatch.
    destruct (loop src ctx i rest p' u2) as [[r u3] l3].
    cbn. reflexivity.
  - rewrite Hthen in Ht.
    destruct p as [v|e|].
    + destruct Ht as [(e & He & Hn)|(f & a & r & u1' & Hi & He)].
      * left. injection He as -> -> ->. eauto.
      * right. exists f, a, r. injection He as -> -> ->. eauto.
    + injection Ht as -> -> ->. auto.
    + injection Ht as -> -> ->. auto.
  - rewrite Hcatch in Hc.
    destruct p' as [v|e|].
    + injection Hc as -> ->. reflexivity.
    + destruct Hc as [(Hn & He)|(f & a & r & u2' & Hi & He)].
      * left. injection He as -> ->. auto.
      * right. exists f, a, r. injection He as -> ->. auto.
    + injection Hc as -> ->. reflexivity.
Qed.

(** The loop never throws: exceptions inside [then] become rejections. *)
Lemma loop_returns src ctx i rest : forall p u,
  exists p' u' t, loop src ctx i rest p u = (Ret p', u', t).
Proof.
  induction rest as [|d rest IH]; intros p u.
  - cbn. unfold ret. eauto.
  - destruct (loop_cons src ctx i d rest p u) as (p' & l1 & u2 & l2 & Heq & _).
    rewrite Heq. destruct (IH p' u2) as (p'' & u' & t & ->). eauto.
Qed.

(** A rejection passes through every later turn unchanged. *)
Lemma loop_rejected src ctx i rest : forall e u,
  result_of (loop src ctx i rest (Rejected e)) u = Ret (Rejected e).
Proof.
  induction rest as [|d rest IH]; intros e u.
  - reflexivity.
  - destruct (loop_cons src ctx i d rest (Rejected e) u)
      as (p' & l1 & u2 & l2 & Heq & [-> _] & _).
    unfold result_of. rewrite Heq.
    specialize (IH e u2). unfold result_of in IH.
    destruct (loop src ctx i rest (Rejected e) u2) as [[r u3] l3]. exact IH.
Qed.

(** The wrapped resolver when some directive applies: the first step, and
    then the loop over [directives.slice(1)]. *)
Lemma wrapped_cases resolve sd src args ctx i n others directive u :
  fieldNodes i = n :: others ->
  head (List.filter (fun d => not_default (dn_name d)) (sd ++ fn_directives n))
    = Some directive ->
  (exists e, wrapped resolve sd src args ctx i u = (Throw e, u, [])
             /\ forall f a, ~ invocable i directive f a)
  \/ (exists f a r u1,
        invocable i directive f a /\
        match r with
        | Ret (VPromise p) =>
            exists u2 l2,
              wrapped resolve sd src args ctx i u
                = (let '(r', u3, l3) := loop src ctx i (tail (sd ++ fn_directives n)) p u2 in
                   (match r' with Ret p' => Ret (VPromise p') | Throw e => Throw e end,
                    u3,
                    Invoke (the_call NextField src directive ctx i a r)
                      :: Defer directive p :: l2 ++ l3))
              /\ match p with
                 | Rejected e =>
                     ((forall f args, ~ invocable i directive f args) /\ l2 = [])
                     \/ (exists f args r,
                           invocable i directive f args /\
                           l2 = [Invoke (the_call (NextRejected e) src directive ctx i args r)])
                 | _ => l2 = []
                 end
        | Ret v =>
            wrapped resolve sd src args ctx i u
              = (Throw (no_catch_method v), u1,
                 [Invoke (the_call NextField src directive ctx i a r)])
        | Throw e =>
            wrapped resolve sd src args ctx i u
              = (Throw e, u1, [Invoke (the_call NextField src directive ctx i a r)])
        end).
Proof.
  intros Hn Hd.
  unfold wrapped_resolver. rewrite bind_eq. unfold field_directives. rewrite Hn.
  cbn [ret]. cbv beta iota zeta. rewrite Hd.
  destruct (rwd_cases (field_closure resolve src args ctx i) src directive ctx i u)
    as [(e & He & Hno)|(f & a & r & u1 & Hi & Ht & He)].
  - left. exists e. split; [|assumption].
    rewrite bind_eq, He. reflexivity.
  - right. exists f, a, r, u1. split; [assumption|].
    rewrite bind_eq, He. cbn [field_closure cl_kind] in *.
    destruct r as [v|e]; [|reflexivity].
    destruct v as [ | | | | | | | | | | |p]; try reflexivity.
    rewrite bind_eq. cbn [as_promise ret]. cbv beta iota zeta.
    rewrite bind_eq. unfold emit at 1. cbv beta iota zeta.
    pose proof (catch_cases p src directive ctx i u1) as Hc. cbv zeta in Hc.
    assert (exists u2 l2,
      promise_catch_ p (fun e => rwd (rejected_closure e) src directive ctx i) u1
        = (Ret tt, u2, l2)) as (u2 & l2 & Hcatch).
    { destruct p; [|destruct Hc as [(_ & He')|(f' & a' & r' & u2 & _ & He')]|]; eauto. }
    exists u2, l2. split.
    + rewrite bind_eq, Hcatch.
      destruct (length (sd ++ fn_directives n) <=? 1)%nat eqn:Hlen.
      * assert (tail (sd ++ fn_directives n) = []) as ->.
        { apply Nat.leb_le in Hlen.
          destruct (sd ++ fn_directives n) as [|x [|y l]]; cbn in *; auto; lia. }
        cbn. rewrite app_nil_r. reflexivity.
      * rewrite bind_eq.
        destruct (loop_returns src ctx i (tail (sd ++ fn_directives n)) p u2)
          as (p' & u3 & l3 & ->).
        cbn. rewrite app_nil_r. reflexivity.
    + rewrite Hcatch in Hc.
      destruct p as [v|e|].
      * injection Hc as -> ->. reflexivity.
      * destruct Hc as [(Hno & He')|(f' & a' & r' & u2' & Hi' & He')].
        -- left. injection He' as -> ->. auto.
        -- right. exists f', a', r'. injection He' as -> ->. auto.
      * injection Hc as -> ->. reflexivity.
Qed.

Lemma invocations_app t1 t2 : invocations (t1 ++ t2) = invocations t1 ++ invocations t2.
Proof.
  induction t1 as [|[c|d p] t1 IH]; cbn; [reflexivity| |assumption].
  now rewrite IH.
Qed.

(** Without a directive other than [skip] and [include], the wrapped
    resolver is the call of the resolver it wraps. *)
Lemma wrapped_no_directive resolve sd src args ctx i n others u :
  fieldNodes i = n :: others ->
  head (List.filter (fun d => not_default (dn_name d)) (sd ++ fn_directives n)) = None ->
  wrapped resolve sd src args ctx i u = lift (resolve src args ctx i) u.
Proof.
  intros Hn Hd. unfold wrapped_resolver. rewrite bind_eq.
  unfold field_directives. rewrite Hn. cbn [ret]. cbv beta iota zeta. rewrite Hd.
  destruct (lift (resolve src args ctx i) u) as [[r u1] l]. reflexivity.
Qed.

Lemma filter_all_default (l : list directive_node) :
  Forall (fun d => not_default (dn_name d) = false) l ->
  List.filter (fun d => not_default (dn_name d)) l = [].
Proof.
  induction 1 as [|d l Hd _ IH]; cbn; [reflexivity|]. now rewrite Hd.
Qed.

Lemma effective_source_truthy src i :
  truthy src = true -> effective_source src i = src.
Proof.
  intros H. unfold effective_source, js_or. now rewrite H, H, H.
Qed.

(** C3: for a field without static configuration whose selection carries no
    directive other than [skip] and [include], the resolver installed by
    [resolveMiddlewareWrapper] returns exactly what the resolver it wraps
    returns for the same source, args, context and info (the value itself,
    not a promise of it), leaves the same user state, and invokes no
    transform. *)
Theorem wrapped_without_directives_is_original
    (resolve : option resolver) (cfg src args ctx : value) (i : info)
    (n : field_node) (others : list field_node) (u : U) :
  cfg = VUndefined \/ cfg = VObj [] ->
  fieldNodes i = n :: others ->
  Forall (fun d => not_default (dn_name d) = false) (fn_directives n) ->
  exists w,
    resolveMiddlewareWrapper resolve cfg = Ret w /\
    denote w src args ctx i u
      = denote (default DefaultResolve resolve) src args ctx i u /\
    trace_of (wrapped (denote (default DefaultResolve resolve)) [] src args ctx i) u = [].
Proof.
  intros Hcfg Hn Hall.
  exists (Wrapped (default DefaultResolve resolve) []).
  assert (head (List.filter (fun d => not_default (dn_name d)) ([] ++ fn_directives n)) = None)
    as Hd by (cbn; now rewrite filter_all_default).
  split; [|split].
  - destruct Hcfg as [-> | ->]; reflexivity.
  - cbn [resolver_denote]. unfold run_wrapped.
    rewrite (wrapped_no_directive _ _ _ _ _ _ _ _ _ Hn Hd).
    unfold lift.
    destruct (denote (default DefaultResolve resolve) src args ctx i u). reflexivity.
  - unfold trace_of. rewrite (wrapped_no_directive _ _ _ _ _ _ _ _ _ Hn Hd).
    unfold lift.
    destruct (denote (default DefaultResolve resolve) src args ctx i u). reflexivity.
Qed.

(** A promise that is not fulfilled passes through the loop as it is. *)
Lemma loop_unfulfilled src ctx i rest : forall p u,
  (forall v, p <> Fulfilled v) ->
  result_of (loop src ctx i rest p) u = Ret p.
Proof.
  induction rest as [|d rest IH]; intros p u Hp.
  - reflexivity.
  - destruct (loop_cons src ctx i d rest p u)
      as (p' & l1 & u2 & l2 & Heq & Hthen & _).
    assert (p' = p) as ->.
    { destruct p; [exfalso; eapply Hp; reflexivity|apply Hthen..]. }
    unfold result_of. rewrite Heq.
    specialize (IH p u2 Hp). unfold result_of in IH.
    destruct (loop src ctx i rest p u2) as [[r u3] l3]. exact IH.
Qed.

(** A step whose directive cannot be invoked rejects the chain. *)
Lemma loop_uninvocable src ctx i d rest :
  In d rest ->
  (forall f a, ~ invocable i d f a) ->
  forall p u, exists p',
    result_of (loop src ctx i rest p) u = Ret p' /\ forall v, p' <> Fulfilled v.
Proof.
  intros Hin Hno. induction rest as [|d0 rest IH]; [contradiction|].
  intros p u.
  destruct (loop_cons src ctx i d0 rest p u)
    as (p' & l1 & u2 & l2 & Heq & Hthen & _).
  destruct Hin as [->|Hin].
  - assert (forall v, p' <> Fulfilled v) as Hp'.
    { destruct p as [v| |].
      - destruct Hthen as [(_ & _ & e & ->)|(f & a & _ & Hi & _)]; [discriminate|].
        exfalso. eapply Hno, Hi.
      - destruct Hthen as [-> _]. discriminate.
      - destruct Hthen as [-> _]. discriminate. }
    exists p'. split; [|assumption].
    pose proof (loop_unfulfilled src ctx i rest p' u2 Hp') as Hu.
    unfold result_of in *. rewrite Heq.
    destruct (loop src ctx i rest p' u2) as [[r u3] l3]. exact Hu.
  - destruct (IH Hin p' u2) as (p'' & Hr & Hp'').
    exists p''. split; [|assumption].
    unfold result_of in *. rewrite Heq.
    destruct (loop src ctx i rest p' u2) as [[r u3] l3]. exact Hr.
Qed.

(** The static directives keep the names and the order of the keys of the
    configuration. *)
Lemma omap_names (f : string -> outcome directive_node) (l : list string) :
  (forall x y, f x = Ret y -> dn_name y = x) ->
  forall sd, omap f l = Ret sd -> map dn_name sd = l.
Proof.
  intros Hf. induction l as [|x l IH]; intros sd H; cbn in H.
  - now injection H as <-.
  - destruct (f x) as [y|] eqn:Hx; cbn in H; [|discriminate].
    destruct (omap f l) as [ys|]; cbn in H; [|discriminate].
    injection H as <-. cbn. now rewrite (Hf _ _ Hx), (IH ys).
Qed.

Lemma parse_directive_name cfg x y :
  parse_directive cfg x = Ret y -> dn_name y = x.
Proof.
  unfold parse_directive, obind. intros H.
  repeat match type of H with
         | match ?o with Ret _ => _ | Throw _ => _ end = _ => destruct o; [|discriminate]
         end.
  now injection H as <-.
Qed.

Lemma parseSchemaDirectives_names cfg sd :
  parseSchemaDirectives cfg = Ret sd -> map dn_name sd = keys cfg.
Proof.
  unfold parseSchemaDirectives. intros H.
  destruct (negb (truthy cfg) || negb (instanceof_Object cfg)
            || (length (keys cfg) =? 0)%nat) eqn:Hc.
  - injection H as <-.
    destruct cfg; try reflexivity; cbn [truthy instanceof_Object negb orb] in Hc;
      apply Nat.eqb_eq, length_zero_iff_nil in Hc; now rewrite Hc.
  - eapply omap_names; [|exact H]. apply parse_directive_name.
Qed.

Lemma resolveMiddlewareWrapper_names r cfg inner sd :
  resolveMiddlewareWrapper r cfg = Ret (Wrapped inner sd) ->
  inner = default DefaultResolve r /\ map dn_name sd = keys cfg.
Proof.
  unfold resolveMiddlewareWrapper, obind. intros H.
  destruct (parseSchemaDirectives _) as [sd'|] eqn:Hp; [|discriminate].
  injection H as <- <-. split; [reflexivity|].
  rewrite (parseSchemaDirectives_names _ _ Hp). now destruct cfg.
Qed.

Lemma filter_none_default (l : list directive_node) :
  Forall (fun name => not_default name = true) (map dn_name l) ->
  List.filter (fun d => not_default (dn_name d)) l = l.
Proof.
  induction l as [|d l IH]; cbn; intros H; [reflexivity|].
  inversion H as [|? ? Hd Hl]; subst. rewrite Hd. now rewrite IH.
Qed.

Lemma find_directive_None_uninvocable i d :
  find_directive i d = None -> forall f a, ~ invocable i d f a.
Proof. intros H f a (cfg & Hc & _). congruence. Qed.


(** Splitting a trace at a [Defer] event. *)
Lemma split_no_defer (l : list event) :
  Forall (fun ev => match ev with Invoke _ => True | Defer _ _ => False end) l ->
  forall t1 d p t2 rest,
    t1 ++ Defer d p :: t2 = l ++ rest ->
    exists k, t1 = l ++ k /\ rest = k ++ Defer d p :: t2.
Proof.
  induction 1 as [|ev l Hev _ IH]; intros t1 d p t2 rest H.
  - exists t1. auto.
  - destruct t1 as [|ev' t1]; cbn in H.
    + injection H as <- _. contradiction.
    + injection H as -> H. destruct (IH _ _ _ _ _ H) as (k & -> & ->).
      exists k. auto.
Qed.

End RuntimeFacts.

(** * The pipeline, step by step *)

Section Extensionality.
Variable U : Type.
Variable getDirectiveValues :
  option directiveConfig -> list directive_node -> value -> outcome value.
Variables tr1 tr2 : fid -> transform U.
Variables src ctx : value.
Variable i : info.

Hypothesis Hagree : agree_at tr1 tr2 ctx i (effective_source src i).

Lemma rwd_ext cl d u :
  resolveWithDirective getDirectiveValues tr1 cl src d ctx i u
  = resolveWithDirective getDirectiveValues tr2 cl src d ctx i u.
Proof.
  unfold resolveWithDirective, bind, lift_outcome, call_transform.
  destruct (getDirectiveValues (find_directive i d) [d] (variableValues i)); [|reflexivity].
  destruct (find_directive i d) as [cfg|]; [|reflexivity].
  destruct (d_resolve cfg); [|reflexivity]. now rewrite Hagree.
Qed.

Lemma then_ext p d u :
  promise_then p (fun result =>
    resolveWithDirective getDirectiveValues tr1 (resolved_closure result) src d ctx i) u
  = promise_then p (fun result =>
    resolveWithDirective getDirectiveValues tr2 (resolved_closure result) src d ctx i) u.
Proof. destruct p; [unfold promise_then; now rewrite rwd_ext|reflexivity..]. Qed.

Lemma catch_ext p d u :
  promise_catch_ p (fun e =>
    resolveWithDirective getDirectiveValues tr1 (rejected_closure e) src d ctx i) u
  = promise_catch_ p (fun e =>
    resolveWithDirective getDirectiveValues tr2 (rejected_closure e) src d ctx i) u.
Proof. destruct p; [reflexivity|unfold promise_catch_; now rewrite rwd_ext|reflexivity]. Qed.

Lemma loop_ext rest : forall p u,
  pipeline_loop getDirectiveValues tr1 src ctx i rest p u
  = pipeline_loop getDirectiveValues tr2 src ctx i rest p u.
Proof.
  induction rest as [|d rest IH]; intros p u; [reflexivity|].
  cbn [pipeline_loop]. rewrite !bind_eq, then_ext.
  destruct (promise_then p _ u) as [[[p'|e] u1] l1]; [|reflexivity].
  rewrite !bind_eq. unfold emit. cbv beta iota zeta.
  rewrite !bind_eq, catch_ext.
  destruct (promise_catch_ p' _ u1) as [[[[]|e] u2] l2]; [|reflexivity].
  now rewrite IH.
Qed.

Lemma wrapped_ext resolve sd args u :
  wrapped_resolver getDirectiveValues tr1 resolve sd src args ctx i u
  = wrapped_resolver getDirectiveValues tr2 resolve sd src args ctx i u.
Proof.
  unfold wrapped_resolver. rewrite !bind_eq.
  destruct (field_directives i u) as [[[nodes|e] u0] l0]; [|reflexivity].
  destruct (head _); [|reflexivity].
  rewrite !bind_eq, rwd_ext.
  destruct (resolveWithDirective getDirectiveValues tr2 _ src d ctx i u0)
    as [[[first|e] u1] l1]; [|reflexivity].
  rewrite !bind_eq.
  destruct (as_promise first u1) as [[[defer|e] u2] l2]; [|reflexivity].
  rewrite !bind_eq. unfold emit. cbv beta iota zeta.
  rewrite !bind_eq, catch_ext.
  destruct (promise_catch_ defer _ u2) as [[[[]|e] u3] l3]; [|reflexivity].
  destruct (_ <=? _)%nat; [reflexivity|].
  now rewrite !bind_eq, loop_ext.
Qed.

End Extensionality.

Section PipelineFacts.
Variable U : Type.
Variable getDirectiveValues :
  option directiveConfig -> list directive_node -> value -> outcome value.
Variable methods : fid -> eff U value.
Variable transforms : fid -> transform U.
Variable natives : fid -> resolver_fn U.
Variables src ctx : value.
Variable i : info.

Local Notation denote := (resolver_denote getDirectiveValues methods transforms natives).
Local Notation rwd := (resolveWithDirective getDirectiveValues transforms).
Local Notation loop := (pipeline_loop getDirectiveValues transforms src ctx i).
Local Notation wrapped := (wrapped_resolver getDirectiveValues transforms).
Local Notation invocable := (invocable getDirectiveValues).
Local Notation calls := (calls getDirectiveValues transforms src ctx i).
Local Notation chain := (fulfilled_chain getDirectiveValues transforms src ctx i).
Local Notation rejected_tail := (rejected_tail getDirectiveValues transforms src ctx i).

(** [resolveWithDirective] for a directive that can be invoked is the call
    of its transform. *)
Lemma rwd_invocable cl d u f a :
  invocable i d f a ->
  rwd cl src d ctx i u
  = (let '(r, u1) := transforms f (cl_run cl) (effective_source src i) a ctx i u in
     (r, u1, [Invoke (the_call (cl_kind cl) src d ctx i a r)])).
Proof.
  intros (cfg & Hc & Hf & Ha).
  unfold resolveWithDirective, bind, lift_outcome, call_transform.
  rewrite Hc, Ha, Hf.
  destruct (transforms f (cl_run cl) (effective_source src i) a ctx i u). reflexivity.
Qed.

Lemma rwd_calls cl d u r u1 :
  calls (cl_run cl) d u r u1 ->
  exists a, rwd cl src d ctx i u = (r, u1, [Invoke (the_call (cl_kind cl) src d ctx i a r)]).
Proof.
  intros (f & a & Hi & Ht). exists a. now rewrite (rwd_invocable _ _ _ _ _ Hi), Ht.
Qed.

(** For a directive that cannot be invoked it throws, the same error
    whatever the closure and the state. *)
Lemma rwd_uninvocable d :
  (forall f a, ~ invocable i d f a) ->
  exists e, forall cl u, rwd cl src d ctx i u = (Throw e, u, []).
Proof.
  intros Hno. unfold resolveWithDirective, bind, lift_outcome, throw.
  destruct (getDirectiveValues (find_directive i d) [d] (variableValues i)) as [a|e] eqn:Hg;
    [|exists e; reflexivity].
  destruct (find_directive i d) as [cfg|] eqn:Hc; [|eexists; reflexivity].
  destruct (d_resolve cfg) as [f|] eqn:Hf; [|eexists; reflexivity].
  exfalso. eapply (Hno f a). exists cfg. auto.
Qed.

(** Whether a directive can be invoked is decided by the look-up. *)
Lemma invocable_dec d :
  (exists f a, invocable i d f a) \/ (forall f a, ~ invocable i d f a).
Proof.
  destruct (find_directive i d) as [cfg|] eqn:Hc;
    [|right; intros f a (c & Hc' & _); congruence].
  destruct (d_resolve cfg) as [f|] eqn:Hf;
    [|right; intros f a (c & Hc' & Hf' & _); congruence].
  destruct (getDirectiveValues (Some cfg) [d] (variableValues i)) as [a|e] eqn:Ha.
  - left. exists f, a. exists cfg. auto.
  - right. intros f' a' (c & Hc' & _ & Ha'). congruence.
Qed.

(** One turn of the loop from a fulfilled promise: the transform is called
    with a closure over the value, [defer] holds the promise of what it
    returned, and a rejected promise makes the handler call it again. *)
Lemma loop_step d rest v u r u1 :
  calls (cl_run (resolved_closure v)) d u r u1 ->
  exists a u2 l2,
    loop (d :: rest) (Fulfilled v) u
    = (let '(x, u3, l) := loop rest (outcome_promise r) u2 in
       (x, u3, Invoke (the_call (NextResolved v) src d ctx i a r)
                 :: Defer d (outcome_promise r) :: l2 ++ l))
    /\ match outcome_promise r with
       | Rejected e =>
           exists r2, calls (cl_run (rejected_closure e)) d u1 r2 u2 /\
                      l2 = [Invoke (the_call (NextRejected e) src d ctx i a r2)]
       | _ => u2 = u1 /\ l2 = []
       end.
Proof.
  intros (f & a & Hi & Ht).
  assert (promise_then (Fulfilled v)
            (fun result => rwd (resolved_closure result) src d ctx i) u
          = (Ret (outcome_promise r), u1,
             [Invoke (the_call (NextResolved v) src d ctx i a r)])) as Hthen.
  { unfold promise_then. rewrite (rwd_invocable _ _ _ _ _ Hi), Ht.
    destruct r; reflexivity. }
  destruct (outcome_promise r) as [v1|e|] eqn:Hp.
  - exists a, u1, []. split; [|auto].
    cbn [pipeline_loop]. rewrite bind_eq, Hthen.
    rewrite bind_eq. unfold emit. cbv beta iota zeta. rewrite bind_eq.
    cbn [promise_catch_ ret].
    destruct (loop rest (Fulfilled v1) u1) as [[x u3] l]. reflexivity.
  - destruct (transforms f (cl_run (rejected_closure e)) (effective_source src i) a ctx i u1)
      as [r2 u2] eqn:Ht2.
    exists a, u2, [Invoke (the_call (NextRejected e) src d ctx i a r2)].
    split; [|exists r2; split; [exists f, a; auto|reflexivity]].
    cbn [pipeline_loop]. rewrite bind_eq, Hthen.
    rewrite bind_eq. unfold emit. cbv beta iota zeta. rewrite bind_eq.
    unfold promise_catch_. rewrite (rwd_invocable _ _ _ _ _ Hi), Ht2.
    destruct (loop rest (Rejected e) u2) as [[x u3] l]. reflexivity.
  - exists a, u1, []. split; [|auto].
    cbn [pipeline_loop]. rewrite bind_eq, Hthen.
    rewrite bind_eq. unfold emit. cbv beta iota zeta. rewrite bind_eq.
    cbn [promise_catch_ ret].
    destruct (loop rest Pending u1) as [[x u3] l]. reflexivity.
Qed.

(** One turn of the loop from a fulfilled promise, when the step fulfils. *)
Lemma loop_step_fulfilled d rest v u r u1 v1 :
  calls (cl_run (resolved_closure v)) d u (Ret r) u1 ->
  Promise_resolve r = Fulfilled v1 ->
  exists a,
    loop (d :: rest) (Fulfilled v) u
    = (let '(x, u2, l) := loop rest (Fulfilled v1) u1 in
       (x, u2, Invoke (the_call (NextResolved v) src d ctx i a (Ret r))
                 :: Defer d (Fulfilled v1) :: l)).
Proof.
  intros Hc Hr. destruct (rwd_calls _ _ _ _ _ Hc) as [a Ha]. exists a.
  cbn [pipeline_loop]. rewrite bind_eq. unfold promise_then. rewrite Ha, Hr.
  rewrite bind_eq. unfold emit. cbv beta iota zeta. rewrite bind_eq.
  cbn [promise_catch_ ret].
  destruct (loop rest (Fulfilled v1) u1) as [[x u2] l]. reflexivity.
Qed.

(** One turn of the loop from a fulfilled promise, when the step rejects:
    the handler calls the transform again. *)
Lemma loop_step_rejecting d rest v u r u1 e :
  calls (cl_run (resolved_closure v)) d u r u1 ->
  outcome_promise r = Rejected e ->
  exists a r2 u2,
    calls (cl_run (rejected_closure e)) d u1 r2 u2 /\
    loop (d :: rest) (Fulfilled v) u
    = (let '(x, u3, l) := loop rest (Rejected e) u2 in
       (x, u3, Invoke (the_call (NextResolved v) src d ctx i a r)
                 :: Defer d (Rejected e)
                 :: Invoke (the_call (NextRejected e) src d ctx i a r2) :: l)).
Proof.
  intros Hc Hr. destruct Hc as (f & a & Hi & Ht).
  destruct (transforms f (cl_run (rejected_closure e)) (effective_source src i) a ctx i u1)
    as [r2 u2] eqn:Ht2.
  exists a, r2, u2. split; [exists f, a; auto|].
  cbn [pipeline_loop]. rewrite bind_eq. unfold promise_then.
  rewrite (rwd_invocable _ _ _ _ _ Hi), Ht. cbn [resolved_closure cl_kind].
  assert (match r with
          | Ret r0 => (Ret (Promise_resolve r0), u1,
                       [Invoke (the_call (NextResolved v) src d ctx i a r)])
          | Throw e0 => (Ret (Rejected e0), u1,
                         [Invoke (the_call (NextResolved v) src d ctx i a r)])
          end
          = (Ret (Rejected e), u1, [Invoke (the_call (NextResolved v) src d ctx i a r)]))
    as ->.
  { destruct r; cbn in Hr; now rewrite Hr. }
  rewrite bind_eq. unfold emit. cbv beta iota zeta. rewrite bind_eq.
  unfold promise_catch_. rewrite (rwd_invocable _ _ _ _ _ Hi), Ht2.
  cbn [rejected_closure cl_kind].
  destruct (loop rest (Rejected e) u2) as [[x u3] l]. reflexivity.
Qed.

(** One turn of the loop from a rejected promise: only the handler runs. *)
Lemma loop_step_rejected d rest e u :
  (exists a r u1,
     calls (cl_run (rejected_closure e)) d u r u1 /\
     loop (d :: rest) (Rejected e) u
     = (let '(x, u2, l) := loop rest (Rejected e) u1 in
        (x, u2, Defer d (Rejected e)
                  :: Invoke (the_call (NextRejected e) src d ctx i a r) :: l)))
  \/ ((forall f a, ~ invocable i d f a) /\
      loop (d :: rest) (Rejected e) u
      = (let '(x, u2, l) := loop rest (Rejected e) u in
         (x, u2, Defer d (Rejected e) :: l))).
Proof.
  destruct (invocable_dec d) as [(f & a & Hi)|Hno].
  - left.
    destruct (transforms f (cl_run (rejected_closure e)) (effective_source src i) a ctx i u)
      as [r u1] eqn:Ht.
    exists a, r, u1. split; [exists f, a; auto|].
    cbn [pipeline_loop]. rewrite bind_eq. cbn [promise_then ret].
    rewrite bind_eq. unfold emit. cbv beta iota zeta. rewrite bind_eq.
    unfold promise_catch_. rewrite (rwd_invocable _ _ _ _ _ Hi), Ht.
    cbn [rejected_closure cl_kind].
    destruct (loop rest (Rejected e) u1) as [[x u2] l]. reflexivity.
  - right. split; [assumption|].
    destruct (rwd_uninvocable d Hno) as [e' He'].
    cbn [pipeline_loop]. rewrite bind_eq. cbn [promise_then ret].
    rewrite bind_eq. unfold emit. cbv beta iota zeta. rewrite bind_eq.
    unfold promise_catch_. rewrite He'.
    destruct (loop rest (Rejected e) u) as [[x u2] l]. reflexivity.
Qed.

(** One turn of the loop from a fulfilled promise, when
    [resolveWithDirective] throws in the [then] callback: the promise is
    rejected with what was thrown. *)
Lemma loop_step_throws d rest v u e :
  result_of (rwd (resolved_closure v) src d ctx i) u = Throw e ->
  result_of (loop (d :: rest) (Fulfilled v)) u = Ret (Rejected e).
Proof.
  unfold result_of. intros H.
  cbn [pipeline_loop]. rewrite bind_eq. unfold promise_then.
  destruct (rwd (resolved_closure v) src d ctx i u) as [[r u1] l]. cbn in H. subst r.
  rewrite bind_eq. unfold emit. cbv beta iota zeta. rewrite bind_eq.
  unfold promise_catch_.
  destruct (rwd (rejected_closure e) src d ctx i u1) as [[r2 u2] l2].
  pose proof (loop_rejected U getDirectiveValues transforms src ctx i rest e u2) as Hrej.
  unfold result_of in Hrej.
  destruct (loop rest (Rejected e) u2) as [[x u3] l3]. cbn in *. now subst x.
Qed.

(** The loop run on a chain of fulfilling steps: every transform is called
    once, in order, and the loop ends fulfilled with the last value. *)
Lemma loop_chain rest : forall v u v' u',
  chain rest v u v' u' ->
  exists t,
    loop rest (Fulfilled v) u = (Ret (Fulfilled v'), u', t) /\
    map c_directive (invocations t) = map dn_name rest /\
    Forall (fun c => is_main c = true) (invocations t).
Proof.
  induction rest as [|d rest IH]; intros v u v' u' Hch;
    inversion Hch as [|d' ds' v0 u0 r u1 v1 v2 u2 Hc Hr Hrest]; subst.
  - exists []. repeat split; constructor.
  - destruct (loop_step_fulfilled d rest v u r u1 v1) as [a Heq]; [assumption..|].
    destruct (IH _ _ _ _ Hrest) as (t & Ht & Hnames & Hmain).
    rewrite Heq, Ht. eexists. split; [reflexivity|]. cbn.
    split; [now rewrite Hnames|]. constructor; [reflexivity|assumption].
Qed.

(** Conversely, a loop that ends fulfilled ran a chain of fulfilling steps. *)
Lemma loop_chain_inv rest : forall v u v' u' t,
  loop rest (Fulfilled v) u = (Ret (Fulfilled v'), u', t) ->
  chain rest v u v' u'.
Proof.
  induction rest as [|d rest IH]; intros v u v' u' t Hrun.
  - cbn in Hrun. injection Hrun as <- <- _. constructor.
  - destruct (invocable_dec d) as [(f & a & Hi)|Hno].
    + destruct (transforms f (cl_run (resolved_closure v)) (effective_source src i) a ctx i u)
        as [r u1] eqn:Ht.
      assert (calls (cl_run (resolved_closure v)) d u r u1) as Hc by (exists f, a; auto).
      destruct (outcome_promise r) as [v1|e|] eqn:Hp.
      * destruct r as [r|e]; [|discriminate]. cbn in Hp.
        destruct (loop_step_fulfilled d rest v u r u1 v1 Hc Hp) as [a' Heq].
        rewrite Heq in Hrun.
        destruct (loop rest (Fulfilled v1) u1) as [[x u2] l] eqn:Hl.
        injection Hrun as -> -> _.
        econstructor; [exact Hc|exact Hp|]. eapply IH, Hl.
      * exfalso.
        destruct (loop_step_rejecting d rest v u r u1 e Hc Hp) as (a' & r2 & u2 & _ & Heq).
        rewrite Heq in Hrun.
        pose proof (loop_rejected U getDirectiveValues transforms src ctx i rest e u2) as Hrej.
        unfold result_of in Hrej.
        destruct (loop rest (Rejected e) u2) as [[x u3] l]. cbn in Hrej. subst x.
        discriminate.
      * exfalso.
        destruct (loop_step d rest v u r u1 Hc) as (a' & u2 & l2 & Heq & _).
        rewrite Heq, Hp in Hrun.
        pose proof (loop_unfulfilled U getDirectiveValues transforms src ctx i rest Pending u2)
          as Hpen.
        unfold result_of in Hpen.
        destruct (loop rest Pending u2) as [[x u3] l]. cbn in Hpen.
        rewrite Hpen in Hrun by discriminate. discriminate.
    + exfalso. destruct (rwd_uninvocable d Hno) as [e He].
      cbn [pipeline_loop] in Hrun. rewrite bind_eq in Hrun. unfold promise_then in Hrun.
      rewrite He in Hrun. rewrite bind_eq in Hrun. unfold emit in Hrun.
      cbv beta iota zeta in Hrun. rewrite bind_eq in Hrun.
      unfold promise_catch_ in Hrun. rewrite He in Hrun.
      pose proof (loop_rejected U getDirectiveValues transforms src ctx i rest e u) as Hrej.
      unfold result_of in Hrej.
      destruct (loop rest (Rejected e) u) as [[x u3] l]. cbn in Hrej. subst x.
      discriminate.
Qed.

(** The loop from a rejected promise: the handlers run one after the other
    and the promise stays rejected. *)
Lemma loop_tail rest : forall e u,
  exists u' t,
    rejected_tail e rest u u' /\
    loop rest (Rejected e) u = (Ret (Rejected e), u', t) /\
    Forall (after_rejection e) t.
Proof.
  induction rest as [|d rest IH]; intros e u.
  - exists u, []. repeat split; constructor.
  - destruct (loop_step_rejected d rest e u)
      as [(a & r & u1 & Hc & Heq)|(Hno & Heq)].
    + destruct (IH e u1) as (u' & t & Htail & Ht & Hall).
      rewrite Heq, Ht. eexists _, _. split; [econstructor 2; eassumption|].
      split; [reflexivity|]. repeat constructor. assumption.
    + destruct (IH e u) as (u' & t & Htail & Ht & Hall).
      rewrite Heq, Ht. eexists _, _. split; [econstructor 3; eassumption|].
      split; [reflexivity|]. repeat constructor. assumption.
Qed.

(** The loop over a list in two parts. *)
Lemma loop_app l1 l2 : forall p u,
  loop (l1 ++ l2) p u
  = (let '(r1, u1, t1) := loop l1 p u in
     match r1 with
     | Ret p1 => let '(r2, u2, t2) := loop l2 p1 u1 in (r2, u2, t1 ++ t2)
     | Throw e => (Throw e, u1, t1)
     end).
Proof.
  induction l1 as [|d l1 IH]; intros p u.
  - cbn. destruct (loop l2 p u) as [[r2 u2] t2]. reflexivity.
  - cbn [app pipeline_loop]. rewrite !bind_eq.
    destruct (promise_then p _ u) as [[[p'|e] u1] t1]; [|reflexivity].
    rewrite !bind_eq. unfold emit. cbv beta iota zeta. rewrite !bind_eq.
    destruct (promise_catch_ p' _ u1) as [[[[]|e] u2] t2]; [|reflexivity].
    rewrite IH.
    destruct (loop l1 p' u2) as [[[p1|e] u3] t3]; [|reflexivity].
    destruct (loop l2 p1 u3) as [[r4 u4] t4].
    now rewrite !app_assoc, <- !app_assoc.
Qed.

(** The wrapped resolver when the first transform returns a promise: the
    handler of the first step, and then the loop over [directives.slice(1)]. *)
Lemma wrapped_first resolve sd args n others d0 u p0 u0 :
  fieldNodes i = n :: others ->
  head (List.filter (fun d => not_default (dn_name d)) (sd ++ fn_directives n)) = Some d0 ->
  calls (cl_run (field_closure resolve src args ctx i)) d0 u (Ret (VPromise p0)) u0 ->
  exists a u1 l1,
    wrapped resolve sd src args ctx i u
    = (let '(x, u2, l) := loop (tail (sd ++ fn_directives n)) p0 u1 in
       (match x with Ret p' => Ret (VPromise p') | Throw e => Throw e end, u2,
        Invoke (the_call NextField src d0 ctx i a (Ret (VPromise p0)))
          :: Defer d0 p0 :: l1 ++ l))
    /\ match p0 with
       | Rejected e =>
           exists r2, calls (cl_run (rejected_closure e)) d0 u0 r2 u1 /\
                      l1 = [Invoke (the_call (NextRejected e) src d0 ctx i a r2)]
       | _ => u1 = u0 /\ l1 = []
       end.
Proof.
  intros Hn Hd (f & a & Hi & Ht).
  assert (exists u1 l1,
            promise_catch_ p0 (fun e => rwd (rejected_closure e) src d0 ctx i) u0
            = (Ret tt, u1, l1)
            /\ match p0 with
               | Rejected e =>
                   exists r2, calls (cl_run (rejected_closure e)) d0 u0 r2 u1 /\
                              l1 = [Invoke (the_call (NextRejected e) src d0 ctx i a r2)]
               | _ => u1 = u0 /\ l1 = []
               end) as (u1 & l1 & Hcatch & Hshape).
  { destruct p0 as [v|e|]; [exists u0, []; auto| |exists u0, []; auto].
    destruct (transforms f (cl_run (rejected_closure e)) (effective_source src i) a ctx i u0)
      as [r2 u1] eqn:Ht2.
    exists u1, [Invoke (the_call (NextRejected e) src d0 ctx i a r2)].
    split; [|exists r2; split; [exists f, a; auto|reflexivity]].
    unfold promise_catch_. now rewrite (rwd_invocable _ _ _ _ _ Hi), Ht2. }
  exists a, u1, l1. split; [|exact Hshape].
  unfold wrapped_resolver. rewrite bind_eq. unfold field_directives. rewrite Hn.
  cbn [ret]. cbv beta iota zeta. rewrite Hd.
  rewrite bind_eq, (rwd_invocable _ _ _ _ _ Hi), Ht. cbn [field_closure cl_kind].
  rewrite bind_eq. cbn [as_promise ret]. cbv beta iota zeta.
  rewrite bind_eq. unfold emit. cbv beta iota zeta.
  rewrite bind_eq, Hcatch.
  destruct (length (sd ++ fn_directives n) <=? 1)%nat eqn:Hlen.
  - assert (tail (sd ++ fn_directives n) = []) as ->.
    { apply Nat.leb_le in Hlen.
      destruct (sd ++ fn_directives n) as [|x [|y l]]; cbn in *; auto; lia. }
    cbn. rewrite app_nil_r. reflexivity.
  - rewrite bind_eq.
    destruct (loop_returns U getDirectiveValues transforms src ctx i
                (tail (sd ++ fn_directives n)) p0 u1) as (p' & u3 & l3 & ->).
    cbn. rewrite app_nil_r. reflexivity.
Qed.

(** When the first transform throws, or returns a value that is not a
    promise, the wrapped resolver throws after that single call. *)
Lemma wrapped_first_throws resolve sd args n others d0 u r u0 :
  fieldNodes i = n :: others ->
  head (List.filter (fun d => not_default (dn_name d)) (sd ++ fn_directives n)) = Some d0 ->
  calls (cl_run (field_closure resolve src args ctx i)) d0 u r u0 ->
  (forall p, r <> Ret (VPromise p)) ->
  exists a,
    wrapped resolve sd src args ctx i u
    = (Throw (match r with Throw e => e | Ret v => no_catch_method v end), u0,
       [Invoke (the_call NextField src d0 ctx i a r)]).
Proof.
  intros Hn Hd Hc Hnp. destruct (rwd_calls _ _ _ _ _ Hc) as [a Ha]. exists a.
  unfold wrapped_resolver. rewrite bind_eq. unfold field_directives. rewrite Hn.
  cbn [ret]. cbv beta iota zeta. rewrite Hd. rewrite bind_eq, Ha.
  cbn [field_closure cl_kind].
  destruct r as [v|e]; [|reflexivity].
  destruct v; try reflexivity. exfalso. eapply Hnp. reflexivity.
Qed.

Lemma calls_functional next d u r u1 r' u1' :
  calls next d u r u1 -> calls next d u r' u1' -> r = r' /\ u1 = u1'.
Proof.
  intros (f & a & Hi & Ht) (f' & a' & Hi' & Ht').
  destruct (invocable_functional getDirectiveValues _ _ _ _ _ _ Hi Hi') as [<- <-].
  rewrite Ht in Ht'. now injection Ht' as <- <-.
Qed.

(** The wrapped resolver returns a fulfilled promise only after a chain of
    fulfilling steps. *)
Lemma wrapped_fulfilled_inv resolve sd args n others d0 u v' u' t :
  fieldNodes i = n :: others ->
  head (List.filter (fun d => not_default (dn_name d)) (sd ++ fn_directives n)) = Some d0 ->
  wrapped resolve sd src args ctx i u = (Ret (VPromise (Fulfilled v')), u', t) ->
  exists v0 u0,
    calls (cl_run (field_closure resolve src args ctx i)) d0 u
          (Ret (VPromise (Fulfilled v0))) u0
    /\ chain (tail (sd ++ fn_directives n)) v0 u0 v' u'.
Proof.
  intros Hn Hd Hrun.
  destruct (invocable_dec d0) as [(f & a & Hi)|Hno].
  2:{ exfalso.
      destruct (wrapped_cases U getDirectiveValues transforms resolve sd src args ctx i
                  n others d0 u Hn Hd) as [(e & He & _)|(f & a & r & u1 & Hi & _)].
      - rewrite He in Hrun. discriminate.
      - eapply Hno, Hi. }
  destruct (transforms f (cl_run (field_closure resolve src args ctx i))
              (effective_source src i) a ctx i u) as [r u0] eqn:Ht.
  assert (calls (cl_run (field_closure resolve src args ctx i)) d0 u r u0) as Hc
    by (exists f, a; auto).
  assert (exists p0, r = Ret (VPromise p0)) as [p0 ->].
  { destruct r as [v|e].
    - destruct v; try (exfalso;
        destruct (wrapped_first_throws resolve sd args n others d0 u _ u0 Hn Hd Hc)
          as [a' Ha']; [discriminate|rewrite Ha' in Hrun; discriminate]).
      eauto.
    - exfalso.
      destruct (wrapped_first_throws resolve sd args n others d0 u _ u0 Hn Hd Hc)
        as [a' Ha']; [discriminate|rewrite Ha' in Hrun; discriminate]. }
  destruct (wrapped_first resolve sd args n others d0 u p0 u0 Hn Hd Hc)
    as (a' & u1 & l1 & Heq & Hshape).
  rewrite Heq in Hrun. clear Heq.
  destruct p0 as [v0|e|].
  - destruct Hshape as [-> ->]. exists v0, u0. split; [assumption|].
    destruct (loop (tail (sd ++ fn_directives n)) (Fulfilled v0) u0) as [[x u2] l] eqn:Hl.
    destruct x as [p'|e]; [|discriminate]. injection Hrun as -> -> _.
    eapply loop_chain_inv, Hl.
  - exfalso.
    pose proof (loop_rejected U getDirectiveValues transforms src ctx i
                  (tail (sd ++ fn_directives n)) e u1) as Hrej.
    unfold result_of in Hrej.
    destruct (loop (tail (sd ++ fn_directives n)) (Rejected e) u1) as [[x u2] l].
    cbn in *. subst x. discriminate.
  - exfalso.
    pose proof (loop_unfulfilled U getDirectiveValues transforms src ctx i
                  (tail (sd ++ fn_directives n)) Pending u1) as Hpen.
    unfold result_of in Hpen.
    destruct (loop (tail (sd ++ fn_directives n)) Pending u1) as [[x u2] l].
    cbn in *. rewrite Hpen in Hrun by discriminate. discriminate.
Qed.

(** C6: the core never turns a rejection into a success.  Let the first
    transform return the promise [p0].  If [p0] is rejected with [e], or if
    it is fulfilled, the steps of a prefix of the remaining directives fulfil
    one after the other and the transform of the next directive then returns
    a promise rejected with [e] or throws [e], or [resolveWithDirective]
    throws [e] for that directive before it calls anything, the promise that
    the wrapped resolver returns is rejected with [e], whatever the later
    directives and the [catch] handlers do.  And that promise is fulfilled
    only if every step fulfilled: the transforms themselves are then the
    only ones to have turned anything into a success. *)
Theorem rejection_reaches_returned_promise
    (resolve : resolver_fn U) (sd : list directive_node) (args : value)
    (n : field_node) (others : list field_node) (u : U)
    (d0 : directive_node) (p0 : promise) (u0 : U) :
  fieldNodes i = n :: others ->
  head (List.filter (fun d => not_default (dn_name d)) (sd ++ fn_directives n)) = Some d0 ->
  calls (cl_run (field_closure resolve src args ctx i)) d0 u (Ret (VPromise p0)) u0 ->
  (forall e, p0 = Rejected e ->
     result_of (wrapped resolve sd src args ctx i) u = Ret (VPromise (Rejected e)))
  /\ (forall v0 pre d post v1 u1 r u2 e,
        p0 = Fulfilled v0 ->
        tail (sd ++ fn_directives n) = pre ++ d :: post ->
        chain pre v0 u0 v1 u1 ->
        calls (cl_run (resolved_closure v1)) d u1 r u2 ->
        outcome_promise r = Rejected e ->
        result_of (wrapped resolve sd src args ctx i) u = Ret (VPromise (Rejected e)))
  /\ (forall v0 pre d post v1 u1 e,
        p0 = Fulfilled v0 ->
        tail (sd ++ fn_directives n) = pre ++ d :: post ->
        chain pre v0 u0 v1 u1 ->
        result_of (rwd (resolved_closure v1) src d ctx i) u1 = Throw e ->
        result_of (wrapped resolve sd src args ctx i) u = Ret (VPromise (Rejected e)))
  /\ (forall v',
        result_of (wrapped resolve sd src args ctx i) u = Ret (VPromise (Fulfilled v')) ->
        exists v0 u',
          p0 = Fulfilled v0 /\ chain (tail (sd ++ fn_directives n)) v0 u0 v' u').
Proof.
  intros Hn Hd Hc.
  destruct (wrapped_first resolve sd args n others d0 u p0 u0 Hn Hd Hc)
    as (a & u1 & l1 & Heq & Hshape).
  split; [|split; [|split]].
  - intros e ->. unfold result_of. rewrite Heq.
    pose proof (loop_rejected U getDirectiveValues transforms src ctx i
                  (tail (sd ++ fn_directives n)) e u1) as Hrej.
    unfold result_of in Hrej.
    destruct (loop (tail (sd ++ fn_directives n)) (Rejected e) u1) as [[x u2] l].
    cbn in *. now subst x.
  - intros v0 pre d post v1 u1' r u2 e -> Htl Hch Hcd Hr.
    unfold result_of. rewrite Heq.
    destruct Hshape as [-> ->]. rewrite Htl, loop_app.
    destruct (loop_chain pre _ _ _ _ Hch) as (t & -> & _).
    destruct (loop_step_rejecting d post v1 u1' r u2 e Hcd Hr) as (a' & r2 & u3 & _ & ->).
    pose proof (loop_rejected U getDirectiveValues transforms src ctx i post e u3) as Hrej.
    unfold result_of in Hrej.
    destruct (loop post (Rejected e) u3) as [[x u4] l]. cbn in *. now subst x.
  - intros v0 pre d post v1 u1' e -> Htl Hch Hthrow.
    unfold result_of. rewrite Heq.
    destruct Hshape as [-> ->]. rewrite Htl, loop_app.
    destruct (loop_chain pre _ _ _ _ Hch) as (t & -> & _).
    pose proof (loop_step_throws d post v1 u1' e Hthrow) as Hrej.
    unfold result_of in Hrej.
    destruct (loop (d :: post) (Fulfilled v1) u1') as [[x u4] l]. cbn in *. now subst x.
  - intros v' Hres. unfold result_of in Hres. clear Heq.
    destruct (wrapped resolve sd src args ctx i u) as [[x u'] t] eqn:Hrun.
    cbn in Hres. subst x.
    destruct (wrapped_fulfilled_inv resolve sd args n others d0 u v' u' t Hn Hd Hrun)
      as (v0 & u0' & Hc' & Hch).
    destruct (calls_functional _ _ _ _ _ _ _ Hc Hc') as [[= ->] <-].
    eauto.
Qed.



End PipelineFacts.

(** C5, amended: the transforms are only ever applied to the context and
    the info that the wrapped resolver received and to the source [source ||
    variableValues.input_0 || variableValues.input || {}].  What a family of
    transforms does on any other source, context or info is irrelevant: two
    families that agree on these three arguments make the wrapped resolver
    return the same result, leave the same state and record the same calls.
    The source that the transforms receive is the resolver's own exactly
    when that one is truthy. *)
Theorem transform_receives_context_info_effective_source
    (U : Type)
    (getDirectiveValues : option directiveConfig -> list directive_node -> value -> outcome value)
    (transforms transforms' : fid -> transform U)
    (resolve : resolver_fn U) (sd : list directive_node)
    (src args ctx : value) (i : info) (u : U) :
  agree_at transforms' transforms ctx i (effective_source src i) ->
  wrapped_resolver getDirectiveValues transforms' resolve sd src args ctx i u
  = wrapped_resolver getDirectiveValues transforms resolve sd src args ctx i u
  /\ effective_source src i
     = js_or (js_or (js_or src
                       (prop_or_undefined (js_or (variableValues i) (VObj [])) "input_0"))
                    (prop_or_undefined (js_or (variableValues i) (VObj [])) "input"))
             (VObj [])
  /\ (truthy src = true <-> effective_source src i = src).
Proof.
  intros Hagree. split; [now apply wrapped_ext|]. split; [reflexivity|].
  split; [apply effective_source_truthy|].
  intros <-. unfold effective_source, js_or.
  repeat match goal with
         | |- context [if truthy ?x then _ else _] => destruct (truthy x) eqn:?
         end; auto.
Qed.


(** * The test-suite scenario: concrete resolutions *)

Import Scenario.

(** C3 at the field [value] selected as [{ value(input: "test") @skip }]. *)
Lemma wrapped_without_directives_witness :
  (VUndefined = VUndefined \/ VUndefined = VObj []) /\
  exists w,
    resolveMiddlewareWrapper (Some (Native 0)) VUndefined = Ret w /\
    resolver_denote getDirectiveValues methods transforms natives w
      VUndefined test_args VNull (selection [at_ "skip"]) []
    = resolver_denote getDirectiveValues methods transforms natives
        (default DefaultResolve (Some (Native 0)))
        VUndefined test_args VNull (selection [at_ "skip"]) [] /\
    trace_of
      (wrapped_resolver getDirectiveValues transforms
         (resolver_denote getDirectiveValues methods transforms natives
            (default DefaultResolve (Some (Native 0))))
         [] VUndefined test_args VNull (selection [at_ "skip"])) [] = [].
Proof.
  split; [left; reflexivity|].
  apply (wrapped_without_directives_is_original errors getDirectiveValues methods
           transforms natives (Some (Native 0)) VUndefined VUndefined test_args VNull
           (selection [at_ "skip"]) {| fn_directives := [at_ "skip"] |} [] []).
  - left; reflexivity.
  - reflexivity.
  - repeat constructor.
Defined.

(** C5 as stated fails at a root field: the host engine passes [undefined]
    as [source], and a transform that hands back the source it was given
    hands back a fresh empty object. *)
Lemma transform_source_counterexample :
  (Edge.resolution [at_ "echo"]).1.1 = Ret (VPromise (Fulfilled (VObj []))) /\
  (Edge.resolution [at_ "echo"]).1.1 <> Ret (VPromise (Fulfilled VUndefined)).
Proof. split; [vm_compute; reflexivity|vm_compute; discriminate]. Qed.

(** C5, amended, at the same field: transforms that throw when they are
    given [undefined] as the source behave like the others. *)
Lemma transform_receives_context_info_effective_source_witness :
  agree_at Edge.refusing_undefined Edge.transforms VNull (Edge.selection [at_ "echo"])
    (effective_source VUndefined (Edge.selection [at_ "echo"])) /\
  wrapped_resolver getDirectiveValues Edge.refusing_undefined (natives 0) []
    VUndefined test_args VNull (Edge.selection [at_ "echo"]) []
  = Edge.resolution [at_ "echo"] /\
  (truthy VUndefined = true
   <-> effective_source VUndefined (Edge.selection [at_ "echo"]) = VUndefined).
Proof.
  assert (agree_at Edge.refusing_undefined Edge.transforms VNull
            (Edge.selection [at_ "echo"])
            (effective_source VUndefined (Edge.selection [at_ "echo"]))) as H.
  { intros f next a u. reflexivity. }
  split; [exact H|].
  destruct (transform_receives_context_info_effective_source errors getDirectiveValues
              Edge.transforms Edge.refusing_undefined (natives 0) [] VUndefined test_args
              VNull (Edge.selection [at_ "echo"]) [] H) as (H1 & _ & H3).
  split; [exact H1|exact H3].
Defined.

(** C6 at [{ value(input: "test") @duplicate @throws @catch }]: the
    transform of [duplicate] returns a fulfilled promise, that of [throws] a
    rejected one, and the returned promise is rejected although the
    transform of [catch] returns a fulfilled promise. *)
Lemma rejection_reaches_returned_promise_witness :
  calls getDirectiveValues transforms VUndefined VNull
    (selection [at_ "duplicate"; at_ "throws"; at_ "catch"])
    (cl_run (field_closure (natives 0) VUndefined test_args VNull
               (selection [at_ "duplicate"; at_ "throws"; at_ "catch"])))
    (at_ "duplicate") [] (Ret (VPromise (Fulfilled (VStr "test test")))) [] /\
  calls getDirectiveValues transforms VUndefined VNull
    (selection [at_ "duplicate"; at_ "throws"; at_ "catch"])
    (cl_run (resolved_closure (VStr "test test")))
    (at_ "throws") [] (Ret (VPromise (Rejected (VStr "Test Error")))) [] /\
  result_of (wrapped_resolver getDirectiveValues transforms (natives 0) []
               VUndefined test_args VNull
               (selection [at_ "duplicate"; at_ "throws"; at_ "catch"])) []
  = Ret (VPromise (Rejected (VStr "Test Error"))).
Proof.
  assert (calls getDirectiveValues transforms VUndefined VNull
            (selection [at_ "duplicate"; at_ "throws"; at_ "catch"])
            (cl_run (field_closure (natives 0) VUndefined test_args VNull
                       (selection [at_ "duplicate"; at_ "throws"; at_ "catch"])))
            (at_ "duplicate") [] (Ret (VPromise (Fulfilled (VStr "test test")))) []) as H0.
  { exists 0, (VObj []). split; [|reflexivity].
    exists (custom "duplicate" 0). repeat split; reflexivity. }
  assert (calls getDirectiveValues transforms VUndefined VNull
            (selection [at_ "duplicate"; at_ "throws"; at_ "catch"])
            (cl_run (resolved_closure (VStr "test test")))
            (at_ "throws") [] (Ret (VPromise (Rejected (VStr "Test Error")))) []) as H1.
  { exists 1, (VObj []). split; [|reflexivity].
    exists (custom "throws" 1). repeat split; reflexivity. }
  split; [exact H0|]. split; [exact H1|].
  refine (proj1 (proj2
            (rejection_reaches_returned_promise errors getDirectiveValues transforms
               VUndefined VNull (selection [at_ "duplicate"; at_ "throws"; at_ "catch"])
               (natives 0) [] test_args
               {| fn_directives := [at_ "duplicate"; at_ "throws"; at_ "catch"] |} [] []
               (at_ "duplicate") (Fulfilled (VStr "test test")) []
               eq_refl eq_refl H0))
            (VStr "test test") [] (at_ "throws") [at_ "catch"] (VStr "test test") []
            (Ret (VPromise (Rejected (VStr "Test Error")))) [] (VStr "Test Error")
            eq_refl eq_refl _ H1 eq_refl).
  constructor.
Defined.







(** C2: the code does not keep [skip] and [include] out of the pipeline.
    Only the choice of the first directive filters them; the length test and
    the loop use the unfiltered list.  With [@duplicate @skip] the step of
    [skip] runs: in a schema with the host engine's [skip], which has no
    [resolve], the field fails although its located pipeline [@duplicate]
    succeeds; in a schema that registers a transform under the name [skip],
    that transform is called.  With [@skip @duplicate] the transform of
    [duplicate] runs twice. *)
Theorem builtin_directive_runs_as_step :
  (resolution [] [at_ "duplicate"; at_ "skip"] VUndefined).1.1
    = Ret (VPromise (Rejected (TypeError "directiveConfig.resolve is not a function"))) /\
  (resolution [] [at_ "duplicate"] VUndefined).1.1
    = Ret (VPromise (Fulfilled (VStr "test test"))) /\
  invoked (resolution_in registry_own_skip [] [at_ "duplicate"; at_ "skip"] VUndefined)
    = ["duplicate"; "skip"] /\
  invoked (resolution [] [at_ "skip"; at_ "duplicate"] VUndefined)
    = ["duplicate"; "duplicate"] /\
  (resolution [] [at_ "skip"; at_ "duplicate"] VUndefined).1.1
    = Ret (VPromise (Fulfilled (VStr "test test test test"))).
Proof. repeat split; vm_compute; reflexivity. Qed.

(** * Facts about the graph walk *)

Set Warnings "-clear-no-such-hyp".

Section WalkFacts.

Lemma assign_resolve_dom t l r (h : heap) : dom (assign_resolve t l r h) = dom h.
Proof. unfold assign_resolve. apply dom_alter_L. Qed.

Lemma typeMet_has_false met k : typeMet_has met k = false -> k ∉ met.
Proof.
  unfold typeMet_has. intros H. apply orb_false_iff in H as [H _].
  now apply bool_decide_eq_false in H.
Qed.

(** A loop whose body always ends, ends; an invariant of the body is an
    invariant of the loop. *)
Lemma for_labels_total (body : string -> heap -> gset string -> option walk_result)
    (I : heap -> gset string -> Prop) :
  (forall label h met, I h met ->
     exists res, body label h met = Some res /\
       forall h' met', res = Done h' met' -> I h' met') ->
  forall labels h met, I h met ->
    exists res, for_labels body labels h met = Some res /\
      forall h' met', res = Done h' met' -> I h' met'.
Proof.
  intros Hbody. induction labels as [|l ls IH]; intros h met HI; cbn.
  - eexists. split; [reflexivity|]. intros h' met' [= <- <-]. exact HI.
  - destruct (Hbody l h met HI) as (res & -> & Hres).
    destruct res as [h1 met1|e h1].
    + apply IH. eapply Hres. reflexivity.
    + eexists. split; [reflexivity|]. discriminate.
Qed.

(** The walk ends as soon as the fuel exceeds the number of types of the
    heap whose name is not marked yet: every recursive call marks one more. *)
Lemma walk_total : forall fuel deep tname (h : heap) (met : gset string),
  size (dom h ∖ ({[tname]} ∪ met)) < fuel ->
  exists res, walk fuel deep tname h met = Some res /\
    forall h' met', res = Done h' met' -> dom h' = dom h /\ {[tname]} ∪ met ⊆ met'.
Proof.
  induction fuel as [|fuel IH]; intros deep tname h met Hsize; [lia|].
  cbn [walk].
  apply (for_labels_total _ (fun h' met' => dom h' = dom h /\ {[tname]} ∪ met ⊆ met'));
    [|split; [reflexivity|set_solver]].
  intros label hc mc [Hdom Hsub]. unfold visit_field.
  destruct (field_of hc tname label) as [field|];
    [|eexists; split; [reflexivity|]; intros ? ? [= <- <-]; auto].
  destruct (typeMet_has mc (property_key (type_name (f_type field)))) eqn:Hmet;
    [eexists; split; [reflexivity|]; intros ? ? [= <- <-]; auto|].
  destruct (resolveMiddlewareWrapper (f_resolve field) (f_directives field)) as [r|e];
    [|eexists; split; [reflexivity|]; discriminate].
  pose proof (assign_resolve_dom tname label r hc) as Hd1.
  set (h1 := assign_resolve tname label r hc) in *.
  assert (forall res, res = Some (Done h1 mc) ->
            exists res0, res = Some res0 /\
              forall h' met', res0 = Done h' met' -> dom h' = dom h /\ {[tname]} ∪ met ⊆ met')
    as Hdone.
  { intros res ->. eexists. split; [reflexivity|]. intros ? ? [= <- <-].
    split; [congruence|assumption]. }
  assert (forall res e, res = Some (Threw e h1) ->
            exists res0, res = Some res0 /\
              forall h' met', res0 = Done h' met' -> dom h' = dom h /\ {[tname]} ∪ met ⊆ met')
    as Hthrew.
  { intros res e ->. eexists. split; [reflexivity|]. discriminate. }
  destruct (f_type field) as [n|t|t] eqn:Hty; cbn [type_fields type_ofType].
  - destruct (h1 !! n) as [fs|] eqn:Hn; [|apply Hdone; reflexivity].
    destruct deep; [|apply Hdone; reflexivity].
    cbn in Hmet. apply typeMet_has_false in Hmet.
    destruct (IH true n h1 mc) as (res & Hres & Hinv).
    { assert (size (dom h1 ∖ ({[n]} ∪ mc)) < size (dom h ∖ ({[tname]} ∪ met))); [|lia].
      apply subset_size. rewrite Hd1, Hdom.
      assert (n ∈ dom h) as Hin.
      { rewrite <- Hdom, <- Hd1. apply elem_of_dom. eauto. }
      set_solver. }
    exists res. split; [assumption|].
    intros h' met' ->. destruct (Hinv _ _ eq_refl) as [Hd' Hs'].
    split; [congruence|set_solver].
  - destruct (type_fields h1 t); [|apply Hdone; reflexivity].
    destruct deep; [|apply Hdone; reflexivity].
    destruct (type_fields h1 (unwrap (ListOf t))) as [child_fields|];
      [|apply Hdone; reflexivity].
    destruct (wrapFieldsWithMiddleware_field_map child_fields);
      [apply Hdone|eapply Hthrew]; reflexivity.
  - destruct (type_fields h1 t); [|apply Hdone; reflexivity].
    destruct deep; [|apply Hdone; reflexivity].
    destruct (type_fields h1 (unwrap (NonNull t))) as [child_fields|];
      [|apply Hdone; reflexivity].
    destruct (wrapFieldsWithMiddleware_field_map child_fields);
      [apply Hdone|eapply Hthrew]; reflexivity.
Qed.

(** The graph walk terminates on every type graph, cyclic or not: the fuel
    that [wrapFieldsWithMiddleware] provides is never exhausted. *)
Theorem wrapFieldsWithMiddleware_terminates (type : option string) (deepWrap : bool)
    (h : heap) :
  exists res, wrapFieldsWithMiddleware type deepWrap h = Some res.
Proof.
  destruct type as [tname|]; cbn; [|eauto].
  destruct (walk_total (S (size h)) deepWrap tname h ∅) as (res & Hres & _); [|eauto].
  apply Nat.lt_succ_r.
  transitivity (size (dom h)); [apply subseteq_size; set_solver|].
  apply Nat.eq_le_incl, size_dom.
Qed.

(** X14: activation always ends: with the usage error, with an exception of a
    walk, or with [true]. *)
Theorem applySchemaCustomDirectives_terminates (a : argument) (h : heap) :
  exists r h', applySchemaCustomDirectives a h = Some (r, h').
Proof.
  destruct a as [v|s]; cbn; [eauto|].
  destruct (wrapFieldsWithMiddleware_terminates (_queryType s) true h) as ([h1 m1|e h1] & ->);
    [|eauto].
  destruct (wrapFieldsWithMiddleware_terminates (_mutationType s) false h1)
    as ([h2 m2|e h2] & ->); eauto.
Qed.

(** A value that is not a schema is refused before anything is touched. *)
Theorem applySchemaCustomDirectives_usage_error (v : value) (h : heap) :
  applySchemaCustomDirectives (NotASchema v) h = Some (Throw usage_error, h).
Proof. reflexivity. Qed.

(** For a schema instance, activation returns [true] exactly when both walks
    complete, and the heap it leaves is the one the walks produced. *)
Theorem applySchemaCustomDirectives_returns_true (s : schema) (h h1 h2 : heap)
    (m1 m2 : gset string) :
  wrapFieldsWithMiddleware (_queryType s) true h = Some (Done h1 m1) ->
  wrapFieldsWithMiddleware (_mutationType s) false h1 = Some (Done h2 m2) ->
  applySchemaCustomDirectives (SchemaInstance s) h = Some (Ret (VBool true), h2).
Proof. intros H1 H2. cbn. now rewrite H1, H2. Qed.

(** Reading fields after an assignment. *)
Lemma assoc_set_resolve_eq l r (fs : field_map) f :
  assoc l fs = Some f -> assoc l (set_resolve l r fs) = Some (with_resolve f r).
Proof.
  induction fs as [|[l' f'] fs IH]; cbn; [discriminate|].
  destruct (String.eqb l l') eqn:E; cbn; rewrite E.
  - now intros [= ->].
  - exact IH.
Qed.

Lemma assoc_set_resolve_ne l l' r (fs : field_map) :
  l <> l' -> assoc l' (set_resolve l r fs) = assoc l' fs.
Proof.
  intros Hne. induction fs as [|[k f] fs IH]; cbn; [reflexivity|].
  destruct (String.eqb l k) eqn:E; cbn.
  - apply String.eqb_eq in E as <-.
    destruct (String.eqb l' l) eqn:E'; [|reflexivity].
    apply String.eqb_eq in E'. congruence.
  - destruct (String.eqb l' k); [reflexivity|exact IH].
Qed.

Lemma field_of_assign_eq (h : heap) t l r f :
  field_of h t l = Some f ->
  field_of (assign_resolve t l r h) t l = Some (with_resolve f r).
Proof.
  unfold field_of, assign_resolve. rewrite lookup_alter_eq.
  destruct (h !! t) as [fs|]; cbn; [|discriminate]. apply assoc_set_resolve_eq.
Qed.

Lemma field_of_assign_ne_label (h : heap) t l l' r :
  l <> l' -> field_of (assign_resolve t l r h) t l' = field_of h t l'.
Proof.
  intros Hne. unfold field_of, assign_resolve. rewrite lookup_alter_eq.
  destruct (h !! t) as [fs|]; cbn; [|reflexivity]. now apply assoc_set_resolve_ne.
Qed.

Lemma lookup_assign_ne_type (h : heap) t t' l r :
  t' <> t -> assign_resolve t l r h !! t' = h !! t'.
Proof. intros Hne. unfold assign_resolve. now apply lookup_alter_ne. Qed.

Lemma assoc_In_fst {A : Type} l (fs : list (string * A)) a :
  assoc l fs = Some a -> In l (map fst fs).
Proof.
  induction fs as [|[k x] fs IH]; cbn; [discriminate|].
  destruct (String.eqb l k) eqn:E.
  - apply String.eqb_eq in E. auto.
  - auto.
Qed.

(** Without [deepWrap] the body of the loop only assigns to the field it
    visits. *)
Lemma visit_field_shallow recurse root label (h : heap) met :
  visit_field recurse root false label h met =
  match field_of h root label with
  | None => Some (Done h met)
  | Some field =>
      if typeMet_has met (property_key (type_name (f_type field)))
      then Some (Done h met)
      else
        match resolveMiddlewareWrapper (f_resolve field) (f_directives field) with
        | Throw e => Some (Threw e h)
        | Ret r => Some (Done (assign_resolve root label r h) met)
        end
  end.
Proof.
  unfold visit_field.
  destruct (field_of h root label) as [field|]; [|reflexivity].
  destruct (typeMet_has _ _); [reflexivity|].
  destruct (resolveMiddlewareWrapper _ _) as [r|e]; [|reflexivity].
  destruct (f_type field) as [n|t|t]; cbn [type_fields type_ofType].
  - now destruct (assign_resolve root label r h !! n).
  - now destruct (type_fields _ t).
  - now destruct (type_fields _ t).
Qed.

Lemma shallow_loop recurse root met : forall labels (h : heap),
  NoDup labels ->
  exists res,
    for_labels (visit_field recurse root false) labels h met = Some res /\
    (forall t, t <> root -> heap_of res !! t = h !! t) /\
    (forall h' met', res = Done h' met' ->
       forall l,
         (~ In l labels -> field_of h' root l = field_of h root l) /\
         (In l labels ->
          forall f, field_of h root l = Some f ->
            typeMet_has met (property_key (type_name (f_type f))) = false ->
            exists w,
              resolveMiddlewareWrapper (f_resolve f) (f_directives f) = Ret w /\
              field_of h' root l = Some (with_resolve f w))).
Proof.
  induction labels as [|label labels IH]; intros h Hnd.
  - eexists. split; [reflexivity|]. split; [reflexivity|].
    intros h' met' [= <- <-] l. split; [reflexivity|contradiction].
  - apply NoDup_cons in Hnd as [Hnotin Hnd]. rewrite list_elem_of_In in Hnotin.
    cbn [for_labels]. rewrite visit_field_shallow.
    destruct (field_of h root label) as [field|] eqn:Hf.
    2:{ destruct (IH h Hnd) as (res & Hres & Hframe & Hfields).
        exists res. split; [assumption|]. split; [assumption|].
        intros h' met' -> l. destruct (Hfields _ _ eq_refl l) as [H1 H2].
        split; [intros Hn; apply H1; intros Hin; apply Hn; now right|].
        intros [<-|Hin]; [congruence|auto]. }
    destruct (typeMet_has met (property_key (type_name (f_type field)))) eqn:Hmet.
    { destruct (IH h Hnd) as (res & Hres & Hframe & Hfields).
      exists res. split; [assumption|]. split; [assumption|].
      intros h' met' -> l. destruct (Hfields _ _ eq_refl l) as [H1 H2].
      split; [intros Hn; apply H1; intros Hin; apply Hn; now right|].
      intros [<-|Hin]; [|auto]. intros f Hf' Hm. congruence. }
    destruct (resolveMiddlewareWrapper (f_resolve field) (f_directives field))
      as [w|e] eqn:Hw.
    2:{ eexists. split; [reflexivity|]. split; [reflexivity|]. discriminate. }
    destruct (IH (assign_resolve root label w h) Hnd) as (res & Hres & Hframe & Hfields).
    exists res. split; [assumption|]. split.
    { intros t Ht. rewrite Hframe by assumption. now apply lookup_assign_ne_type. }
    intros h' met' -> l. destruct (Hfields _ _ eq_refl l) as [H1 H2].
    split.
    + intros Hn. rewrite H1 by (intros Hin; apply Hn; now right).
      apply field_of_assign_ne_label. intros ->. apply Hn. now left.
    + intros [<-|Hin].
      * intros f Hf' Hm. assert (f = field) as -> by congruence.
        exists w. split; [assumption|].
        rewrite H1 by assumption. now apply field_of_assign_eq.
      * intros f Hf' Hm. apply H2; [assumption| |assumption].
        rewrite field_of_assign_ne_label; [assumption|]. intros ->. contradiction.
Qed.

(** When the static configuration of every field that the guard lets
    through parses, the loop completes; when the loop is interrupted, the
    exception is the one that parsing the configuration of such a field
    throws. *)
Lemma shallow_loop_outcome recurse root met : forall labels (h : heap),
  NoDup labels ->
  ((forall l f, In l labels -> field_of h root l = Some f ->
      typeMet_has met (property_key (type_name (f_type f))) = false ->
      exists w, resolveMiddlewareWrapper (f_resolve f) (f_directives f) = Ret w) ->
   exists h' met',
     for_labels (visit_field recurse root false) labels h met = Some (Done h' met'))
  /\ (forall e h',
        for_labels (visit_field recurse root false) labels h met = Some (Threw e h') ->
        exists l f,
          In l labels /\ field_of h root l = Some f /\
          typeMet_has met (property_key (type_name (f_type f))) = false /\
          resolveMiddlewareWrapper (f_resolve f) (f_directives f) = Throw e).
Proof.
  induction labels as [|label labels IH]; intros h Hnd.
  - split; [eauto|]. intros e h' [=].
  - apply NoDup_cons in Hnd as [Hnotin Hnd]. rewrite list_elem_of_In in Hnotin.
    cbn [for_labels]. rewrite visit_field_shallow.
    destruct (field_of h root label) as [field|] eqn:Hf.
    2:{ destruct (IH h Hnd) as [IH1 IH2]. split.
        - intros Hp. apply IH1. intros l f Hin. apply Hp. now right.
        - intros e h' Hrun. destruct (IH2 e h' Hrun) as (l & f & Hin & H).
          exists l, f. split; [now right|exact H]. }
    destruct (typeMet_has met (property_key (type_name (f_type field)))) eqn:Hmet.
    { destruct (IH h Hnd) as [IH1 IH2]. split.
      - intros Hp. apply IH1. intros l f Hin. apply Hp. now right.
      - intros e h' Hrun. destruct (IH2 e h' Hrun) as (l & f & Hin & H).
        exists l, f. split; [now right|exact H]. }
    destruct (resolveMiddlewareWrapper (f_resolve field) (f_directives field))
      as [w|e0] eqn:Hw.
    2:{ split.
        - intros Hp. destruct (Hp label field (or_introl eq_refl) Hf Hmet) as [w Hw'].
          congruence.
        - intros e h' [= <- <-]. exists label, field. split; [now left|auto]. }
    destruct (IH (assign_resolve root label w h) Hnd) as [IH1 IH2].
    assert (forall l, In l labels ->
              field_of (assign_resolve root label w h) root l = field_of h root l) as Hsame.
    { intros l Hin. apply field_of_assign_ne_label. intros ->. contradiction. }
    split.
    + intros Hp. apply IH1. intros l f Hin Hl Hm. rewrite (Hsame l Hin) in Hl.
      apply (Hp l f); [now right|assumption..].
    + intros e h' Hrun. destruct (IH2 e h' Hrun) as (l & f & Hin & Hl & H).
      exists l, f. split; [now right|]. rewrite (Hsame l Hin) in Hl. auto.
Qed.


Lemma field_of_same_type (h h' : heap) t l :
  h' !! t = h !! t -> field_of h' t l = field_of h t l.
Proof. unfold field_of. now intros ->. Qed.

Lemma field_of_assign_other (h : heap) t l r t' l' :
  (t', l') <> (t, l) -> field_of (assign_resolve t l r h) t' l' = field_of h t' l'.
Proof.
  intros Hne. destruct (decide (t' = t)) as [->|Ht].
  - apply field_of_assign_ne_label. congruence.
  - apply field_of_same_type. now apply lookup_assign_ne_type.
Qed.

Section AtMostOnce.
Variable h0 : heap.
Variable deep : bool.

Lemma walk_body_once (recurse : string -> heap -> gset string -> option walk_result)
    (n : string) (ms : gset string) (hs : heap) :
  (forall n' hc mc res,
     n' ∉ mc ->
     (forall t, t ∉ mc -> hc !! t = h0 !! t) ->
     replaced_at_most_once h0 hc ->
     recurse n' hc mc = Some res -> walk_post h0 n' hc mc res) ->
  forall labels hc mc res,
    NoDup labels ->
    {[n]} ∪ ms ⊆ mc ->
    replaced_at_most_once h0 hc ->
    (forall t, t ∉ mc -> hc !! t = h0 !! t) ->
    (forall l, In l labels -> field_of hc n l = field_of h0 n l) ->
    (forall t, t ∈ ms -> t <> n -> hc !! t = hs !! t) ->
    for_labels (visit_field recurse n deep) labels hc mc = Some res ->
    replaced_at_most_once h0 (heap_of res)
    /\ (forall t, t ∈ ms -> t <> n -> heap_of res !! t = hs !! t)
    /\ (forall h' m', res = Done h' m' ->
          {[n]} ∪ ms ⊆ m' /\ forall t, t ∉ m' -> h' !! t = h0 !! t).
Proof.
  intros Hrec. induction labels as [|l labels IH];
    intros hc mc res Hnd Hsub Honce Hun Hlab Hframe Hrun.
  - cbn in Hrun. injection Hrun as <-. cbn. split; [assumption|]. split; [assumption|].
    intros h' m' [= <- <-]. auto.
  - apply NoDup_cons in Hnd as [Hnotin Hnd]. rewrite list_elem_of_In in Hnotin.
    cbn [for_labels] in Hrun.
    assert (n ∈ mc) as Hn by set_solver.
    (* the field is left alone *)
    assert (forall res', for_labels (visit_field recurse n deep) labels hc mc = Some res' ->
              replaced_at_most_once h0 (heap_of res')
              /\ (forall t, t ∈ ms -> t <> n -> heap_of res' !! t = hs !! t)
              /\ (forall h' m', res' = Done h' m' ->
                    {[n]} ∪ ms ⊆ m' /\ forall t, t ∉ m' -> h' !! t = h0 !! t)) as Hskip.
    { intros res' Hres'. eapply IH; eauto. intros l' Hl'. apply Hlab. now right. }
    unfold visit_field in Hrun at 1.
    destruct (field_of hc n l) as [field|] eqn:Hf; [|auto].
    destruct (typeMet_has mc (property_key (type_name (f_type field)))) eqn:Hmet; [auto|].
    destruct (resolveMiddlewareWrapper (f_resolve field) (f_directives field))
      as [w|e] eqn:Hw.
    2:{ injection Hrun as <-. cbn. split; [assumption|]. split; [assumption|]. discriminate. }
    clear Hskip.
    set (h1 := assign_resolve n l w hc) in *.
    assert (replaced_at_most_once h0 h1) as Honce1.
    { intros t l' f Hf0. destruct (decide ((t, l') = (n, l))) as [[= -> ->]|Hne].
      - right. exists w. rewrite Hlab in Hf by now left.
        assert (f = field) as -> by congruence.
        split; [assumption|]. apply field_of_assign_eq.
        rewrite Hlab by now left. assumption.
      - unfold h1. rewrite field_of_assign_other by assumption. now apply Honce. }
    assert (forall t, t <> n -> h1 !! t = hc !! t) as Hother.
    { intros t Ht. now apply lookup_assign_ne_type. }
    assert (forall t, t ∉ mc -> h1 !! t = h0 !! t) as Hun1.
    { intros t Ht. rewrite Hother; [auto|]. intros ->. contradiction. }
    assert (forall l', In l' labels -> field_of h1 n l' = field_of h0 n l') as Hlab1.
    { intros l' Hl'. unfold h1. rewrite field_of_assign_ne_label.
      - apply Hlab. now right.
      - intros ->. contradiction. }
    assert (forall t, t ∈ ms -> t <> n -> h1 !! t = hs !! t) as Hframe1.
    { intros t Ht Hne. rewrite Hother by assumption. auto. }
    (* the results that leave [h1] as it is *)
    assert (forall res', for_labels (visit_field recurse n deep) labels h1 mc = Some res' ->
              replaced_at_most_once h0 (heap_of res')
              /\ (forall t, t ∈ ms -> t <> n -> heap_of res' !! t = hs !! t)
              /\ (forall h' m', res' = Done h' m' ->
                    {[n]} ∪ ms ⊆ m' /\ forall t, t ∉ m' -> h' !! t = h0 !! t)) as Hdone.
    { intros res' Hres'. eapply IH; eauto. }
    assert (forall e,
              replaced_at_most_once h0 (heap_of (Threw e h1))
              /\ (forall t, t ∈ ms -> t <> n -> heap_of (Threw e h1) !! t = hs !! t)
              /\ (forall h' m', Threw e h1 = Done h' m' ->
                    {[n]} ∪ ms ⊆ m' /\ forall t, t ∉ m' -> h' !! t = h0 !! t)) as Hthrew.
    { intros e. cbn. split; [assumption|]. split; [assumption|]. discriminate. }
    destruct (f_type field) as [n'|ty|ty] eqn:Hty; cbn [type_fields type_ofType] in Hrun.
    + destruct (h1 !! n') as [fs|] eqn:Hn'; [|auto].
      destruct deep eqn:Hdeep; [|auto].
      cbn in Hmet. apply typeMet_has_false in Hmet.
      destruct (recurse n' h1 mc) as [res1|] eqn:Hres1; [|discriminate].
      destruct (Hrec n' h1 mc res1 Hmet Hun1 Honce1 Hres1) as (Ho & Hfr & Hd).
      destruct res1 as [h2 m2|e h2]; cbn in Ho, Hfr.
      * destruct (Hd _ _ eq_refl) as [Hsub2 Hun2].
        eapply (IH h2 m2 res); [exact Hnd|set_solver|exact Ho|exact Hun2| | |exact Hrun].
        -- intros l' Hl'. rewrite (field_of_same_type h1 h2) by (apply Hfr; exact Hn).
           now apply Hlab1.
        -- intros t Ht Hne. rewrite Hfr by set_solver. now apply Hframe1.
      * injection Hrun as <-. cbn. split; [assumption|]. split; [|discriminate].
        intros t Ht Hne. rewrite Hfr by set_solver. now apply Hframe1.
    + destruct (type_fields h1 ty); [|auto].
      destruct deep; [|auto].
      destruct (type_fields h1 (unwrap (ListOf ty))) as [child_fields|]; [|auto].
      destruct (wrapFieldsWithMiddleware_field_map child_fields); [auto|].
      injection Hrun as <-. apply Hthrew.
    + destruct (type_fields h1 ty); [|auto].
      destruct deep; [|auto].
      destruct (type_fields h1 (unwrap (NonNull ty))) as [child_fields|]; [|auto].
      destruct (wrapFieldsWithMiddleware_field_map child_fields); [auto|].
      injection Hrun as <-. apply Hthrew.
Qed.

Lemma walk_once : well_labelled h0 ->
  forall fuel n hc mc res,
    n ∉ mc ->
    (forall t, t ∉ mc -> hc !! t = h0 !! t) ->
    replaced_at_most_once h0 hc ->
    walk fuel deep n hc mc = Some res ->
    walk_post h0 n hc mc res.
Proof.
  intros Hwl. induction fuel as [|fuel IH]; intros n hc mc res Hn Hun Honce Hrun;
    [discriminate|].
  cbn [walk] in Hrun.
  assert (hc !! n = h0 !! n) as Hsame by (now apply Hun).
  destruct (walk_body_once (walk fuel deep) n mc hc IH
              (match hc !! n with Some fs => map fst fs | None => [] end)
              hc ({[n]} ∪ mc) res) as (Ho & Hfr & Hd); try assumption.
  - destruct (hc !! n) as [fs|] eqn:Hfs; [|constructor].
    eapply Hwl. rewrite <- Hsame. reflexivity.
  - reflexivity.
  - intros t Ht. apply Hun. set_solver.
  - intros l _. now apply field_of_same_type.
  - reflexivity.
  - split; [assumption|]. split; [|assumption].
    intros t Ht. apply Hfr; [assumption|]. intros ->. contradiction.
Qed.

End AtMostOnce.

(** X15: whatever the graph, and whether the walk completes or is interrupted by
    an exception, no resolver is replaced twice: every field keeps the
    resolver it had, or holds the wrapped version of it. *)
Theorem wrapFieldsWithMiddleware_at_most_once (type : option string) (deepWrap : bool)
    (h : heap) (res : walk_result) :
  well_labelled h ->
  wrapFieldsWithMiddleware type deepWrap h = Some res ->
  replaced_at_most_once h (heap_of res).
Proof.
  intros Hwl Hrun. destruct type as [n|]; cbn in Hrun.
  - eapply (walk_once h deepWrap Hwl (S (size h)) n h ∅ res); try assumption.
    + set_solver.
    + reflexivity.
    + intros t l f Hf. now left.
  - injection Hrun as <-. intros t l f Hf. now left.
Qed.

End WalkFacts.

(** * The test-suite scenario: concrete type graphs *)

(** C4: the walk ends on the self-referential graph [type A { self: A, x:
    String }], but it does not replace the resolver of every field: the guard
    [!typeMet[field.type.name]] encloses the assignment, so the field [self],
    whose type is already marked, keeps its resolver.  Nor are the fields of
    a type reached through a list wrapper replaced: that branch calls the
    walk on [child._fields] instead of [child]. *)
Theorem self_referential_field_keeps_resolver :
  (exists h' met,
     wrapFieldsWithMiddleware (Some "A") true self_referential = Some (Done h' met) /\
     field_of h' "A" "self" = Some (object_field (Named "A")) /\
     field_of h' "A" "x" = Some (with_resolve scalar_field (Wrapped DefaultResolve []))) /\
  (exists h' met,
     wrapFieldsWithMiddleware (Some "Query") true list_wrapped = Some (Done h' met) /\
     field_of h' "Query" "items"
       = Some (with_resolve (object_field (ListOf (Named "Item"))) (Wrapped (Native 0) [])) /\
     field_of h' "Item" "name" = Some scalar_field).
Proof.
  split; eexists _, _; (split; [vm_compute; reflexivity|]);
    split; vm_compute; reflexivity.
Qed.

(** C7: for the schema [type Query { items: [Item] }  type Item { _fields:
    String }] activation does not return [true]: the call of the walk on
    [child._fields] takes the field called [_fields] for a field map and
    throws a [TypeError]. *)
Theorem activation_throws_on_field_called__fields :
  exists h',
    applySchemaCustomDirectives
      (SchemaInstance {| _queryType := Some "Query"; _mutationType := None |})
      underscore_fields
    = Some (Throw (TypeError "Cannot read property 'name' of undefined"), h').
Proof. eexists. vm_compute. reflexivity. Qed.



(** The part of C8 that the misplaced guard breaks: a field of the mutation
    root whose type is the root itself keeps its resolver. *)
Example self_typed_mutation_field_keeps_resolver :
  exists h' met,
    wrapFieldsWithMiddleware (Some "Mutation") false self_typed_mutation
      = Some (Done h' met) /\
    field_of h' "Mutation" "again" = Some (object_field (Named "Mutation")) /\
    field_of h' "Mutation" "set"
      = Some (with_resolve scalar_field (Wrapped DefaultResolve [])).
Proof.
  eexists _, _. split; [vm_compute; reflexivity|]. split; vm_compute; reflexivity.
Qed.

(** * Further facts about the wrapped resolver *)

Section RuntimeExtras.
Variable U : Type.
Variable getDirectiveValues :
  option directiveConfig -> list directive_node -> value -> outcome value.
Variable transforms : fid -> transform U.

Local Notation rwd := (resolveWithDirective getDirectiveValues transforms).
Local Notation loop := (pipeline_loop getDirectiveValues transforms).
Local Notation wrapped := (wrapped_resolver getDirectiveValues transforms).
Local Notation invocable := (invocable getDirectiveValues).
Local Notation step_of := (loop_cons U getDirectiveValues transforms).

(** X2: the directive definition is looked up by name and the first match
    wins: the definition found carries the name of the node and no earlier
    entry of the schema's list does; nothing is found exactly when no entry
    carries the name. *)
Theorem find_directive_first_match (i : info) (d : directive_node) :
  match find_directive i d with
  | Some cfg =>
      d_name cfg = dn_name d /\
      exists before after,
        schema_directives i = before ++ cfg :: after /\
        Forall (fun c => d_name c <> dn_name d) before
  | None => Forall (fun c => d_name c <> dn_name d) (schema_directives i)
  end.
Proof.
  unfold find_directive. induction (schema_directives i) as [|c l IH]; cbn.
  - constructor.
  - destruct (String.eqb (dn_name d) (d_name c)) eqn:E; cbn.
    + apply String.eqb_eq in E. split; [auto|]. exists [], l. split; [reflexivity|constructor].
    + apply String.eqb_neq in E.
      destruct (head (List.filter _ l)) as [cfg|].
      * destruct IH as (Hn & before & after & -> & Hb). split; [assumption|].
        exists (c :: before), after. split; [reflexivity|]. constructor; [congruence|assumption].
      * constructor; [congruence|assumption].
Qed.

Lemma effective_source_is_truthy (src : value) (i : info) :
  truthy (effective_source src i) = true.
Proof.
  unfold effective_source, js_or.
  repeat match goal with
         | |- context [if truthy ?x then _ else _] => destruct (truthy x) eqn:?
         end; auto.
Qed.

(** X3: a transform never receives a falsy [source].  What the transforms do
    on a falsy source is irrelevant: two families of transforms that agree
    on every truthy source make the wrapped resolver return the same result,
    leave the same state and record the same calls.  The source passed is
    truthy, and when the resolver's own [source] is falsy while
    [variableValues.input_0] is truthy, it is [variableValues.input_0]. *)
Theorem transform_source_is_truthy
    (transforms' : fid -> transform U)
    (resolve : resolver_fn U) (sd : list directive_node)
    (src args ctx : value) (i : info) (u : U) :
  (forall s, truthy s = true -> agree_at transforms' transforms ctx i s) ->
  wrapped_resolver getDirectiveValues transforms' resolve sd src args ctx i u
  = wrapped resolve sd src args ctx i u
  /\ truthy (effective_source src i) = true
  /\ (truthy src = false ->
      truthy (prop_or_undefined (js_or (variableValues i) (VObj [])) "input_0") = true ->
      effective_source src i
      = prop_or_undefined (js_or (variableValues i) (VObj [])) "input_0").
Proof.
  intros Hagree. split; [|split].
  - apply wrapped_ext, Hagree, effective_source_is_truthy.
  - apply effective_source_is_truthy.
  - intros Hs Hv. unfold effective_source.
    set (x := prop_or_undefined (js_or (variableValues i) (VObj [])) "input_0") in *.
    unfold js_or at 1 2 3. now rewrite Hs, Hv, Hv.
Qed.

Lemma wrapped_first_step resolve sd src args ctx i n others d u :
  fieldNodes i = n :: others ->
  head (List.filter (fun d => not_default (dn_name d)) (sd ++ fn_directives n)) = Some d ->
  wrapped resolve sd src args ctx i u =
  match rwd (field_closure resolve src args ctx i) src d ctx i u with
  | (Ret first, u1, l1) =>
      let '(r, u2, l2) :=
        bind (as_promise first) (fun defer =>
          bind (emit (Defer d defer)) (fun _ =>
          bind (promise_catch_ defer (fun e => rwd (rejected_closure e) src d ctx i)) (fun _ =>
          if (length (sd ++ fn_directives n) <=? 1)%nat
          then ret (VPromise defer)
          else bind (loop src ctx i (tail (sd ++ fn_directives n)) defer)
                    (fun defer' => ret (VPromise defer'))))) u1 in
      (r, u2, l1 ++ l2)
  | (Throw e, u1, l1) => (Throw e, u1, l1)
  end.
Proof.
  intros Hn Hd. unfold wrapped_resolver. rewrite bind_eq.
  unfold field_directives. rewrite Hn. cbn [ret]. cbv beta iota zeta. rewrite Hd.
  rewrite bind_eq.
  destruct (rwd (field_closure resolve src args ctx i) src d ctx i u) as [[[first|e] u1] l1];
    [|reflexivity].
  destruct (bind (as_promise first) _ u1) as [[r u2] l2]. reflexivity.
Qed.

(** X9: an error raised by [getDirectiveValues] is not wrapped or replaced.
    For the first applicable directive the wrapped resolver throws it
    synchronously, before any transform runs and without touching the user
    state; for a directive of the loop, reached with a fulfilled promise, the
    step's promise and the promise returned by the loop are rejected with
    it. *)
Theorem argument_error_surfaces_unchanged
    (resolve : resolver_fn U) (sd : list directive_node)
    (src args ctx : value) (i : info) (n : field_node) (others : list field_node)
    (d : directive_node) (e : value) (u : U) :
  fieldNodes i = n :: others ->
  getDirectiveValues (find_directive i d) [d] (variableValues i) = Throw e ->
  (head (List.filter (fun d => not_default (dn_name d)) (sd ++ fn_directives n)) = Some d ->
   wrapped resolve sd src args ctx i u = (Throw e, u, []))
  /\ (forall rest v,
        exists u' t,
          loop src ctx i (d :: rest) (Fulfilled v) u = (Ret (Rejected e), u', t) /\
          head t = Some (Defer d (Rejected e))).
Proof.
  intros Hn Hg.
  assert (forall cl, rwd cl src d ctx i u = (Throw e, u, [])) as Hrwd.
  { intros cl. unfold resolveWithDirective. rewrite bind_eq.
    unfold lift_outcome. now rewrite Hg. }
  split.
  - intros Hd. rewrite (wrapped_first_step _ _ _ _ _ _ _ _ _ _ Hn Hd). now rewrite Hrwd.
  - intros rest v.
    destruct (step_of src ctx i d rest (Fulfilled v) u)
      as (p' & l1 & u2 & l2 & Heq & Hthen & Hcatch).
    assert (promise_then (Fulfilled v)
              (fun result => rwd (resolved_closure result) src d ctx i) u
            = (Ret (Rejected e), u, [])) as Hth.
    { unfold promise_then. now rewrite Hrwd. }
    assert (forall f a, ~ invocable i d f a) as Hno.
    { intros f a (cfg & Hc & _ & Ha). rewrite Hc in Hg. congruence. }
    destruct Hthen as [(_ & -> & e' & ->)|(f & a & _ & Hi & _)]; [|exfalso; eapply Hno, Hi].
    assert (e' = e) as ->.
    { cbn [pipeline_loop] in Heq. rewrite bind_eq, Hth in Heq.
      rewrite bind_eq in Heq. unfold emit at 1 in Heq.
      destruct (bind (promise_catch_ (Rejected e) _) _ u) as [[r1 u1] t1] eqn:Hb.
      destruct (loop src ctx i rest (Rejected e') u2) as [[r3 u3] l3].
      cbn in Heq. congruence. }
    pose proof (loop_rejected U getDirectiveValues transforms src ctx i rest e u2) as Hrej.
    unfold result_of in Hrej. rewrite Heq.
    destruct (loop src ctx i rest (Rejected e) u2) as [[r3 u3] l3]. cbn in Hrej. subst r3.
    eexists _, _. split; reflexivity.
Qed.

(** X10: when the transform of the first applicable directive throws, or
    returns a value without a callable [catch] member (anything but a
    promise or an object that carries a function under [catch]), the wrapped
    resolver throws synchronously -- the transform's own exception, or the
    [TypeError] of calling [catch] on the value -- after that single
    invocation: no handler runs and no other transform is called. *)
Theorem first_transform_must_return_promise
    (resolve : resolver_fn U) (sd : list directive_node)
    (src args ctx : value) (i : info) (n : field_node) (others : list field_node)
    (d : directive_node) (f : fid) (a : value) (r : outcome value) (u u1 : U) :
  fieldNodes i = n :: others ->
  head (List.filter (fun d => not_default (dn_name d)) (sd ++ fn_directives n)) = Some d ->
  invocable i d f a ->
  transforms f (cl_run (field_closure resolve src args ctx i))
             (effective_source src i) a ctx i u = (r, u1) ->
  (forall v, r = Ret v -> callable_catch v = false) ->
  wrapped resolve sd src args ctx i u
  = (Throw (match r with Throw e => e | Ret v => no_catch_method v end), u1,
     [Invoke (the_call NextField src d ctx i a r)]).
Proof.
  intros Hn Hd Hi Ht Hnp.
  rewrite (wrapped_first_step _ _ _ _ _ _ _ _ _ _ Hn Hd).
  destruct (rwd_cases U getDirectiveValues transforms
              (field_closure resolve src args ctx i) src d ctx i u)
    as [(e & _ & Hno)|(f' & a' & r' & u1' & Hi' & Ht' & Heq)]; [exfalso; eapply Hno, Hi|].
  destruct (invocable_functional _ _ _ _ _ _ _ Hi Hi') as [<- <-].
  rewrite Ht in Ht'. injection Ht' as <- <-. rewrite Heq. cbn [cl_kind field_closure].
  destruct r as [v|e]; [|reflexivity].
  destruct v; try reflexivity. specialize (Hnp _ eq_refl). discriminate.
Qed.

(** The loop makes at most one invocation per directive, and one more when
    it starts from a fulfilled promise. *)
Lemma loop_invocation_count src ctx i rest : forall p u,
  length (invocations (trace_of (loop src ctx i rest p) u))
  <= length rest + match p with Fulfilled _ => 1 | _ => 0 end.
Proof.
  induction rest as [|d rest IH]; intros p u.
  - cbn. lia.
  - destruct (step_of src ctx i d rest p u)
      as (p' & l1 & u2 & l2 & Heq & Hthen & Hcatch).
    specialize (IH p' u2). unfold trace_of in *. rewrite Heq.
    destruct (loop src ctx i rest p' u2) as [[r u3] l3]. cbn [snd] in *.
    rewrite invocations_app. cbn [invocations]. rewrite invocations_app, !length_app.
    assert (length (invocations l2)
            <= match p' with Rejected _ => 1 | _ => 0 end) as Hl2.
    { destruct p' as [v|e|]; try (subst l2; cbn; lia).
      destruct Hcatch as [(_ & ->)|(f & a & r' & _ & ->)]; cbn; lia. }
    destruct p as [v|e|].
    + destruct Hthen as [(Hno & -> & e & ->)|(f & a & r' & Hi & -> & Hp')].
      * destruct Hcatch as [(_ & ->)|(f & a & r' & Hi & _)]; [|exfalso; eapply Hno, Hi].
        cbn in *. lia.
      * cbn [invocations length]. destruct p'; cbn in *; lia.
    + destruct Hthen as [-> ->]. cbn in *. lia.
    + destruct Hthen as [-> ->]. cbn in *. lia.
Qed.


(** When the loop ends fulfilled, it started fulfilled, every directive was
    invoked exactly once on the main chain, and the value is the one of the
    last invocation. *)
Lemma loop_fulfilled src ctx i rest : forall p u v,
  result_of (loop src ctx i rest p) u = Ret (Fulfilled v) ->
  let cs := invocations (trace_of (loop src ctx i rest p) u) in
  map c_directive cs = map dn_name rest /\
  Forall (fun c => is_main c = true) cs /\
  match last cs with Some c => settled c | None => p end = Fulfilled v.
Proof.
  induction rest as [|d rest IH]; intros p u v Hres; cbv zeta.
  - cbn in *. injection Hres as ->. auto.
  - destruct (step_of src ctx i d rest p u)
      as (p' & l1 & u2 & l2 & Heq & Hthen & Hcatch).
    specialize (IH p' u2 v). cbv zeta in IH.
    pose proof (loop_unfulfilled U getDirectiveValues transforms src ctx i rest p' u2) as Hun.
    unfold trace_of, result_of in *. rewrite Heq in *.
    destruct (loop src ctx i rest p' u2) as [[r u3] l3]. cbn [fst snd] in *.
    subst r. destruct (IH eq_refl) as (Hlen & Hmain & Hlast).
    assert (exists v', p' = Fulfilled v') as [v' ->].
    { destruct p' as [v'|e|]; [eauto|exfalso..]; specialize (Hun ltac:(discriminate));
        discriminate. }
    subst l2.
    destruct p as [v0|e|]; [|destruct Hthen; discriminate..].
    destruct Hthen as [(_ & _ & e & He)|(f & a & r' & Hi & -> & Hp')]; [discriminate|].
    rewrite invocations_app. cbn [invocations app].
    split; [cbn; now rewrite Hlen|]. split; [constructor; [reflexivity|assumption]|].
    rewrite last_cons. destruct (last (invocations l3)); [assumption|].
    now rewrite <- Hp'.
Qed.


(** A promise that never settles runs nothing. *)
Lemma loop_pending_quiet src ctx i rest : forall u,
  invocations (trace_of (loop src ctx i rest Pending) u) = [].
Proof.
  induction rest as [|d rest IH]; intros u; [reflexivity|].
  destruct (step_of src ctx i d rest Pending u)
    as (p' & l1 & u2 & l2 & Heq & [-> ->] & ->).
  specialize (IH u2). unfold trace_of in *. rewrite Heq.
  destruct (loop src ctx i rest Pending u2) as [[r u3] l3]. exact IH.
Qed.

Lemma loop_defer_pending src ctx i rest : forall p u d,
  In (Defer d Pending) (trace_of (loop src ctx i rest p) u) ->
  result_of (loop src ctx i rest p) u = Ret Pending.
Proof.
  induction rest as [|d0 rest IH]; intros p u d Hin.
  - cbn in Hin. contradiction.
  - destruct (step_of src ctx i d0 rest p u)
      as (p' & l1 & u2 & l2 & Heq & Hthen & Hcatch).
    unfold trace_of, result_of in *. rewrite Heq in *.
    pose proof (IH p' u2 d) as IH'.
    pose proof (loop_unfulfilled U getDirectiveValues transforms src ctx i rest Pending u2)
      as Hun.
    unfold result_of in Hun.
    destruct (loop src ctx i rest p' u2) as [[r u3] l3] eqn:Hl. cbn [fst snd] in *.
    apply in_app_or in Hin. destruct Hin as [Hin|[Hin|Hin]].
    + exfalso. destruct p as [v| |].
      * destruct Hthen as [(_ & -> & _)|(f & a & r' & _ & -> & _)]; cbn in Hin;
          [contradiction|destruct Hin as [Hin|[]]; discriminate].
      * destruct Hthen as [_ ->]. contradiction.
      * destruct Hthen as [_ ->]. contradiction.
    + injection Hin as -> ->. rewrite Hl in Hun. cbn in Hun. now rewrite Hun.
    + apply in_app_or in Hin. destruct Hin as [Hin|Hin]; [|auto].
      exfalso. destruct p' as [v|e'|].
      * subst l2. contradiction.
      * destruct Hcatch as [(_ & ->)|(f & a & r' & _ & ->)]; cbn in Hin;
          [contradiction|destruct Hin as [Hin|[]]; discriminate].
      * subst l2. contradiction.
Qed.

Lemma loop_after_pending src ctx i rest : forall p u t1 d t2,
  trace_of (loop src ctx i rest p) u = t1 ++ Defer d Pending :: t2 ->
  invocations t2 = [].
Proof.
  induction rest as [|d0 rest IH]; intros p u t1 d t2 Heq.
  - cbn in Heq. destruct t1; discriminate.
  - destruct (step_of src ctx i d0 rest p u)
      as (p' & l1 & u2 & l2 & Hl & Hthen & Hcatch).
    unfold trace_of in *. rewrite Hl in Heq.
    pose proof (loop_pending_quiet src ctx i rest u2) as Hq.
    specialize (IH p' u2). unfold trace_of in Hq.
    destruct (loop src ctx i rest p' u2) as [[r u3] l3] eqn:Hloop. cbn [snd] in *.
    assert (Forall (fun ev => match ev with Invoke _ => True | Defer _ _ => False end) l1)
      as Hnd1.
    { destruct p as [v| |].
      - destruct Hthen as [(_ & -> & _)|(f & a & r' & _ & -> & _)]; repeat constructor.
      - destruct Hthen as [_ ->]. constructor.
      - destruct Hthen as [_ ->]. constructor. }
    assert (Forall (fun ev => match ev with Invoke _ => True | Defer _ _ => False end) l2)
      as Hnd2.
    { destruct p' as [v|e|]; try (subst l2; constructor).
      destruct Hcatch as [(_ & ->)|(f & a & r' & _ & ->)]; repeat constructor. }
    symmetry in Heq.
    destruct (split_no_defer l1 Hnd1 _ _ _ _ _ Heq) as (k & -> & Hk).
    destruct k as [|ev k]; cbn in Hk.
    + injection Hk as <- -> <-. subst l2. cbn. rewrite Hloop in Hq. exact Hq.
    + injection Hk as <- Hk. symmetry in Hk.
      destruct (split_no_defer l2 Hnd2 _ _ _ _ _ Hk) as (k' & -> & Hk').
      eapply IH. exact Hk'.
Qed.

End RuntimeExtras.

(** * Concrete instances of the further facts *)

(** X3 at a root field of a request with the variables [{ input_0: { id: 7
    } }], selected with [@duplicate]: transforms that throw when they are
    given [undefined] as the source behave like the others. *)
Lemma transform_source_is_truthy_witness :
  (forall s, truthy s = true ->
     agree_at Edge.refusing_undefined Edge.transforms VNull Edge.with_input_0 s) /\
  wrapped_resolver getDirectiveValues Edge.refusing_undefined (natives 0) []
    VUndefined test_args VNull Edge.with_input_0 []
  = wrapped_resolver getDirectiveValues Edge.transforms (natives 0) []
      VUndefined test_args VNull Edge.with_input_0 [] /\
  truthy (effective_source VUndefined Edge.with_input_0) = true /\
  (truthy VUndefined = false ->
   truthy (prop_or_undefined (js_or (variableValues Edge.with_input_0) (VObj [])) "input_0")
     = true ->
   effective_source VUndefined Edge.with_input_0
   = prop_or_undefined (js_or (variableValues Edge.with_input_0) (VObj [])) "input_0").
Proof.
  assert (forall s, truthy s = true ->
            agree_at Edge.refusing_undefined Edge.transforms VNull Edge.with_input_0 s) as H.
  { intros s Hs f next a u. destruct s; try reflexivity. discriminate. }
  split; [exact H|].
  exact (transform_source_is_truthy errors getDirectiveValues Edge.transforms
           Edge.refusing_undefined (natives 0) [] VUndefined test_args VNull
           Edge.with_input_0 [] H).
Defined.

(** X9 at [{ value(input: "test") @unknown }]. *)
Lemma argument_error_surfaces_unchanged_witness :
  (head (List.filter (fun d => not_default (dn_name d)) ([] ++ [at_ "unknown"]))
     = Some (at_ "unknown") ->
   resolution [] [at_ "unknown"] VUndefined
   = (Throw (TypeError "Cannot read property 'name' of undefined"), [], []))
  /\ (forall rest v,
        exists u' t,
          pipeline_loop getDirectiveValues transforms VUndefined VNull
            (selection [at_ "unknown"]) (at_ "unknown" :: rest) (Fulfilled v) []
          = (Ret (Rejected (TypeError "Cannot read property 'name' of undefined")), u', t) /\
          head t = Some (Defer (at_ "unknown")
                           (Rejected (TypeError "Cannot read property 'name' of undefined")))).
Proof.
  apply (argument_error_surfaces_unchanged errors getDirectiveValues transforms
           (natives 0) [] VUndefined test_args VNull (selection [at_ "unknown"])
           {| fn_directives := [at_ "unknown"] |} [] (at_ "unknown")
           (TypeError "Cannot read property 'name' of undefined") []).
  - reflexivity.
  - reflexivity.
Defined.

(** X10 at [{ value(input: "test") @plain @duplicate }], where the transform
    of [plain] returns a string. *)
Lemma first_transform_must_return_promise_witness :
  Edge.resolution [at_ "plain"; at_ "duplicate"]
  = (Throw (TypeError "defer.catch is not a function"), [],
     [Invoke (the_call NextField VUndefined (at_ "plain") VNull
                (Edge.selection [at_ "plain"; at_ "duplicate"]) (VObj [])
                (Ret (VStr "plain")))]).
Proof.
  apply (first_transform_must_return_promise errors getDirectiveValues Edge.transforms
           (natives 0) [] VUndefined test_args VNull
           (Edge.selection [at_ "plain"; at_ "duplicate"])
           {| fn_directives := [at_ "plain"; at_ "duplicate"] |} [] (at_ "plain")
           3 (VObj []) (Ret (VStr "plain")) [] []).
  - reflexivity.
  - reflexivity.
  - eexists. repeat split; reflexivity.
  - reflexivity.
  - intros v [= <-]. reflexivity.
Defined.




(** * Facts about parseSchemaDirectives, defaultResolveFn and
      GraphQLCustomDirective *)

Lemma omap_Forall {A B : Type} (f : A -> outcome B) (P : B -> Prop) (l : list A) :
  (forall x y, f x = Ret y -> P y) ->
  forall ys, omap f l = Ret ys -> Forall P ys.
Proof.
  intros Hf. induction l as [|x l IH]; intros ys H; cbn in H.
  - injection H as <-. constructor.
  - destruct (f x) as [y|] eqn:Hx; cbn in H; [|discriminate].
    destruct (omap f l) as [ys'|]; cbn in H; [|discriminate].
    injection H as <-. constructor; eauto.
Qed.

Lemma omap_throw_from {A B : Type} (f : A -> outcome B) (l : list A) e :
  omap f l = Throw e -> exists x, In x l /\ f x = Throw e.
Proof.
  induction l as [|x l IH]; cbn; [discriminate|].
  destruct (f x) as [y|e'] eqn:Hx; cbn.
  - destruct (omap f l) as [ys|e'']; cbn; [discriminate|].
    intros [= ->]. destruct (IH eq_refl) as (x' & Hin & He). eauto.
  - intros [= ->]. eauto.
Qed.

Lemma omap_throw_exists {A B : Type} (f : A -> outcome B) (l : list A) x e :
  In x l -> f x = Throw e -> exists e', omap f l = Throw e'.
Proof.
  induction l as [|y l IH]; cbn; [contradiction|].
  intros [->|Hin] He.
  - rewrite He. cbn. eauto.
  - destruct (f y); cbn; [|eauto].
    destruct (IH Hin He) as [e' ->]. cbn. eauto.
Qed.

Lemma In_fst_assoc {A : Type} k (fs : list (string * A)) :
  In k (map fst fs) -> exists a, assoc k fs = Some a.
Proof.
  induction fs as [|[k' x] fs IH]; cbn; [contradiction|].
  intros [->|Hin]; [rewrite String.eqb_refl; eauto|].
  destruct (String.eqb k k'); eauto.
Qed.

Lemma get_prop_throws_TypeError v k e :
  get_prop v k = Throw e -> nullish v /\ exists msg, e = TypeError msg.
Proof.
  destruct v; cbn; intros H; try discriminate;
    injection H as <-; (split; [|eauto]); [left|right]; reflexivity.
Qed.

Lemma get_prop_nullish v k : nullish v -> exists e, get_prop v k = Throw e.
Proof. intros [-> | ->]; cbn; eauto. Qed.

(** X5: when the static configuration parses, it yields one node per key,
    in the order of the keys: the nodes are [DirectiveDefinition]s named
    after the keys. *)
Theorem parseSchemaDirectives_one_node_per_key (cfg : value) (sd : list directive_node) :
  parseSchemaDirectives cfg = Ret sd ->
  map dn_name sd = keys cfg /\
  length sd = length (keys cfg) /\
  Forall (fun d => dn_kind d = "DirectiveDefinition") sd.
Proof.
  intros H. pose proof (parseSchemaDirectives_names _ _ H) as Hn.
  split; [assumption|]. split; [now rewrite <- Hn, length_map|].
  unfold parseSchemaDirectives in H.
  destruct (_ || _); [injection H as <-; constructor|].
  eapply omap_Forall; [|exact H].
  intros x y Hy. unfold parse_directive, obind in Hy.
  repeat match type of Hy with
         | match ?o with Ret _ => _ | Throw _ => _ end = _ => destruct o; [|discriminate]
         end.
  now injection Hy as <-.
Qed.

(** X6: the argument nodes are read from the configuration's entry called
    [args], never from the entry of the directive itself: in a configuration
    without an entry [args] (such as [{ duplicate: { by: 2 } }]) every node
    has an empty argument list. *)
Theorem static_arguments_are_not_parsed
    (props : list (string * value)) (sd : list directive_node) :
  assoc "args" props = None ->
  parseSchemaDirectives (VObj props) = Ret sd ->
  Forall (fun d => dn_arguments d = []) sd.
Proof.
  intros Hargs H. unfold parseSchemaDirectives in H.
  destruct (_ || _); [injection H as <-; constructor|].
  eapply omap_Forall; [|exact H].
  intros x y Hy. unfold parse_directive in Hy. cbn [get_prop obind] in Hy.
  rewrite Hargs in Hy. cbn [Object_prototype_member builtin_of_key String.eqb Ascii.eqb
                            Bool.eqb js_or truthy for_in length seq map omap obind] in Hy.
  destruct (get_prop _ "description"); cbn in Hy; [|discriminate].
  now injection Hy as <-.
Qed.

(** X7: a configuration with an entry called [args] gets a directive node
    named [args], and every node carries the same argument nodes, those of
    that entry: one per key that [for (argName in directives.args || [])]
    visits, that is, per own property of an object and per index of an
    array or of a string. *)
Theorem args_entry_is_shared_by_all_directives
    (props : list (string * value)) (a : value) (sd : list directive_node) :
  assoc "args" props = Some a ->
  parseSchemaDirectives (VObj props) = Ret sd ->
  In "args" (map dn_name sd) /\
  exists nodes,
    omap (parse_arg a) (for_in (js_or a (VArr []))) = Ret nodes /\
    length nodes = length (for_in (js_or a (VArr []))) /\
    Forall (fun d => dn_arguments d = nodes) sd.
Proof.
  intros Hargs H. split.
  { rewrite (parseSchemaDirectives_names _ _ H). cbn. eapply assoc_In_fst, Hargs. }
  unfold parseSchemaDirectives in H.
  destruct (_ || _) eqn:Hempty.
  { cbn in Hempty. destruct props; [discriminate|]. cbn in Hempty. discriminate. }
  destruct (omap (parse_arg a) (for_in (js_or a (VArr [])))) as [nodes|e] eqn:Hnodes.
  - exists nodes. split; [reflexivity|]. split.
    + clear -Hnodes. revert nodes Hnodes.
      induction (for_in (js_or a (VArr []))) as [|k ks IH]; intros nodes Hn; cbn in Hn.
      * now injection Hn as <-.
      * destruct (parse_arg a k); cbn in Hn; [|discriminate].
        destruct (omap (parse_arg a) ks); cbn in Hn; [|discriminate].
        injection Hn as <-. cbn. f_equal. now apply IH.
    + eapply omap_Forall; [|exact H].
      intros x y Hy. unfold parse_directive in Hy. cbn [get_prop obind] in Hy.
      rewrite Hargs in Hy. rewrite Hnodes in Hy. cbn [obind] in Hy.
      destruct (get_prop _ "description"); cbn in Hy; [|discriminate].
      now injection Hy as <-.
  - exfalso. destruct props as [|[k v] props]; [discriminate|].
    cbn [keys map fst omap] in H. unfold parse_directive at 1 in H.
    cbn [get_prop obind] in H. rewrite Hargs in H.
    rewrite Hnodes in H. discriminate.
Qed.

Lemma parse_arg_TypeError args_obj k e :
  parse_arg args_obj k = Throw e -> exists msg, e = TypeError msg.
Proof.
  unfold parse_arg, obind. intros H.
  repeat match type of H with
         | match ?o with Ret _ => _ | Throw _ => _ end = _ =>
             destruct o eqn:?; [|injection H as <-; eapply get_prop_throws_TypeError; eauto]
         end.
  discriminate.
Qed.

Lemma parse_directive_TypeError cfg k e :
  parse_directive cfg k = Throw e -> exists msg, e = TypeError msg.
Proof.
  unfold parse_directive. intros H.
  destruct (get_prop cfg "args") as [args_obj|e0] eqn:H1; cbn in H;
    [|injection H as <-; eapply get_prop_throws_TypeError; eauto].
  destruct (omap (parse_arg args_obj) _) as [nodes|e0] eqn:H2; cbn in H.
  2:{ injection H as <-. destruct (omap_throw_from _ _ _ H2) as (x & _ & Hx).
      eapply parse_arg_TypeError; eauto. }
  destruct (get_prop cfg k) as [c|e0] eqn:H3; cbn in H;
    [|injection H as <-; eapply get_prop_throws_TypeError; eauto].
  destruct (get_prop c "description") as [dsc|e0] eqn:H4; cbn in H;
    [discriminate|injection H as <-; eapply get_prop_throws_TypeError; eauto].
Qed.

Lemma parseSchemaDirectives_TypeError (cfg : value) (e : value) :
  parseSchemaDirectives cfg = Throw e -> exists msg, e = TypeError msg.
Proof.
  intros H. unfold parseSchemaDirectives in H.
  destruct (_ || _); [discriminate|].
  destruct (omap_throw_from _ _ _ H) as (k & _ & Hk).
  eapply parse_directive_TypeError; eauto.
Qed.

(** X8: parsing fails only with a [TypeError], and, for a configuration
    without an entry [args], it fails exactly when the entry of some
    directive is [undefined] or [null]. *)
Theorem parseSchemaDirectives_throws (cfg : value) :
  (forall e, parseSchemaDirectives cfg = Throw e -> exists msg, e = TypeError msg) /\
  (forall props, cfg = VObj props -> assoc "args" props = None ->
     ((exists e, parseSchemaDirectives cfg = Throw e) <->
      exists k, In k (map fst props) /\ nullish (default VUndefined (assoc k props)))).
Proof.
  split.
  - intros e. apply parseSchemaDirectives_TypeError.
  - intros props -> Hargs.
    assert (forall k, In k (map fst props) ->
                      parse_directive (VObj props) k
                      = obind (get_prop (default VUndefined (assoc k props)) "description")
                          (fun description =>
                             Ret {| dn_kind := "DirectiveDefinition";
                                    dn_description := description;
                                    dn_name := k; dn_arguments := [] |})) as Hpd.
    { intros k Hin. destruct (In_fst_assoc _ _ Hin) as [x Hx].
      unfold parse_directive. cbn [get_prop obind]. rewrite Hargs, Hx. reflexivity. }
    unfold parseSchemaDirectives. cbn [truthy instanceof_Object keys negb orb].
    destruct (length (map fst props) =? 0)%nat eqn:Hlen.
    + apply Nat.eqb_eq in Hlen. destruct props; [|discriminate].
      split; [intros [e H]; discriminate|intros (k & [] & _)].
    + split.
      * intros [e H]. destruct (omap_throw_from _ _ _ H) as (k & Hin & Hk).
        exists k. split; [assumption|]. rewrite Hpd in Hk by assumption.
        destruct (get_prop _ "description") eqn:Hg; cbn in Hk; [discriminate|].
        eapply get_prop_throws_TypeError; eauto.
      * intros (k & Hin & Hnull).
        destruct (get_prop_nullish _ "description" Hnull) as [e He].
        eapply omap_throw_exists; [exact Hin|]. rewrite Hpd by assumption.
        rewrite He. reflexivity.
Qed.

Section DefaultResolve.
Variable U : Type.
Variable methods : fid -> eff U value.

(** X1: [defaultResolveFn] on its edge cases.  A [null] source makes it
    throw a [TypeError] ([typeof null] is [object]); [undefined], a boolean,
    a number or a string yields [undefined].  On a plain object, an own
    property that is not a function is returned as it is and one that is a
    function is called, without arguments.  A field name that the object
    does not carry is looked up in [Object.prototype]: a name that is not
    found there yields [undefined], [__proto__] yields [Object.prototype],
    and a member function is called as a method of the source, so that a
    field called [toString] resolves to ["[object Object]"], one called
    [constructor] to a fresh empty object, one called [valueOf] to the
    source itself, and one called [__defineGetter__] throws a [TypeError].
    Outside a call of a function supplied by the user the state is
    unchanged. *)
Theorem defaultResolveFn_edge_cases (src args ctx : value) (i : info) (u : U) :
  match src with
  | VNull =>
      exists msg, defaultResolveFn methods src args ctx i u = (Throw (TypeError msg), u)
  | VObj props =>
      match assoc (fieldName i) props with
      | Some (VFun f) => defaultResolveFn methods src args ctx i u = methods f u
      | Some (VBuiltin b) =>
          defaultResolveFn methods src args ctx i u = call_builtin methods b src u
      | Some v => defaultResolveFn methods src args ctx i u = (Ret v, u)
      | None =>
          match builtin_of_key (fieldName i) with
          | Some b =>
              defaultResolveFn methods src args ctx i u = call_builtin methods b src u
              /\ (forall r, Object_prototype_call b src = Some r ->
                     call_builtin methods b src u = (r, u))
              /\ (b = OP_toString ->
                    call_builtin methods b src u = (Ret (VStr "[object Object]"), u))
              /\ (b = OP_constructor -> call_builtin methods b src u = (Ret (VObj []), u))
              /\ (b = OP_valueOf -> call_builtin methods b src u = (Ret src, u))
              /\ (b = OP_defineGetter ->
                    exists msg, call_builtin methods b src u = (Throw (TypeError msg), u))
          | None =>
              defaultResolveFn methods src args ctx i u
              = (Ret (if String.eqb (fieldName i) "__proto__"
                      then VObjectPrototype else VUndefined), u)
          end
      end
  | VUndefined | VBool _ | VNum _ | VStr _ =>
      defaultResolveFn methods src args ctx i u = (Ret VUndefined, u)
  | VArr _ | VFun _ | VBuiltin _ | VObjectPrototype | VError _ _ | VPromise _ => True
  end.
Proof.
  unfold defaultResolveFn.
  destruct src; cbn [typeof String.eqb Ascii.eqb Bool.eqb orb get_prop];
    try reflexivity; try exact I; [eauto|].
  destruct (assoc (fieldName i) props) as [v|].
  - destruct v; reflexivity.
  - unfold Object_prototype_member.
    destruct (builtin_of_key (fieldName i)) as [b|].
    + split; [reflexivity|]. split.
      { intros r Hr. unfold call_builtin. now rewrite Hr. }
      repeat split; intros ->; cbn; eauto.
    + destruct (String.eqb (fieldName i) "__proto__"); reflexivity.
Qed.

End DefaultResolve.

Section CustomDirective.
Variable U : Type.
Variable getDirectiveValues :
  option directiveConfig -> list directive_node -> value -> outcome value.
Variable transforms : fid -> transform U.
Variable GraphQLDirective : value -> outcome directiveConfig.

(** X4: a directive built by [GraphQLCustomDirective] keeps the name and
    the arguments the host constructor gave it.  Registered first under its
    name, it makes [resolveWithDirective] call the function given as
    [resolve], once, with the arguments that [getDirectiveValues] returns;
    built from a configuration without [resolve], it makes
    [resolveWithDirective] throw a [TypeError] without calling anything. *)
Theorem custom_directive_is_invoked
    (config : value) (directive : directiveConfig)
    (i : info) (d : directive_node) (args : value)
    (cl : closure U) (src ctx : value) (u : U) :
  GraphQLCustomDirective GraphQLDirective config = Ret directive ->
  find_directive i d = Some directive ->
  getDirectiveValues (Some directive) [d] (variableValues i) = Ret args ->
  (exists host, GraphQLDirective config = Ret host /\
                d_name directive = d_name host /\ d_args directive = d_args host) /\
  (forall f, get_prop config "resolve" = Ret (VFun f) ->
     resolveWithDirective getDirectiveValues transforms cl src d ctx i u
     = (let '(r, u1) := transforms f (cl_run cl) (effective_source src i) args ctx i u in
        (r, u1, [Invoke (the_call (cl_kind cl) src d ctx i args r)]))) /\
  (forall host, GraphQLDirective config = Ret host -> d_resolve host = None ->
     get_prop config "resolve" = Ret VUndefined ->
     resolveWithDirective getDirectiveValues transforms cl src d ctx i u
     = (Throw (TypeError "directiveConfig.resolve is not a function"), u, [])).
Proof.
  intros Hc Hf Hg. unfold GraphQLCustomDirective, obind in Hc.
  destruct (GraphQLDirective config) as [host|] eqn:Hh; [|discriminate].
  destruct (get_prop config "resolve") as [resolve|] eqn:Hr; [|discriminate].
  assert (forall res, resolveWithDirective getDirectiveValues transforms cl src d ctx i u = res ->
            match d_resolve directive with
            | Some f =>
                res = (let '(r, u1) := transforms f (cl_run cl) (effective_source src i)
                                         args ctx i u in
                       (r, u1, [Invoke (the_call (cl_kind cl) src d ctx i args r)]))
            | None => res = (Throw (TypeError "directiveConfig.resolve is not a function"), u, [])
            end) as Hrun.
  { intros res <-. unfold resolveWithDirective, bind, lift_outcome, throw, call_transform.
    rewrite Hf, Hg. destruct (d_resolve directive); [|reflexivity].
    destruct (transforms _ _ _ _ _ _ _). reflexivity. }
  split; [|split].
  - exists host. split; [reflexivity|].
    destruct (truthy resolve); injection Hc as <-; auto.
  - intros f [= ->]. cbn in Hc. injection Hc as <-.
    apply (Hrun _ eq_refl).
  - intros host' [= <-] Hnone [= ->]. cbn in Hc. injection Hc as <-.
    specialize (Hrun _ eq_refl). now rewrite Hnone in Hrun.
Qed.

End CustomDirective.

(** X4 for the configuration [{ name: 'duplicate', description: ...,
    locations: [DirectiveLocation.FIELD], resolve: ... }] of the tests, in a
    schema that registers the directive built from it; the host constructor
    gives it an empty list of arguments. *)
Lemma custom_directive_is_invoked_witness :
  let directive := {| d_name := "duplicate"; d_args := VArr []; d_resolve := Some 0 |} in
  let i := selection_in [directive] [at_ "duplicate"] in
  let cl := field_closure (natives 0) VUndefined test_args VNull i in
  (exists host, Edge.GraphQLDirective Edge.duplicate_config = Ret host /\
                d_name directive = d_name host /\ d_args directive = d_args host) /\
  (forall f, get_prop Edge.duplicate_config "resolve" = Ret (VFun f) ->
     resolveWithDirective getDirectiveValues transforms cl VUndefined (at_ "duplicate") VNull i []
     = (let '(r, u1) := transforms f (cl_run cl) (effective_source VUndefined i)
                          (VObj []) VNull i [] in
        (r, u1, [Invoke (the_call (cl_kind cl) VUndefined (at_ "duplicate") VNull i
                           (VObj []) r)]))) /\
  (forall host, Edge.GraphQLDirective Edge.duplicate_config = Ret host ->
     d_resolve host = None ->
     get_prop Edge.duplicate_config "resolve" = Ret VUndefined ->
     resolveWithDirective getDirectiveValues transforms cl VUndefined (at_ "duplicate") VNull i []
     = (Throw (TypeError "directiveConfig.resolve is not a function"), [], [])).
Proof.
  cbv zeta.
  apply (custom_directive_is_invoked errors getDirectiveValues transforms
           Edge.GraphQLDirective Edge.duplicate_config
           {| d_name := "duplicate"; d_args := VArr []; d_resolve := Some 0 |}).
  - reflexivity.
  - reflexivity.
  - reflexivity.
Defined.

(** X5 at the static configuration [directives: { duplicate: { by: 2 } }]. *)
Lemma parseSchemaDirectives_one_node_per_key_witness :
  let sd := [ {| dn_kind := "DirectiveDefinition"; dn_description := VUndefined;
                 dn_name := "duplicate"; dn_arguments := [] |} ] in
  parseSchemaDirectives static_duplicate = Ret sd /\
  map dn_name sd = keys static_duplicate /\
  length sd = length (keys static_duplicate) /\
  Forall (fun d => dn_kind d = "DirectiveDefinition") sd.
Proof.
  cbv zeta. split; [reflexivity|].
  apply (parseSchemaDirectives_one_node_per_key static_duplicate). reflexivity.
Defined.

(** X6 at the same configuration: the argument [by] is not in the node. *)
Lemma static_arguments_are_not_parsed_witness :
  Forall (fun d => dn_arguments d = [])
    [ {| dn_kind := "DirectiveDefinition"; dn_description := VUndefined;
         dn_name := "duplicate"; dn_arguments := [] |} ].
Proof.
  apply (static_arguments_are_not_parsed [("duplicate", VObj [("by", VNum 2)])]).
  - reflexivity.
  - reflexivity.
Defined.

(** X7 at [directives: { duplicate: {}, args: { by: { name: 'by' } } }], and
    at [directives: { duplicate: {}, args: 'ab' }], where the two characters
    of the string give two argument nodes. *)
Lemma args_entry_is_shared_by_all_directives_witness :
  let by_ := InputValueDefinition VUndefined (VStr "by") VUndefined VUndefined in
  let sd := [ {| dn_kind := "DirectiveDefinition"; dn_description := VUndefined;
                 dn_name := "duplicate"; dn_arguments := [by_] |};
              {| dn_kind := "DirectiveDefinition"; dn_description := VUndefined;
                 dn_name := "args"; dn_arguments := [by_] |} ] in
  let char := InputValueDefinition VUndefined VUndefined VUndefined VUndefined in
  let sd' := [ {| dn_kind := "DirectiveDefinition"; dn_description := VUndefined;
                  dn_name := "duplicate"; dn_arguments := [char; char] |};
               {| dn_kind := "DirectiveDefinition"; dn_description := VUndefined;
                  dn_name := "args"; dn_arguments := [char; char] |} ] in
  (parseSchemaDirectives Edge.static_with_args = Ret sd /\
   In "args" (map dn_name sd) /\
   exists nodes,
     omap (parse_arg (VObj [("by", VObj [("name", VStr "by")])]))
          (for_in (js_or (VObj [("by", VObj [("name", VStr "by")])]) (VArr [])))
     = Ret nodes /\
     length nodes
     = length (for_in (js_or (VObj [("by", VObj [("name", VStr "by")])]) (VArr []))) /\
     Forall (fun d => dn_arguments d = nodes) sd) /\
  (parseSchemaDirectives (VObj [("duplicate", VObj []); ("args", VStr "ab")]) = Ret sd' /\
   In "args" (map dn_name sd') /\
   exists nodes,
     omap (parse_arg (VStr "ab")) (for_in (js_or (VStr "ab") (VArr []))) = Ret nodes /\
     length nodes = length (for_in (js_or (VStr "ab") (VArr []))) /\
     Forall (fun d => dn_arguments d = nodes) sd').
Proof.
  cbv zeta. split.
  - split; [reflexivity|].
    apply (args_entry_is_shared_by_all_directives
             [("duplicate", VObj []); ("args", VObj [("by", VObj [("name", VStr "by")])])]).
    + reflexivity.
    + reflexivity.
  - split; [reflexivity|].
    apply (args_entry_is_shared_by_all_directives
             [("duplicate", VObj []); ("args", VStr "ab")]).
    + reflexivity.
    + reflexivity.
Defined.

(** * Further facts about the graph walk *)

Section WalkInvariant.
Variable I : heap -> gset string -> Prop.
Variable E : value -> Prop.
Variable deep : bool.

Hypothesis I_assign : forall h m t l f w,
  I h m -> field_of h t l = Some f ->
  resolveMiddlewareWrapper (f_resolve f) (f_directives f) = Ret w ->
  I (assign_resolve t l w h) m.
Hypothesis I_mark : forall h m n, I h m -> is_Some (h !! n) -> I h ({[n]} ∪ m).
Hypothesis E_parse : forall h m t l f e,
  I h m -> field_of h t l = Some f ->
  resolveMiddlewareWrapper (f_resolve f) (f_directives f) = Throw e -> E e.
Hypothesis E_field_map : forall h m n fs e,
  I h m -> h !! n = Some fs -> wrapFieldsWithMiddleware_field_map fs = Throw e -> E e.

Lemma type_fields_unwrap (h : heap) t fs :
  type_fields h (unwrap t) = Some fs -> exists n, h !! n = Some fs.
Proof. induction t; cbn; eauto. Qed.

(** An invariant of the assignments and of the marking is an invariant of
    the walk, and the walk throws only what parsing and the call on a field
    map throw. *)
Lemma walk_invariant : forall fuel n h m res,
  I h ({[n]} ∪ m) ->
  walk fuel deep n h m = Some res ->
  match res with
  | Done h' m' => I h' m'
  | Threw e _ => E e
  end.
Proof.
  induction fuel as [|fuel IH]; intros n h m res HI Hrun; [discriminate|].
  cbn [walk] in Hrun. revert Hrun HI.
  generalize ({[n]} ∪ m). generalize h at 2 3.
  generalize (match h !! n with Some fs => map fst fs | None => [] end).
  intros labels. revert res.
  assert (forall l hc mc r, I hc mc ->
            visit_field (walk fuel deep) n deep l hc mc = Some r ->
            match r with Done h' m' => I h' m' | Threw e _ => E e end) as Hbody.
  { intros l hc mc r HI Hrun. unfold visit_field in Hrun.
    destruct (field_of hc n l) as [field|] eqn:Hf; [|injection Hrun as <-; exact HI].
    destruct (typeMet_has mc _); [injection Hrun as <-; exact HI|].
    destruct (resolveMiddlewareWrapper (f_resolve field) (f_directives field))
      as [w|e] eqn:Hw.
    2:{ injection Hrun as <-. eapply E_parse; eauto. }
    pose proof (I_assign _ _ _ _ _ _ HI Hf Hw) as HI1.
    set (h1 := assign_resolve n l w hc) in *.
    destruct (f_type field) as [n'|ty|ty]; cbn [type_fields type_ofType] in Hrun.
    + destruct (h1 !! n') as [fs|] eqn:Hn'; [|injection Hrun as <-; exact HI1].
      destruct deep; [|injection Hrun as <-; exact HI1].
      apply (IH n' h1 mc r); [|exact Hrun].
      apply I_mark; eauto.
    + destruct (type_fields h1 ty); [|injection Hrun as <-; exact HI1].
      destruct deep; [|injection Hrun as <-; exact HI1].
      destruct (type_fields h1 (unwrap (ListOf ty))) as [child_fields|] eqn:Hc;
        [|injection Hrun as <-; exact HI1].
      destruct (wrapFieldsWithMiddleware_field_map child_fields) eqn:Hm;
        injection Hrun as <-; [exact HI1|].
      destruct (type_fields_unwrap _ _ _ Hc) as [n'' Hn''].
      eapply E_field_map; eauto.
    + destruct (type_fields h1 ty); [|injection Hrun as <-; exact HI1].
      destruct deep; [|injection Hrun as <-; exact HI1].
      destruct (type_fields h1 (unwrap (NonNull ty))) as [child_fields|] eqn:Hc;
        [|injection Hrun as <-; exact HI1].
      destruct (wrapFieldsWithMiddleware_field_map child_fields) eqn:Hm;
        injection Hrun as <-; [exact HI1|].
      destruct (type_fields_unwrap _ _ _ Hc) as [n'' Hn''].
      eapply E_field_map; eauto. }
  induction labels as [|l labels IHl]; intros res hc mc Hrun HI.
  - cbn in Hrun. injection Hrun as <-. exact HI.
  - cbn [for_labels] in Hrun.
    destruct (visit_field (walk fuel deep) n deep l hc mc) as [r|] eqn:Hv; [|discriminate].
    pose proof (Hbody _ _ _ _ HI Hv) as Hpost.
    destruct r as [h2 m2|e h2]; [eapply IHl; eauto|].
    injection Hrun as <-. exact Hpost.
Qed.

End WalkInvariant.

Section WalkExtras.

Lemma assoc_set_resolve_None {l k : string} {r} (fs : field_map) :
  assoc k fs = None -> assoc k (set_resolve l r fs) = None.
Proof.
  induction fs as [|[l' f'] fs IH]; cbn; [reflexivity|].
  destruct (String.eqb k l') eqn:Ek; [discriminate|]. intros H.
  destruct (String.eqb l l'); cbn; rewrite Ek; auto.
Qed.

Lemma set_resolve_labels l r (fs : field_map) :
  map fst (set_resolve l r fs) = map fst fs.
Proof.
  induction fs as [|[l' f'] fs IH]; cbn; [reflexivity|].
  destruct (String.eqb l l'); cbn; congruence.
Qed.

Lemma well_labelled_assign (h : heap) t l r :
  well_labelled h -> well_labelled (assign_resolve t l r h).
Proof.
  intros Hwl t' fs' Hfs'. unfold assign_resolve in Hfs'.
  destruct (decide (t' = t)) as [->|Hne].
  - rewrite lookup_alter_eq in Hfs'.
    destruct (h !! t) as [fs|] eqn:Hfs; cbn in Hfs'; [|discriminate].
    injection Hfs' as <-. rewrite set_resolve_labels. eauto.
  - rewrite lookup_alter_ne in Hfs' by congruence. eauto.
Qed.

Lemma parses_with_resolve (f : field) (w : resolver) :
  parses f -> parses (with_resolve f w).
Proof.
  intros [w0 Hw0]. unfold parses, resolveMiddlewareWrapper in *. cbn.
  destruct (parseSchemaDirectives _); cbn in *; [eauto|discriminate].
Qed.

Lemma activation_safe_assign (h : heap) t l r :
  activation_safe h -> activation_safe (assign_resolve t l r h).
Proof.
  intros Hs t' fs' Hfs'. unfold assign_resolve in Hfs'.
  destruct (decide (t' = t)) as [->|Hne].
  - rewrite lookup_alter_eq in Hfs'.
    destruct (h !! t) as [fs|] eqn:Hfs; cbn in Hfs'; [|discriminate].
    injection Hfs' as <-. destruct (Hs _ _ Hfs) as [Hno Hp]. split.
    + now apply assoc_set_resolve_None.
    + intros l' f' Hl'. destruct (String.eqb l l') eqn:El.
      * apply String.eqb_eq in El as <-.
        destruct (assoc l fs) as [f|] eqn:Hl.
        -- rewrite (assoc_set_resolve_eq _ _ _ _ Hl) in Hl'. injection Hl' as <-.
           apply parses_with_resolve. eauto.
        -- rewrite (assoc_set_resolve_None _ Hl) in Hl'. discriminate.
      * apply String.eqb_neq in El.
        rewrite assoc_set_resolve_ne in Hl' by assumption. eauto.
  - rewrite lookup_alter_ne in Hfs' by congruence. eauto.
Qed.

Lemma field_of_parses (h : heap) t l f :
  activation_safe h -> field_of h t l = Some f -> parses f.
Proof.
  intros Hs Hf. unfold field_of in Hf.
  destruct (h !! t) as [fs|] eqn:Hfs; cbn in Hf; [|discriminate].
  destruct (Hs _ _ Hfs) as [_ Hp]. eauto.
Qed.

(** A walk of a safe heap completes, and leaves a safe heap with the same
    types. *)
Lemma walk_safe deep (type : option string) (h : heap) :
  activation_safe h ->
  exists h' m', wrapFieldsWithMiddleware type deep h = Some (Done h' m')
    /\ activation_safe h' /\ dom h' = dom h.
Proof.
  intros Hs.
  destruct (wrapFieldsWithMiddleware_terminates type deep h) as [res Hres].
  destruct type as [n|]; unfold wrapFieldsWithMiddleware in *.
  - pose proof (walk_invariant
                  (fun h' _ => activation_safe h' /\ dom h' = dom h)
                  (fun _ => False) deep) as Hinv.
    specialize (Hinv
      ltac:(intros h1 m t l f w [H1 H2] _ _; split;
            [now apply activation_safe_assign|now rewrite assign_resolve_dom])
      ltac:(intros h1 m n' H1 _; exact H1)).
    assert (forall (h1 : heap) (m : gset string) t l f e,
              activation_safe h1 /\ dom h1 = dom h -> field_of h1 t l = Some f ->
              resolveMiddlewareWrapper (f_resolve f) (f_directives f) = Throw e -> False)
      as Hp.
    { intros h1 m t l f e [H1 _] Hf He.
      destruct (field_of_parses _ _ _ _ H1 Hf) as [w Hw]. congruence. }
    assert (forall (h1 : heap) (m : gset string) n' fs e,
              activation_safe h1 /\ dom h1 = dom h -> h1 !! n' = Some fs ->
              wrapFieldsWithMiddleware_field_map fs = Throw e -> False) as Hm.
    { intros h1 m n' fs e [H1 _] Hfs He. destruct (H1 _ _ Hfs) as [Hno _].
      unfold wrapFieldsWithMiddleware_field_map in He. rewrite Hno in He. discriminate. }
    specialize (Hinv Hp Hm _ _ _ _ res (conj Hs eq_refl) Hres).
    destruct res as [h' m'|e h']; [|contradiction].
    exists h', m'. rewrite Hres. tauto.
  - exists h, ∅. auto.
Qed.

(** X16: activation of a schema whose static configurations all parse and
    which has no field called [_fields] returns [true]; the heap it leaves
    has the same types and is safe again. *)
Theorem activation_succeeds_on_safe_schema (s : schema) (h : heap) :
  activation_safe h ->
  exists h', applySchemaCustomDirectives (SchemaInstance s) h = Some (Ret (VBool true), h')
    /\ activation_safe h' /\ dom h' = dom h.
Proof.
  intros Hs. cbn.
  destruct (walk_safe true (_queryType s) h Hs) as (h1 & m1 & -> & Hs1 & Hd1).
  destruct (walk_safe false (_mutationType s) h1 Hs1) as (h2 & m2 & -> & Hs2 & Hd2).
  exists h2. split; [reflexivity|]. split; [assumption|congruence].
Qed.

Lemma walk_throws_TypeError deep (type : option string) (h h' : heap) e :
  wrapFieldsWithMiddleware type deep h = Some (Threw e h') -> is_TypeError e.
Proof.
  intros Hres. destruct type as [n|]; unfold wrapFieldsWithMiddleware in Hres; [|discriminate].
  pose proof (walk_invariant (fun _ _ => True) is_TypeError deep) as Hinv.
  refine (Hinv _ _ _ _ _ _ _ _ (Threw e h') I Hres); clear; auto.
  - intros h m t l f e _ _ He. unfold resolveMiddlewareWrapper in He.
    destruct (parseSchemaDirectives _) eqn:Hp; cbn in He; [discriminate|].
    injection He as <-. eapply parseSchemaDirectives_TypeError; eauto.
  - intros h m n fs e _ _ He. unfold wrapFieldsWithMiddleware_field_map in He.
    destruct (assoc "_fields" fs); [|discriminate]. injection He as <-.
    eexists. reflexivity.
Qed.

(** X17: whatever a schema instance holds, an exception of activation is a
    [TypeError]; the usage error is kept for what is not a schema. *)
Theorem activation_of_schema_throws_only_TypeError (s : schema) (h h' : heap) (e : value) :
  applySchemaCustomDirectives (SchemaInstance s) h = Some (Throw e, h') ->
  is_TypeError e /\ e <> usage_error.
Proof.
  intros H. assert (is_TypeError e) as Ht.
  { cbn in H.
    destruct (wrapFieldsWithMiddleware (_queryType s) true h) as [[h1 m1|e1 h1]|] eqn:H1;
      [|injection H as <- <-; eapply walk_throws_TypeError; eauto|discriminate].
    destruct (wrapFieldsWithMiddleware (_mutationType s) false h1) as [[h2 m2|e2 h2]|] eqn:H2;
      [discriminate|injection H as <- <-; eapply walk_throws_TypeError; eauto|discriminate]. }
  split; [assumption|]. destruct Ht as [msg ->]. discriminate.
Qed.

(** What every walk keeps: the labels, the types, and the marks within the
    root and the types of the heap. *)
Lemma walk_keeps_shape deep (hs : heap) (root : string) : forall fuel n h m res,
  well_labelled h -> dom h = dom hs -> root ∈ m ->
  {[n]} ∪ m ⊆ {[root]} ∪ dom hs ->
  walk fuel deep n h m = Some res ->
  match res with
  | Done h' m' =>
      well_labelled h' /\ dom h' = dom hs /\ root ∈ m' /\ m' ⊆ {[root]} ∪ dom hs
  | Threw _ _ => True
  end.
Proof.
  intros fuel n h m res Hwl Hd Hr Hsub Hrun.
  refine (walk_invariant
            (fun h' m' => well_labelled h' /\ dom h' = dom hs /\ root ∈ m'
                          /\ m' ⊆ {[root]} ∪ dom hs)
            (fun _ => True) deep _ _ _ _ fuel n h m res _ Hrun); auto.
  - intros h1 m1 t l f w (H1 & H2 & H3 & H4) _ _.
    split; [now apply well_labelled_assign|].
    split; [now rewrite assign_resolve_dom|]. auto.
  - intros h1 m1 n' (H1 & H2 & H3 & H4) Hn'.
    apply elem_of_dom in Hn'. rewrite H2 in Hn'.
    repeat split; try assumption; set_solver.
  - repeat split; try assumption. set_solver.
Qed.

Section RootLoop.
Variable deep : bool.
Variable hs : heap.
Variable root : string.
Variable fuel : nat.

Local Notation body := (visit_field (walk fuel deep) root deep).
Local Notation shape h m :=
  (well_labelled h /\ dom h = dom hs /\ root ∈ m /\ m ⊆ {[root]} ∪ dom hs).

Lemma typeMet_has_mono (m m' : gset string) k :
  m ⊆ m' -> typeMet_has m' k = false -> typeMet_has m k = false.
Proof.
  unfold typeMet_has. intros Hsub H. apply orb_false_iff in H as [H1 H2].
  rewrite H2, orb_false_r. apply bool_decide_eq_false in H1.
  apply bool_decide_eq_false. set_solver.
Qed.

(** One round of the root's loop keeps the shape and leaves the other fields
    of the root as they are. *)
Lemma root_visit_frame l (hc : heap) mc h2 m2 :
  shape hc mc ->
  body l hc mc = Some (Done h2 m2) ->
  shape h2 m2 /\ forall l', l' <> l -> field_of h2 root l' = field_of hc root l'.
Proof.
  intros (Hwl & Hd & Hr & Hsub) Hrun. unfold visit_field in Hrun.
  destruct (field_of hc root l) as [field|] eqn:Hf;
    [|injection Hrun as <- <-; auto].
  destruct (typeMet_has mc _) eqn:Hmet; [injection Hrun as <- <-; auto|].
  destruct (resolveMiddlewareWrapper (f_resolve field) (f_directives field))
    as [w|e] eqn:Hw; [|discriminate].
  pose proof (well_labelled_assign hc root l w Hwl) as Hwl1.
  pose proof (assign_resolve_dom root l w hc) as Hd1.
  assert (forall l', l' <> l ->
            field_of (assign_resolve root l w hc) root l' = field_of hc root l') as Hfr1.
  { intros l' Hne. apply field_of_assign_ne_label. congruence. }
  set (h1 := assign_resolve root l w hc) in *.
  assert (shape h1 mc) as Hs1 by (repeat split; try assumption; congruence).
  destruct (f_type field) as [n'|ty|ty]; cbn [type_fields type_ofType] in Hrun.
  - destruct (h1 !! n') as [fs|] eqn:Hn'; [|injection Hrun as <- <-; auto].
    destruct deep eqn:Hdeep; [|injection Hrun as <- <-; auto].
    cbn in Hmet. apply typeMet_has_false in Hmet.
    assert (n' ∈ dom hs) as Hin.
    { rewrite <- Hd, <- Hd1. apply elem_of_dom. eauto. }
    pose proof (walk_keeps_shape true hs root fuel n' h1 mc (Done h2 m2) Hwl1
                  ltac:(congruence) Hr ltac:(set_solver) Hrun) as Hshape.
    split; [exact Hshape|].
    intros l' Hne. rewrite <- (Hfr1 l' Hne). apply field_of_same_type.
    destruct (walk_once h1 true Hwl1 fuel n' h1 mc (Done h2 m2) Hmet
                ltac:(reflexivity) ltac:(intros ? ? ? ?; now left) Hrun)
      as (_ & Hframe & _).
    apply (Hframe root Hr).
  - destruct (type_fields h1 ty); [|injection Hrun as <- <-; auto].
    destruct deep; [|injection Hrun as <- <-; auto].
    destruct (type_fields h1 (unwrap (ListOf ty))) as [child_fields|];
      [|injection Hrun as <- <-; auto].
    destruct (wrapFieldsWithMiddleware_field_map child_fields); [|discriminate].
    injection Hrun as <- <-; auto.
  - destruct (type_fields h1 ty); [|injection Hrun as <- <-; auto].
    destruct deep; [|injection Hrun as <- <-; auto].
    destruct (type_fields h1 (unwrap (NonNull ty))) as [child_fields|];
      [|injection Hrun as <- <-; auto].
    destruct (wrapFieldsWithMiddleware_field_map child_fields); [|discriminate].
    injection Hrun as <- <-; auto.
Qed.

(** A field whose type is neither the root nor a type with fields is
    replaced in its round, and nothing else happens in that round. *)
Lemma root_visit_leaf l (hc : heap) mc h2 m2 f :
  shape hc mc ->
  field_of hc root l = Some f ->
  typeMet_has ({[root]} ∪ dom hs) (property_key (type_name (f_type f))) = false ->
  body l hc mc = Some (Done h2 m2) ->
  exists w, resolveMiddlewareWrapper (f_resolve f) (f_directives f) = Ret w
    /\ field_of h2 root l = Some (with_resolve f w).
Proof.
  intros (Hwl & Hd & Hr & Hsub) Hf Hleaf Hrun. unfold visit_field in Hrun.
  rewrite Hf, (typeMet_has_mono _ _ _ Hsub Hleaf) in Hrun.
  destruct (resolveMiddlewareWrapper (f_resolve f) (f_directives f))
    as [w|e] eqn:Hw; [|discriminate].
  exists w. split; [reflexivity|].
  pose proof (field_of_assign_eq hc root l w f Hf) as Hnew.
  pose proof (assign_resolve_dom root l w hc) as Hd1.
  set (h1 := assign_resolve root l w hc) in *.
  destruct (f_type f) as [n'|ty|ty]; cbn [type_fields type_ofType] in Hrun.
  - cbn in Hleaf. apply typeMet_has_false in Hleaf.
    assert (h1 !! n' = None) as Hn'.
    { apply not_elem_of_dom. rewrite Hd1, Hd. set_solver. }
    rewrite Hn' in Hrun. injection Hrun as <- <-. exact Hnew.
  - destruct (type_fields h1 ty); [|injection Hrun as <- <-; auto].
    destruct deep; [|injection Hrun as <- <-; auto].
    destruct (type_fields h1 (unwrap (ListOf ty))) as [child_fields|];
      [|injection Hrun as <- <-; auto].
    destruct (wrapFieldsWithMiddleware_field_map child_fields); [|discriminate].
    injection Hrun as <- <-; auto.
  - destruct (type_fields h1 ty); [|injection Hrun as <- <-; auto].
    destruct deep; [|injection Hrun as <- <-; auto].
    destruct (type_fields h1 (unwrap (NonNull ty))) as [child_fields|];
      [|injection Hrun as <- <-; auto].
    destruct (wrapFieldsWithMiddleware_field_map child_fields); [|discriminate].
    injection Hrun as <- <-; auto.
Qed.

Lemma root_loop : forall labels (hc : heap) mc h' m',
  NoDup labels ->
  shape hc mc ->
  for_labels body labels hc mc = Some (Done h' m') ->
  shape h' m'
  /\ (forall l, ~ In l labels -> field_of h' root l = field_of hc root l)
  /\ (forall l f, In l labels -> field_of hc root l = Some f ->
        typeMet_has ({[root]} ∪ dom hs) (property_key (type_name (f_type f))) = false ->
        exists w, resolveMiddlewareWrapper (f_resolve f) (f_directives f) = Ret w
          /\ field_of h' root l = Some (with_resolve f w)).
Proof.
  induction labels as [|l0 labels IH]; intros hc mc h' m' Hnd Hshape Hrun.
  - cbn in Hrun. injection Hrun as <- <-. split; [assumption|].
    split; [reflexivity|]. intros l f [].
  - cbn [for_labels] in Hrun.
    destruct (body l0 hc mc) as [[h2 m2|e h2]|] eqn:Hv; try discriminate.
    apply NoDup_cons in Hnd as [Hnotin Hnd].
    destruct (root_visit_frame _ _ _ _ _ Hshape Hv) as [Hshape2 Hframe].
    destruct (IH h2 m2 h' m' Hnd Hshape2 Hrun) as (Hshape' & Hout & Hin).
    split; [assumption|]. split.
    + intros l Hl. rewrite Hout by (intros ?; apply Hl; now right).
      apply Hframe. intros ->. apply Hl. now left.
    + intros l f [<-|Hl] Hf Hleaf.
      * destruct (root_visit_leaf _ _ _ _ _ _ Hshape Hf Hleaf Hv) as (w & Hw & Hnew).
        exists w. split; [assumption|]. rewrite Hout; [assumption|].
        intros Hl. apply Hnotin. now apply list_elem_of_In.
      * apply Hin; [assumption| |assumption]. rewrite Hframe; [assumption|].
        intros ->. apply Hnotin. now apply list_elem_of_In.
Qed.

End RootLoop.

(** The fields of the root whose type is a leaf are replaced by every walk
    that completes. *)
Lemma root_leaf_wrapped (root : string) (deep : bool) (h h' : heap) m' l f :
  well_labelled h ->
  wrapFieldsWithMiddleware (Some root) deep h = Some (Done h' m') ->
  field_of h root l = Some f ->
  typeMet_has ({[root]} ∪ dom h) (property_key (type_name (f_type f))) = false ->
  well_labelled h' /\ dom h' = dom h /\
  exists w, resolveMiddlewareWrapper (f_resolve f) (f_directives f) = Ret w
    /\ field_of h' root l = Some (with_resolve f w).
Proof.
  intros Hwl Hrun Hf Hleaf. unfold wrapFieldsWithMiddleware in Hrun.
  cbn [walk] in Hrun.
  assert (exists fs, h !! root = Some fs /\ assoc l fs = Some f) as (fs & Hfs & Hl).
  { unfold field_of in Hf. destruct (h !! root) as [fs|]; cbn in Hf; [eauto|discriminate]. }
  rewrite Hfs in Hrun.
  destruct (root_loop deep h root (size h) (map fst fs) h ({[root]} ∪ ∅) h' m')
    as ((Hwl' & Hd' & _) & _ & Hin); try assumption.
  - eapply Hwl, Hfs.
  - repeat split; try assumption; set_solver.
  - split; [assumption|]. split; [assumption|].
    apply (Hin l f); try assumption. eapply assoc_In_fst, Hl.
Qed.

(** X18: a walk that completes has replaced the resolver of every field of
    its root whose type is a leaf: its name is not the root's, not that of a
    type with fields and not a member of [Object.prototype] (a list or
    non-null type counts with the name [undefined]). *)
Theorem root_leaf_fields_are_wrapped (root : string) (deep : bool) (h h' : heap) m' l f :
  well_labelled h ->
  wrapFieldsWithMiddleware (Some root) deep h = Some (Done h' m') ->
  field_of h root l = Some f ->
  typeMet_has ({[root]} ∪ dom h) (property_key (type_name (f_type f))) = false ->
  exists sd,
    parseSchemaDirectives
      (match f_directives f with VUndefined => VObj [] | _ => f_directives f end) = Ret sd
    /\ field_of h' root l
       = Some (with_resolve f (Wrapped (default DefaultResolve (f_resolve f)) sd)).
Proof.
  intros Hwl Hrun Hf Hleaf.
  destruct (root_leaf_wrapped _ _ _ _ _ _ _ Hwl Hrun Hf Hleaf) as (_ & _ & w & Hw & Hnew).
  unfold resolveMiddlewareWrapper in Hw.
  destruct (parseSchemaDirectives _) as [sd|] eqn:Hsd; cbn in Hw; [|discriminate].
  injection Hw as <-. exists sd. split; [reflexivity|exact Hnew].
Qed.

(** X19: activation is not idempotent.  A second walk wraps the wrapped
    resolver of such a field again, with the same static directives. *)
Theorem second_walk_wraps_again (root : string) (deep : bool) (h h1 h2 : heap) m1 m2 l f :
  well_labelled h ->
  wrapFieldsWithMiddleware (Some root) deep h = Some (Done h1 m1) ->
  wrapFieldsWithMiddleware (Some root) deep h1 = Some (Done h2 m2) ->
  field_of h root l = Some f ->
  typeMet_has ({[root]} ∪ dom h) (property_key (type_name (f_type f))) = false ->
  exists sd,
    parseSchemaDirectives
      (match f_directives f with VUndefined => VObj [] | _ => f_directives f end) = Ret sd
    /\ field_of h2 root l
       = Some (with_resolve f
                 (Wrapped (Wrapped (default DefaultResolve (f_resolve f)) sd) sd)).
Proof.
  intros Hwl Hrun1 Hrun2 Hf Hleaf.
  destruct (root_leaf_wrapped _ _ _ _ _ _ _ Hwl Hrun1 Hf Hleaf)
    as (Hwl1 & Hd1 & w & Hw & Hnew).
  rewrite <- Hd1 in Hleaf.
  destruct (root_leaf_wrapped _ _ _ _ _ _ _ Hwl1 Hrun2 Hnew Hleaf)
    as (_ & _ & w' & Hw' & Hnew').
  unfold resolveMiddlewareWrapper in Hw, Hw'. cbn in Hw'.
  destruct (parseSchemaDirectives _) as [sd|] eqn:Hsd; cbn in Hw, Hw'; [|discriminate].
  injection Hw as <-. injection Hw' as <-. exists sd. split; [reflexivity|].
  exact Hnew'.
Qed.

End WalkExtras.

(** Building heaps that are well labelled and safe. *)
Lemma well_labelled_empty : well_labelled ∅.
Proof. intros t fs H. rewrite lookup_empty in H. discriminate. Qed.

Lemma well_labelled_insert t fs (h : heap) :
  NoDup (map fst fs) -> well_labelled h -> well_labelled (<[t := fs]> h).
Proof.
  intros Hnd Hwl t' fs' H. destruct (decide (t' = t)) as [->|Hne].
  - rewrite lookup_insert_eq in H. now injection H as <-.
  - rewrite lookup_insert_ne in H by congruence. eauto.
Qed.

Lemma activation_safe_empty : activation_safe ∅.
Proof. intros t fs H. rewrite lookup_empty in H. discriminate. Qed.

Lemma activation_safe_insert t fs (h : heap) :
  assoc "_fields" fs = None ->
  Forall (fun lf => parses lf.2) fs ->
  activation_safe h -> activation_safe (<[t := fs]> h).
Proof.
  intros Hno Hp Hs t' fs' H. destruct (decide (t' = t)) as [->|Hne].
  - rewrite lookup_insert_eq in H. injection H as <-. split; [assumption|].
    clear Hno. induction Hp as [|[l0 f0] fs Hf0 Hp IH]; intros l f Hl; cbn in Hl;
      [discriminate|].
    destruct (String.eqb l l0); [now injection Hl as <-|eauto].
  - rewrite lookup_insert_ne in H by congruence. eauto.
Qed.

Lemma well_labelled_list_wrapped : well_labelled list_wrapped.
Proof.
  unfold list_wrapped. rewrite <- insert_empty.
  repeat apply well_labelled_insert; try apply well_labelled_empty;
    cbn; apply NoDup_singleton.
Qed.

Lemma well_labelled_self_referential : well_labelled self_referential.
Proof.
  unfold self_referential. rewrite <- insert_empty.
  apply well_labelled_insert; [|apply well_labelled_empty].
  cbn. apply NoDup_cons. split; [|apply NoDup_singleton].
  intros H. apply list_elem_of_singleton in H. discriminate.
Qed.

Lemma activation_safe_shared_type : activation_safe shared_type.
Proof.
  unfold shared_type. rewrite <- insert_empty.
  repeat apply activation_safe_insert; try apply activation_safe_empty;
    try reflexivity; repeat constructor; eexists; reflexivity.
Qed.

(** X15 at the self-referential graph [type A { self: A, x: String }]. *)
Lemma wrapFieldsWithMiddleware_at_most_once_witness :
  well_labelled self_referential /\
  exists res,
    wrapFieldsWithMiddleware (Some "A") true self_referential = Some res /\
    replaced_at_most_once self_referential (heap_of res).
Proof.
  split; [exact well_labelled_self_referential|].
  eexists. split; [vm_compute; reflexivity|].
  apply (wrapFieldsWithMiddleware_at_most_once (Some "A") true self_referential).
  - exact well_labelled_self_referential.
  - vm_compute. reflexivity.
Defined.

(** X16 at [type Query { user: User }  type Mutation { setUser: User }  type
    User { name: String }]. *)
Lemma activation_succeeds_on_safe_schema_witness :
  activation_safe shared_type /\
  exists h',
    applySchemaCustomDirectives
      (SchemaInstance {| _queryType := Some "Query"; _mutationType := Some "Mutation" |})
      shared_type = Some (Ret (VBool true), h')
    /\ activation_safe h' /\ dom h' = dom shared_type.
Proof.
  split; [exact activation_safe_shared_type|].
  apply (activation_succeeds_on_safe_schema
           {| _queryType := Some "Query"; _mutationType := Some "Mutation" |} shared_type).
  exact activation_safe_shared_type.
Defined.

(** X17 at [type Query { items: [Item] }  type Item { _fields: String }]. *)
Lemma activation_of_schema_throws_only_TypeError_witness :
  exists h',
    applySchemaCustomDirectives
      (SchemaInstance {| _queryType := Some "Query"; _mutationType := None |})
      underscore_fields
    = Some (Throw (TypeError "Cannot read property 'name' of undefined"), h') /\
    is_TypeError (TypeError "Cannot read property 'name' of undefined") /\
    TypeError "Cannot read property 'name' of undefined" <> usage_error.
Proof.
  eexists. split; [vm_compute; reflexivity|].
  eapply (activation_of_schema_throws_only_TypeError
            {| _queryType := Some "Query"; _mutationType := None |} underscore_fields).
  vm_compute. reflexivity.
Defined.

(** X18 at the field [items: [Item]] of the root of [type Query { items:
    [Item] }  type Item { name: String }]. *)
Lemma root_leaf_fields_are_wrapped_witness :
  exists h' m',
    wrapFieldsWithMiddleware (Some "Query") true list_wrapped = Some (Done h' m') /\
    exists sd,
      parseSchemaDirectives (VObj []) = Ret sd /\
      field_of h' "Query" "items"
      = Some (with_resolve (object_field (ListOf (Named "Item")))
                (Wrapped (Native 0) sd)).
Proof.
  eexists _, _. split; [vm_compute; reflexivity|].
  eapply (root_leaf_fields_are_wrapped "Query" true list_wrapped _ _ "items"
           (object_field (ListOf (Named "Item")))).
  - exact well_labelled_list_wrapped.
  - vm_compute. reflexivity.
  - reflexivity.
  - vm_compute. reflexivity.
Defined.

(** X19 at the same field, for two walks in a row. *)
Lemma second_walk_wraps_again_witness :
  exists h1 m1 h2 m2,
    wrapFieldsWithMiddleware (Some "Query") true list_wrapped = Some (Done h1 m1) /\
    wrapFieldsWithMiddleware (Some "Query") true h1 = Some (Done h2 m2) /\
    exists sd,
      parseSchemaDirectives (VObj []) = Ret sd /\
      field_of h2 "Query" "items"
      = Some (with_resolve (object_field (ListOf (Named "Item")))
                (Wrapped (Wrapped (Native 0) sd) sd)).
Proof.
  eexists _, _, _, _. split; [vm_compute; reflexivity|].
  split; [vm_compute; reflexivity|].
  eapply (second_walk_wraps_again "Query" true list_wrapped _ _ _ _ "items"
           (object_field (ListOf (Named "Item")))).
  - exact well_labelled_list_wrapped.
  - vm_compute. reflexivity.
  - vm_compute. reflexivity.
  - reflexivity.
  - vm_compute. reflexivity.
Defined.
